(** * Lumera Research Archive: the draft key-management and versioning core

    A shallow embedding of [src/crypto.ts], [src/paper.ts], [src/wallet.ts],
    [src/lumescope.ts] and [src/drafts.ts], and the properties of the
    encrypted-draft protocol proved on it.

    Conventions of the embedding:
    - a JS [number] holding a version or a timestamp is a [Z], exact at
      every size; printing it in a template string is its decimal form;
    - a [Uint8Array] is a [list Byte.byte]; [T | null] and [T | undefined]
      are [option T]; a JS string is a [string];
    - [throw] and promise rejection are the [Err] outcome of [M], an
      error-and-state monad over what persists between calls ([World]);
      what was mutated before a throw stays mutated;
    - an [async] function is run to completion, one call after the other,
      except for [getOrDeriveDerivedKey], which is also given call by call
      and answer by answer ([Section Interleaving]);
    - everything outside the repository (libsodium, [JSON.parse], the
      wallet extension, the Cascade uploader and downloader, the Lumescope
      HTTP endpoint, the clock, the random source) is an interface
      ([Sodium], [Json]) or a field of the per-call environment [Host];
    - progress callbacks and console output are left out. *)

From Stdlib Require Import ZArith String Ascii.
From stdpp Require Import base tactics option list strings pretty sorting.

#[local] Set Warnings "-register-all".

Local Open Scope string_scope.
Local Open Scope list_scope.
Local Open Scope Z_scope.

(** ** JavaScript values and idioms *)

Definition bytes := list Byte.byte.

#[global] Instance byte_eq_dec : EqDecision Byte.byte := Byte.byte_eq_dec.

(** [!s] on a string: only the empty string is falsy. *)
Definition str_truthy (s : string) : bool := negb (String.eqb s "").

(** [a || b] on strings. *)
Definition str_or (a b : string) : string := if str_truthy a then a else b.

(** [o?.f || d] where [o] may be [undefined] and [f] is a number. *)
Definition num_or (o : option Z) (d : Z) : Z :=
  match o with
  | Some n => if n =? 0 then d else n
  | None => d
  end.

(** [s.includes(sub)]. *)
Definition includes (sub s : string) : bool :=
  match String.index 0 sub s with
  | Some _ => true
  | None => false
  end.

(** [arr[arr.length - 1]]: [undefined] on the empty array. *)
Definition last_elem {A} (l : list A) : option A := last l.

(** ** Errors

    [AppError msg] is [throw new Error(msg)] written in the repository;
    [TypeError] is the runtime's own throw on a property read of [null] or
    [undefined]; [Rejected who msg] is a rejection that comes from outside
    (the wallet, the uploader, the downloader, the index, libsodium). *)

Inductive Origin := Wallet | Uploader | Downloader | Libsodium | JsonParser.

Inductive exn :=
| AppError (msg : string)
| TypeError (msg : string)
| Rejected (who : Origin) (msg : string).

Definition message (e : exn) : string :=
  match e with
  | AppError m | TypeError m | Rejected _ m => m
  end.

Inductive Result (A : Type) :=
| Ok (a : A)
| Err (e : exn).
Arguments Ok {A} a.
Arguments Err {A} e.

Definition rbind {A B} (r : Result A) (k : A → Result B) : Result B :=
  match r with
  | Ok a => k a
  | Err e => Err e
  end.

(** [try { body } catch { handler }] on a pure computation. *)
Definition try_catch {A} (body : Result A) (handler : exn → A) : A :=
  match body with
  | Ok a => a
  | Err e => handler e
  end.

Declare Scope result_scope.
Delimit Scope result_scope with result.
Notation "x <- r ;; k" := (rbind r (λ x, k))
  (at level 100, r at next level, right associativity) : result_scope.

(** The messages the module throws, under the names of the error taxonomy. *)
Definition CryptoNotInitialized : exn := AppError "Crypto not initialized".
Definition DecryptionFailed : exn :=
  AppError "Decryption failed - invalid key or corrupted data".
Definition KeyShareDecryptionFailed : exn :=
  AppError "Failed to decrypt key share - invalid credentials".
Definition NoKeyShare : exn :=
  AppError "NO_KEY_SHARE: You need to use the invitation link to access this draft. Please ask the draft owner to send you the secure link.".
Definition NoAccess : exn := AppError "No access to this draft".
Definition NotConnected : exn := AppError "Not connected".
Definition ClientNotInitialized : exn := AppError "Cascade client not initialized".
Definition DraftNotFound : exn := AppError "Draft not found".
Definition VersionNotFound : exn := AppError "Version not found".
Definition InvalidDraftData : exn := AppError "Invalid draft data".
Definition OnlyOwner : exn := AppError "Only owner can add collaborators".
Definition AlreadyCollaborator : exn := AppError "Already a collaborator".

(** ** libsodium ([src/types/libsodium.d.ts])

    The operations of [interface Sodium] that are functions of their
    arguments. [randombytes_buf] and [crypto_secretbox_keygen] draw from the
    random source and are supplied by the caller's environment instead.
    [crypto_secretbox_open_easy] is declared to return [Uint8Array | null];
    [from_base64] throws on malformed text, which is its [None]. *)

Class Sodium := {
  crypto_secretbox_KEYBYTES : nat;
  crypto_secretbox_NONCEBYTES : nat;
  crypto_secretbox_easy : bytes → bytes → bytes → bytes;
  crypto_secretbox_open_easy : bytes → bytes → bytes → option bytes;
  crypto_generichash : nat → bytes → bytes;
  to_base64 : bytes → string;
  from_base64 : string → option bytes;
  to_hex : bytes → string;
}.

(** What the module relies on from the library: text encoding round-trips,
    a box opens under the key and nonce that sealed it, and (the AEAD
    idealisation) under no other key. libsodium accepts only keys of
    [crypto_secretbox_KEYBYTES] bytes and nonces of
    [crypto_secretbox_NONCEBYTES] bytes, so the laws speak of those. *)
Class SodiumLaws `{Sodium} := {
  from_to_base64 : ∀ b, from_base64 (to_base64 b) = Some b;
  open_easy_sealed : ∀ m n k,
    length k = crypto_secretbox_KEYBYTES →
    length n = crypto_secretbox_NONCEBYTES →
    crypto_secretbox_open_easy (crypto_secretbox_easy m n k) n k = Some m;
  open_easy_other_key : ∀ m n k k',
    length k = crypto_secretbox_KEYBYTES →
    length k' = crypto_secretbox_KEYBYTES →
    length n = crypto_secretbox_NONCEBYTES →
    k ≠ k' →
    crypto_secretbox_open_easy (crypto_secretbox_easy m n k) n k' = None;
}.

(** ** [src/crypto.ts] *)

Inductive Algorithm := xchacha20_poly1305.

Record EncryptedDocument := {
  ed_ciphertext : string;
  ed_nonce : string;
  ed_algorithm : Algorithm;
}.

Record EncryptedKeyShare := {
  ks_wallet : string;
  ks_encryptedKey : string;
  ks_nonce : string;
}.

Section Crypto.
Context `{Sodium}.

(** [sodiumReady] is the module flag set by [initCrypto]; [nonce] is the
    value [sodium.randombytes_buf(crypto_secretbox_NONCEBYTES)] returns. *)
Variable sodiumReady : bool.

Local Open Scope result_scope.

Definition sodium_from_base64 (s : string) : Result bytes :=
  match from_base64 s with
  | Some b => Ok b
  | None => Err (Rejected Libsodium "invalid input")
  end.

Definition encryptDocument (nonce content documentKey : bytes)
  : Result EncryptedDocument :=
  if negb sodiumReady then Err CryptoNotInitialized else
  let ciphertext := crypto_secretbox_easy content nonce documentKey in
  Ok {| ed_ciphertext := to_base64 ciphertext;
        ed_nonce := to_base64 nonce;
        ed_algorithm := xchacha20_poly1305 |}.

Definition decryptDocument (encrypted : EncryptedDocument) (documentKey : bytes)
  : Result bytes :=
  if negb sodiumReady then Err CryptoNotInitialized else
  ciphertext <- sodium_from_base64 (ed_ciphertext encrypted) ;;
  nonce <- sodium_from_base64 (ed_nonce encrypted) ;;
  match crypto_secretbox_open_easy ciphertext nonce documentKey with
  | None => Err DecryptionFailed
  | Some plaintext => Ok plaintext
  end.

Definition deriveKeyFromSignature (signature : bytes) : Result bytes :=
  if negb sodiumReady then Err CryptoNotInitialized else
  Ok (crypto_generichash crypto_secretbox_KEYBYTES signature).

Definition encryptKeyForCollaborator
    (nonce documentKey collaboratorDerivedKey : bytes)
    (collaboratorWallet : string) : Result EncryptedKeyShare :=
  if negb sodiumReady then Err CryptoNotInitialized else
  let encryptedKey :=
    crypto_secretbox_easy documentKey nonce collaboratorDerivedKey in
  Ok {| ks_wallet := collaboratorWallet;
        ks_encryptedKey := to_base64 encryptedKey;
        ks_nonce := to_base64 nonce |}.

Definition decryptKeyShare (share : EncryptedKeyShare) (derivedKey : bytes)
  : Result bytes :=
  if negb sodiumReady then Err CryptoNotInitialized else
  encryptedKey <- sodium_from_base64 (ks_encryptedKey share) ;;
  nonce <- sodium_from_base64 (ks_nonce share) ;;
  match crypto_secretbox_open_easy encryptedKey nonce derivedKey with
  | None => Err KeyShareDecryptionFailed
  | Some documentKey => Ok documentKey
  end.

Definition toBase64 (data : bytes) : string := to_base64 data.
Definition fromBase64 (base64 : string) : Result bytes := sodium_from_base64 base64.

(** [generateDraftId]: [randomBytes] is [sodium.randombytes_buf(8)]. *)
Definition generateDraftId (randomBytes : bytes) : string := to_hex randomBytes.
End Crypto.

(** ** [JSON.parse] and dynamic property reads *)

Inductive json :=
| JNull
| JBool (b : bool)
| JNumber (n : Z)
| JString (s : string)
| JArray (items : list json)
| JObject (props : list (string * json)).

(** [JSON.parse(text)]: [None] is the [SyntaxError] it throws. The own
    properties of a parsed object are listed once each. *)
Class Json := { JSON_parse : string → option json }.

Fixpoint own_property (props : list (string * json)) (name : string) : option json :=
  match props with
  | [] => None
  | (k, v) :: rest => if String.eqb k name then Some v else own_property rest name
  end.

(** [v.name] for a parsed value [v] and a name that no built-in prototype
    defines ([type], [encrypted], [ciphertext], [nonce]): reading from [null]
    throws, reading from a primitive or an array gives [undefined] ([None]). *)
Definition get_prop (v : json) (name : string) : Result (option json) :=
  match v with
  | JNull => Err (TypeError "Cannot read properties of null")
  | JObject props => Ok (own_property props name)
  | _ => Ok None
  end.

(** [u.name] where [u] may be [undefined]. *)
Definition get_prop_of (u : option json) (name : string) : Result (option json) :=
  match u with
  | None => Err (TypeError "Cannot read properties of undefined")
  | Some v => get_prop v name
  end.

(** [u !== s] for a string literal [s]. *)
Definition strict_neq (u : option json) (s : string) : bool :=
  match u with
  | Some (JString s') => negb (String.eqb s' s)
  | _ => true
  end.

(** ** [src/paper.ts] *)

Inductive DocumentStatus := status_draft | status_shared | status_published.

Record Author := {
  a_name : string;
  a_wallet : option string;
  a_affiliation : option string;
  a_orcid : option string;
}.

Record Collaborator := {
  c_wallet : string;
  c_name : string;
  c_keyShare : EncryptedKeyShare;
  c_addedAt : Z;
  c_addedBy : string;
  c_documentKeyBase64 : option string;
}.

Record DraftVersion := {
  dv_version : Z;
  dv_actionId : string;
  dv_createdAt : Z;
  dv_createdBy : string;
  dv_message : option string;
}.

Record Draft := {
  draftId : string;
  title : string;
  status : DocumentStatus;
  ownerEncryptedKey : string;
  ownerKeyNonce : string;
  owner : string;
  collaborators : list Collaborator;
  versions : list DraftVersion;
  createdAt : Z;
  updatedAt : Z;
}.

Record ManifestMetadata := {
  md_title : string;
  md_abstract : string;
  md_authors : list Author;
  md_keywords : list string;
  md_citations : list string;
  md_draftId : string;
  md_version : Z;
  md_createdBy : string;
  md_createdAt : Z;
}.

(** The [type] field is the constant ['encrypted_draft']. *)
Record EncryptedDraftManifest := {
  m_version : Z;
  m_metadata : ManifestMetadata;
  m_encrypted : EncryptedDocument;
}.

(** The [type] field is the constant ['draft_invitation']. *)
Record CollaborationInvitation := {
  inv_version : Z;
  inv_draftId : string;
  inv_draftTitle : string;
  inv_owner : string;
  inv_ownerName : option string;
  inv_invitedWallet : string;
  inv_keyShare : EncryptedKeyShare;
  inv_latestVersion : Z;
  inv_latestActionId : string;
  inv_createdAt : Z;
  inv_invitedBy : string;
}.

Record StoredDraft := {
  sd_draftId : string;
  sd_title : string;
  sd_status : DocumentStatus;
  sd_collaboratorCount : nat;
  sd_latestVersion : Z;
  sd_updatedAt : Z;
  sd_owner : option string;
}.

Section Paper.
Context `{Json}.
Local Open Scope result_scope.

Definition json_parse (data : string) : Result json :=
  match JSON_parse data with
  | Some v => Ok v
  | None => Err (Rejected JsonParser "SyntaxError")
  end.

(** The body of the [try] block of [parseEncryptedDraftManifest]. *)
Definition parseEncryptedDraftManifest_try (data : string) : Result (option json) :=
  manifest <- json_parse data ;;
  type <- get_prop manifest "type" ;;
  if strict_neq type "encrypted_draft" then Ok None
  else Ok (Some manifest).

(** [parseEncryptedDraftManifest]: [None] is [null]; the cast of the parsed
    value to [EncryptedDraftManifest] checks nothing. *)
Definition parseEncryptedDraftManifest (data : string) : option json :=
  try_catch (parseEncryptedDraftManifest_try data) (λ _, None).
End Paper.

(** ** [src/lumescope.ts] *)

Record Decoded := {
  data_hash : string;
  file_name : string;
  public : bool;
}.

Record LumescopeAction := {
  la_id : string;
  la_type : string;
  la_creator : string;
  la_state : string;
  la_decoded : option Decoded;
}.

(** [action.decoded?.file_name || ''] *)
Definition action_fileName (action : LumescopeAction) : string :=
  match la_decoded action with
  | Some d => str_or (file_name d) ""
  | None => ""
  end.

(** ** The world of [src/drafts.ts]

    [World] is what persists between calls: the two module variables of
    [drafts.ts], the array stored under [DRAFTS_STORAGE_KEY] in
    [localStorage] (held decoded: [getAllDrafts] parses it on every read and
    [saveDraft] writes it whole, so no two reads alias), and two observation
    logs: the files the Cascade uploader has accepted, oldest first, and the
    number of signature prompts shown by the wallet.

    Between two calls a promise left in [keyDerivationPromise] is settled;
    the code clears the variable when the derivation succeeds, so what can
    stay there is a rejected promise, kept with its reason. *)

(** [TextEncoder().encode(JSON.stringify(x))] for the two kinds of record
    the module uploads. *)
Inductive CascadeContent :=
| ManifestJson (m : EncryptedDraftManifest)
| InvitationJson (i : CollaborationInvitation).

Record CascadeFile := {
  fileName : string;
  fileBytes : CascadeContent;
  isPublic : bool;
  expirationTime : string;
}.

Record UploadResult := {
  action_id : option string;
  taskId : option string;
  actionId : option string;
}.

Record World := {
  cachedDerivedKey : option bytes;
  keyDerivationPromise : option exn;
  drafts : list Draft;
  cascade : list CascadeFile;
  signaturePrompts : nat;
}.

(** [Host] is what one call sees of the outside: the state of the sibling
    modules it reads through their getters, and the outcome of each external
    request it may make. [Date.now()] is read once per call. [window.keplr]
    is [None] when the extension is missing; [signArbitrary] yields the
    signature already decoded from base64. [GET_actions creator] is the
    [items] field of the index's reply ([Ok None] when the field is absent,
    [Err] when the request or its decoding fails). *)
Record Host := {
  sodiumReady : bool;
  getConnectedAddress : option string;
  getLumeraClient : bool;
  keplr : option (string → string → Result bytes);
  uploadFile : CascadeFile → Result UploadResult;
  download : string → Result string;
  GET_actions : option string → Result (option (list LumescopeAction));
  Date_now : Z;
  crypto_secretbox_keygen : bytes;
  randombytes_buf : nat → nat → bytes;
}.

Definition M (A : Type) : Type := World → Result A * World.

Definition ret {A} (a : A) : M A := λ w, (Ok a, w).
Definition throw {A} (e : exn) : M A := λ w, (Err e, w).
Definition bind {A B} (c : M A) (k : A → M B) : M B := λ w,
  match c w with
  | (Ok a, w') => k a w'
  | (Err e, w') => (Err e, w')
  end.
Definition lift {A} (r : Result A) : M A := λ w, (r, w).

(** [try { body } catch (error) { handler }] around effectful code. *)
Definition try_catchM {A} (body : M A) (handler : exn → M A) : M A := λ w,
  match body w with
  | (Ok a, w') => (Ok a, w')
  | (Err e, w') => handler e w'
  end.

Declare Scope m_scope.
Delimit Scope m_scope with M.
Notation "x <- c ;; k" := (bind c (λ x, k))
  (at level 100, c at next level, right associativity) : m_scope.
Notation "c ;;; k" := (bind c (λ _, k))
  (at level 100, k at level 200, right associativity) : m_scope.

Definition set_cachedDerivedKey (k : option bytes) (w : World) : World :=
  {| cachedDerivedKey := k; keyDerivationPromise := keyDerivationPromise w;
     drafts := drafts w; cascade := cascade w;
     signaturePrompts := signaturePrompts w |}.
Definition set_keyDerivationPromise (p : option exn) (w : World) : World :=
  {| cachedDerivedKey := cachedDerivedKey w; keyDerivationPromise := p;
     drafts := drafts w; cascade := cascade w;
     signaturePrompts := signaturePrompts w |}.
Definition set_drafts (ds : list Draft) (w : World) : World :=
  {| cachedDerivedKey := cachedDerivedKey w;
     keyDerivationPromise := keyDerivationPromise w;
     drafts := ds; cascade := cascade w;
     signaturePrompts := signaturePrompts w |}.
Definition set_cascade (fs : list CascadeFile) (w : World) : World :=
  {| cachedDerivedKey := cachedDerivedKey w;
     keyDerivationPromise := keyDerivationPromise w;
     drafts := drafts w; cascade := fs;
     signaturePrompts := signaturePrompts w |}.
Definition set_signaturePrompts (n : nat) (w : World) : World :=
  {| cachedDerivedKey := cachedDerivedKey w;
     keyDerivationPromise := keyDerivationPromise w;
     drafts := drafts w; cascade := cascade w;
     signaturePrompts := n |}.

Definition modify (f : World → World) : M unit := λ w, (Ok tt, f w).

(** Updates of a [Draft] held in a local variable. *)
Definition with_versions (vs : list DraftVersion) (d : Draft) : Draft :=
  {| draftId := draftId d; title := title d; status := status d;
     ownerEncryptedKey := ownerEncryptedKey d; ownerKeyNonce := ownerKeyNonce d;
     owner := owner d; collaborators := collaborators d; versions := vs;
     createdAt := createdAt d; updatedAt := updatedAt d |}.
Definition with_updatedAt (t : Z) (d : Draft) : Draft :=
  {| draftId := draftId d; title := title d; status := status d;
     ownerEncryptedKey := ownerEncryptedKey d; ownerKeyNonce := ownerKeyNonce d;
     owner := owner d; collaborators := collaborators d; versions := versions d;
     createdAt := createdAt d; updatedAt := t |}.
Definition with_status (s : DocumentStatus) (d : Draft) : Draft :=
  {| draftId := draftId d; title := title d; status := s;
     ownerEncryptedKey := ownerEncryptedKey d; ownerKeyNonce := ownerKeyNonce d;
     owner := owner d; collaborators := collaborators d; versions := versions d;
     createdAt := createdAt d; updatedAt := updatedAt d |}.
Definition with_collaborators (cs : list Collaborator) (d : Draft) : Draft :=
  {| draftId := draftId d; title := title d; status := status d;
     ownerEncryptedKey := ownerEncryptedKey d; ownerKeyNonce := ownerKeyNonce d;
     owner := owner d; collaborators := cs; versions := versions d;
     createdAt := createdAt d; updatedAt := updatedAt d |}.
Definition with_keyShare (ks : EncryptedKeyShare) (c : Collaborator) : Collaborator :=
  {| c_wallet := c_wallet c; c_name := c_name c; c_keyShare := ks;
     c_addedAt := c_addedAt c; c_addedBy := c_addedBy c;
     c_documentKeyBase64 := c_documentKeyBase64 c |}.

(** *** Local storage *)

Definition getAllDrafts : M (list Draft) := λ w, (Ok (drafts w), w).

Definition find_draft (id : string) (ds : list Draft) : option (nat * Draft) :=
  list_find (λ d, draftId d = id) ds.

Definition getDraft (id : string) : M (option Draft) := λ w,
  (Ok (snd <$> find_draft id (drafts w)), w).

Definition saveDraft (draft : Draft) : M unit := λ w,
  let ds := drafts w in
  match find_draft (draftId draft) ds with
  | Some (index, _) => (Ok tt, set_drafts (<[index := draft]> ds) w)
  | None => (Ok tt, set_drafts (ds ++ [draft]) w)
  end.

Definition deleteDraft (id : string) : M unit := λ w,
  (Ok tt, set_drafts (filter (λ d, draftId d ≠ id) (drafts w)) w).

(** [getConnectedAddress()] followed by [if (!x) throw new Error(msg)]. *)
Definition require_address (h : Host) (e : exn) : M string :=
  match getConnectedAddress h with
  | Some a => if str_truthy a then ret a else throw e
  | None => throw e
  end.

Definition require_client (h : Host) : M unit :=
  if getLumeraClient h then ret tt else throw ClientNotInitialized.

(** ** [src/wallet.ts] *)

Definition signMessage (h : Host) (message : string) : M bytes := λ w,
  match keplr h with
  | None => (Err (AppError "Keplr not installed"), w)
  | Some signArbitrary =>
    match getConnectedAddress h with
    | Some connectedAddress =>
      if str_truthy connectedAddress
      then (signArbitrary connectedAddress message,
            set_signaturePrompts (S (signaturePrompts w)) w)
      else (Err (AppError "Wallet not connected"), w)
    | None => (Err (AppError "Wallet not connected"), w)
    end
  end.

(** ** [src/drafts.ts] *)

Definition DERIVED_KEY_MESSAGE : string :=
  "Lumera Research Archive: Derive encryption key".

(** [a || b || c] over optional strings. *)
Definition opt_str (o : option string) : string := default "" o.

(** Fields of a [Draft], for where a local variable takes their name. *)
Definition draftId_of (d : Draft) : string := draftId d.
Definition owner_of (d : Draft) : string := owner d.
Definition versions_of (d : Draft) : list DraftVersion := versions d.

Definition upload_expiration (now : Z) : string := pretty (now `div` 1000 + 90000 * 30).

Record DraftMetadataInput := {
  in_abstract : option string;
  in_authors : option (list Author);
  in_keywords : option (list string);
  in_citations : option (list string);
}.

Record AddCollaboratorResult := {
  r_collaborator : Collaborator;
  r_invitationId : option string;
  r_documentKeyBase64 : string;
}.

Record LinkResult := { success : bool; lr_message : string }.

(** A version record as built from an index entry, in [fetchUserDrafts]
    (whose records also carry a display title the merge does not read) and
    in [fetchInvitedDrafts]. *)
Record CascadeVersion := {
  cv_version : Z;
  cv_actionId : string;
  cv_createdAt : Z;
  cv_createdBy : string;
}.

(** [arr.sort((a, b) => key(a) - key(b))]: the sort is stable, so the result
    is the one sorted arrangement that keeps equal keys in their order. *)
Fixpoint insert_by {A} (key : A → Z) (x : A) (l : list A) : list A :=
  match l with
  | [] => [x]
  | y :: l' => if key x <=? key y then x :: l else y :: insert_by key x l'
  end.

Definition sort_by {A} (key : A → Z) (l : list A) : list A :=
  foldr (insert_by key) [] l.

(** [arr.some(p)] and [arr.find(p)] with a decidable test. *)
Definition some {A} (p : A → bool) (l : list A) : bool := existsb p l.

Definition is_collaborator (wallet : string) (c : Collaborator) : bool :=
  String.eqb (c_wallet c) wallet.

Definition has_version (n : Z) (v : DraftVersion) : bool := dv_version v =? n.

Definition synced_version (v : CascadeVersion) : DraftVersion :=
  {| dv_version := cv_version v; dv_actionId := cv_actionId v;
     dv_createdAt := cv_createdAt v; dv_createdBy := cv_createdBy v;
     dv_message := Some "Synced from Cascade" |}.

(** The loop that adds the missing versions: each test reads the array as
    the earlier iterations left it. *)
Fixpoint add_missing (local : list DraftVersion) (found : list CascadeVersion)
  : list DraftVersion :=
  match found with
  | [] => local
  | v :: rest =>
    let exists_ := some (has_version (cv_version v)) local in
    add_missing (if exists_ then local else local ++ [synced_version v]) rest
  end.

(** [versions[i]] for a JS number [i]. *)
Definition at_index {A} (l : list A) (i : Z) : option A :=
  if 0 <=? i then l !! Z.to_nat i else None.

(** Truthiness of a parsed value. *)
Definition js_truthy (v : json) : bool :=
  match v with
  | JNull => false
  | JBool b => b
  | JNumber n => negb (n =? 0)
  | JString s => str_truthy s
  | JArray _ | JObject _ => true
  end.

(** The fields [decryptDocument] reads from [manifest.encrypted], a value the
    unchecked cast leaves dynamic: [encrypted.ciphertext] and
    [encrypted.nonce] must be strings for [from_base64] to take them. *)
Definition as_string (u : option json) : Result string :=
  match u with
  | Some (JString s) => Ok s
  | _ => Err (TypeError "unsupported input type or value")
  end.

Definition as_number (u : option json) : Result Z :=
  match u with
  | Some (JNumber n) => Ok n
  | _ => Err (TypeError "not a number")
  end.

Definition manifest_encrypted (manifest : json) : Result EncryptedDocument :=
  (encrypted <- get_prop manifest "encrypted" ;;
   ciphertext <- rbind (get_prop_of encrypted "ciphertext") as_string ;;
   nonce <- rbind (get_prop_of encrypted "nonce") as_string ;;
   Ok {| ed_ciphertext := ciphertext; ed_nonce := nonce;
         ed_algorithm := xchacha20_poly1305 |})%result.

(** The fields [importDraftFromCascade] reads from the parsed invitation.
    A file that lacks one of them, or holds it with another type, is taken
    here as a failed read; the source would carry [undefined] along. *)
Record InvitationFields := {
  if_draftId : string;
  if_draftTitle : string;
  if_owner : string;
  if_latestVersion : Z;
  if_latestActionId : string;
  if_createdAt : Z;
  if_invitedBy : string;
}.

Definition invitation_fields (invitation : json) : Result InvitationFields :=
  (let str name := rbind (get_prop invitation name) as_string in
   let num name := rbind (get_prop invitation name) as_number in
   draftId <- str "draftId" ;;
   draftTitle <- str "draftTitle" ;;
   owner <- str "owner" ;;
   latestVersion <- num "latestVersion" ;;
   latestActionId <- str "latestActionId" ;;
   createdAt <- num "createdAt" ;;
   invitedBy <- str "invitedBy" ;;
   Ok {| if_draftId := draftId; if_draftTitle := draftTitle;
         if_owner := owner; if_latestVersion := latestVersion;
         if_latestActionId := latestActionId;
         if_createdAt := createdAt; if_invitedBy := invitedBy |})%result.

Section Drafts.
Context `{Sodium} `{Json}.
Variable h : Host.

Local Open Scope m_scope.

Definition nonce_draw (i : nat) : bytes :=
  randombytes_buf h i crypto_secretbox_NONCEBYTES.

(** [generateDocumentKey] of [crypto.ts]. *)
Definition generateDocumentKey : Result bytes :=
  if negb (sodiumReady h)
  then Err (AppError "Crypto not initialized. Call initCrypto() first.")
  else Ok (crypto_secretbox_keygen h).

(** [getOrDeriveDerivedKey], run to completion: the async arrow it starts
    is awaited at once, so the promise it stores is seen again only if it
    was rejected (the success path clears the variable). *)
Definition getOrDeriveDerivedKey : M bytes := λ w,
  match cachedDerivedKey w with
  | Some key => (Ok key, w)
  | None =>
    match keyDerivationPromise w with
    | Some reason => (Err reason, w)
    | None =>
      match (signature <- signMessage h DERIVED_KEY_MESSAGE ;;
             lift (deriveKeyFromSignature (sodiumReady h) signature)) w with
      | (Ok key, w') =>
          (Ok key, set_keyDerivationPromise None (set_cachedDerivedKey (Some key) w'))
      | (Err reason, w') =>
          (Err reason, set_keyDerivationPromise (Some reason) w')
      end
    end
  end.

Definition clearDerivedKey : M unit :=
  modify (λ w, set_keyDerivationPromise None (set_cachedDerivedKey None w)).

(** [lumeraClient.Cascade.uploader.uploadFile]: an accepted file joins
    the store. *)
Definition upload (file : CascadeFile) : M UploadResult := λ w,
  match uploadFile h file with
  | Ok r => (Ok r, set_cascade (cascade w ++ [file]) w)
  | Err e => (Err e, w)
  end.

Definition cascade_file (name : string) (c : CascadeContent) : CascadeFile :=
  {| fileName := name; fileBytes := c; isPublic := true;
     expirationTime := upload_expiration (Date_now h) |}.

(** [action_id || taskId || `draft-${Date.now()}`] *)
Definition version_actionId (r : UploadResult) : string :=
  str_or (opt_str (action_id r))
    (str_or (opt_str (taskId r)) ("draft-" +:+ pretty (Date_now h))).

Definition getDocumentKey (draft : Draft) : M bytes :=
  wallet <- require_address h NotConnected ;;
  derivedKey <- getOrDeriveDerivedKey ;;
  if String.eqb (owner draft) wallet then
    let ownerShare := {| ks_wallet := wallet;
                         ks_encryptedKey := ownerEncryptedKey draft;
                         ks_nonce := ownerKeyNonce draft |} in
    lift (decryptKeyShare (sodiumReady h) ownerShare derivedKey)
  else
    match find (is_collaborator wallet) (collaborators draft) with
    | Some collaborator =>
        if negb (str_truthy (ks_encryptedKey (c_keyShare collaborator)))
           || negb (str_truthy (ks_nonce (c_keyShare collaborator)))
        then throw NoKeyShare
        else lift (decryptKeyShare (sodiumReady h) (c_keyShare collaborator) derivedKey)
    | None => throw NoAccess
    end.

Definition createDraft (title content : string) (metadata : DraftMetadataInput)
  : M Draft :=
  require_client h ;;;
  owner <- require_address h NotConnected ;;
  documentKey <- lift generateDocumentKey ;;
  let contentBytes := list_byte_of_string content in
  encrypted <- lift (encryptDocument (sodiumReady h) (nonce_draw 0) contentBytes documentKey) ;;
  derivedKey <- getOrDeriveDerivedKey ;;
  ownerKeyShare <- lift (encryptKeyForCollaborator (sodiumReady h) (nonce_draw 1)
                           documentKey derivedKey owner) ;;
  let draftId := generateDraftId (randombytes_buf h 2 8) in
  let manifest :=
    {| m_version := 1;
       m_metadata :=
         {| md_title := title;
            md_abstract := str_or (opt_str (in_abstract metadata)) "";
            md_authors := default [ {| a_name := owner; a_wallet := Some owner;
                                       a_affiliation := None; a_orcid := None |} ]
                                  (in_authors metadata);
            md_keywords := default [] (in_keywords metadata);
            md_citations := default [] (in_citations metadata);
            md_draftId := draftId;
            md_version := 1;
            md_createdBy := owner;
            md_createdAt := Date_now h |};
       m_encrypted := encrypted |} in
  uploadResult <- upload (cascade_file ("draft_" +:+ draftId +:+ "_v1.json")
                            (ManifestJson manifest)) ;;
  let actionId := version_actionId uploadResult in
  let now := Date_now h in
  let draft :=
    {| draftId := draftId; title := title; status := status_draft;
       ownerEncryptedKey := ks_encryptedKey ownerKeyShare;
       ownerKeyNonce := ks_nonce ownerKeyShare;
       owner := owner; collaborators := [];
       versions := [ {| dv_version := 1; dv_actionId := actionId;
                        dv_createdAt := now; dv_createdBy := owner;
                        dv_message := Some "Initial draft" |} ];
       createdAt := now; updatedAt := now |} in
  saveDraft draft ;;;
  ret draft.

Definition saveDraftVersion (draftId content : string) (message : option string)
  : M DraftVersion :=
  require_client h ;;;
  found <- getDraft draftId ;;
  match found with
  | None => throw DraftNotFound
  | Some draft =>
    owner <- require_address h NotConnected ;;
    documentKey <- getDocumentKey draft ;;
    let contentBytes := list_byte_of_string content in
    encrypted <- lift (encryptDocument (sodiumReady h) (nonce_draw 0) contentBytes documentKey) ;;
    match last_elem (versions draft) with
    | None => throw (TypeError "Cannot read properties of undefined")
    | Some latestVersion =>
      let newVersionNum := dv_version latestVersion + 1 in
      let manifest :=
        {| m_version := 1;
           m_metadata :=
             {| md_title := title draft;
                md_abstract := "";
                md_authors := [ {| a_name := owner; a_wallet := Some owner;
                                   a_affiliation := None; a_orcid := None |} ];
                md_keywords := [];
                md_citations := [];
                md_draftId := draftId;
                md_version := newVersionNum;
                md_createdBy := owner;
                md_createdAt := Date_now h |};
           m_encrypted := encrypted |} in
      uploadResult <- upload (cascade_file
                                ("draft_" +:+ draftId +:+ "_v" +:+ pretty newVersionNum +:+ ".json")
                                (ManifestJson manifest)) ;;
      let actionId := version_actionId uploadResult in
      let version :=
        {| dv_version := newVersionNum; dv_actionId := actionId;
           dv_createdAt := Date_now h; dv_createdBy := owner;
           dv_message := message |} in
      let draft := with_updatedAt (Date_now h)
                     (with_versions (versions draft ++ [version]) draft) in
      saveDraft draft ;;;
      ret version
    end
  end.

Definition loadDraftContent (draftId : string) (versionIndex : option Z)
  : M (string * DraftVersion) :=
  require_client h ;;;
  found <- getDraft draftId ;;
  match found with
  | None => throw DraftNotFound
  | Some draft =>
    let version := match versionIndex with
                   | Some i => at_index (versions draft) i
                   | None => last_elem (versions draft)
                   end in
    match version with
    | None => throw VersionNotFound
    | Some version =>
      manifestJson <- lift (download h (dv_actionId version)) ;;
      match parseEncryptedDraftManifest manifestJson with
      | None => throw InvalidDraftData
      | Some manifest =>
        if negb (js_truthy manifest) then throw InvalidDraftData else
        documentKey <- getDocumentKey draft ;;
        encrypted <- lift (manifest_encrypted manifest) ;;
        decryptedBytes <- lift (decryptDocument (sodiumReady h) encrypted documentKey) ;;
        let content := string_of_list_byte decryptedBytes in
        ret (content, version)
      end
    end
  end.

Definition uploadCollaborationInvitation (draft : Draft) (collaborator : Collaborator)
  : M string :=
  require_client h ;;;
  match last_elem (versions draft) with
  | None => throw (TypeError "Cannot read properties of undefined")
  | Some latestVersion =>
    let invitation :=
      {| inv_version := 1;
         inv_draftId := draftId draft;
         inv_draftTitle := title draft;
         inv_owner := owner draft;
         inv_ownerName := Some (owner draft);
         inv_invitedWallet := c_wallet collaborator;
         inv_keyShare :=
           {| ks_wallet := c_wallet collaborator;
              ks_encryptedKey := ks_encryptedKey (c_keyShare collaborator);
              ks_nonce := ks_nonce (c_keyShare collaborator) |};
         inv_latestVersion := dv_version latestVersion;
         inv_latestActionId := dv_actionId latestVersion;
         inv_createdAt := Date_now h;
         inv_invitedBy := owner draft |} in
    let fileName := "invitation_" +:+ c_wallet collaborator +:+ "_"
                      +:+ draftId draft +:+ ".json" in
    uploadResult <- upload (cascade_file fileName (InvitationJson invitation)) ;;
    ret (str_or (opt_str (taskId uploadResult))
           (str_or (opt_str (actionId uploadResult)) ""))
  end.

Definition addCollaborator (draftId collaboratorWallet collaboratorName : string)
  : M AddCollaboratorResult :=
  found <- getDraft draftId ;;
  match found with
  | None => throw DraftNotFound
  | Some draft =>
    owner <- require_address h NotConnected ;;
    if negb (String.eqb (owner_of draft) owner) then throw OnlyOwner else
    if some (is_collaborator collaboratorWallet) (collaborators draft)
    then throw AlreadyCollaborator else
    documentKey <- getDocumentKey draft ;;
    let documentKeyBase64 := toBase64 documentKey in
    let keyShare := {| ks_wallet := collaboratorWallet;
                       ks_encryptedKey := "";
                       ks_nonce := "" |} in
    let collaborator :=
      {| c_wallet := collaboratorWallet; c_name := collaboratorName;
         c_keyShare := keyShare; c_addedAt := Date_now h; c_addedBy := owner;
         c_documentKeyBase64 := Some documentKeyBase64 |} in
    let draft := with_updatedAt (Date_now h)
                   (with_status status_shared
                      (with_collaborators (collaborators draft ++ [collaborator]) draft)) in
    saveDraft draft ;;;
    invitationId <-
      try_catchM (id <- uploadCollaborationInvitation draft collaborator ;; ret (Some id))
                 (λ _, ret None) ;;
    ret {| r_collaborator := collaborator; r_invitationId := invitationId;
           r_documentKeyBase64 := documentKeyBase64 |}
  end.

(** [getAllActions] of [lumescope.ts]: every failure is an empty list. *)
Definition getAllActions : list LumescopeAction :=
  match GET_actions h None with
  | Ok (Some items) => items
  | Ok None => []
  | Err _ => []
  end.

Definition is_invitation_for (wallet draftId : string) (action : LumescopeAction) : bool :=
  String.eqb (la_type action) "ACTION_TYPE_CASCADE"
  && String.eqb (la_state action) "ACTION_STATE_DONE"
  && String.eqb (action_fileName action)
       ("invitation_" +:+ wallet +:+ "_" +:+ draftId +:+ ".json").

Definition verifyInvitationOnCascade (draftId wallet : string) : M bool :=
  try_catchM
    (let actions := getAllActions in
     let invitation := find (is_invitation_for wallet draftId) actions in
     ret (bool_decide (is_Some invitation)))
    (λ _, ret false).

Definition importDraftFromCascade (draftId wallet documentKeyBase64 : string) : M bool :=
  try_catchM
    (require_client h ;;;
     let actions := getAllActions in
     match find (is_invitation_for wallet draftId) actions with
     | None => ret false
     | Some invitationAction =>
       invitationJson <- lift (download h (la_id invitationAction)) ;;
       invitation <- lift (rbind (json_parse invitationJson) invitation_fields) ;;
       derivedKey <- getOrDeriveDerivedKey ;;
       documentKey <- lift (fromBase64 documentKeyBase64) ;;
       keyShare <- lift (encryptKeyForCollaborator (sodiumReady h) (nonce_draw 0)
                           documentKey derivedKey wallet) ;;
       let draft :=
         {| draftId := if_draftId invitation;
            title := if_draftTitle invitation;
            owner := if_owner invitation;
            collaborators :=
              [ {| c_wallet := wallet; c_name := wallet; c_keyShare := keyShare;
                   c_addedAt := if_createdAt invitation;
                   c_addedBy := if_invitedBy invitation;
                   c_documentKeyBase64 := None |} ];
            status := status_shared;
            versions :=
              [ {| dv_version := if_latestVersion invitation;
                   dv_actionId := if_latestActionId invitation;
                   dv_createdAt := if_createdAt invitation;
                   dv_createdBy := if_owner invitation;
                   dv_message := Some "Shared draft" |} ];
            ownerEncryptedKey := "";
            ownerKeyNonce := "";
            createdAt := if_createdAt invitation;
            updatedAt := Date_now h |} in
       saveDraft draft ;;;
       ret true
     end)
    (λ _, ret false).

Definition link_result (ok : bool) (msg : string) : LinkResult :=
  {| success := ok; lr_message := msg |}.

Definition NotInvited : LinkResult :=
  link_result false
    "You are not invited to this draft. The link may be invalid or meant for someone else.".

Definition processSecureShareLink (draftId documentKeyBase64 : string) : M LinkResult :=
  match getConnectedAddress h with
  | None => ret (link_result false "Please connect your wallet first")
  | Some wallet =>
    if negb (str_truthy wallet)
    then ret (link_result false "Please connect your wallet first") else
    existingDraft <- getDraft draftId ;;
    match existingDraft with
    | Some existingDraft =>
      if String.eqb (owner existingDraft) wallet
      then ret (link_result true "You are the owner of this draft") else
      match list_find (λ c, c_wallet c = wallet) (collaborators existingDraft) with
      | Some (i, existingCollab) =>
        if str_truthy (ks_encryptedKey (c_keyShare existingCollab))
        then ret (link_result true "You already have access to this draft") else
        derivedKey <- getOrDeriveDerivedKey ;;
        documentKey <- lift (fromBase64 documentKeyBase64) ;;
        keyShare <- lift (encryptKeyForCollaborator (sodiumReady h) (nonce_draw 0)
                            documentKey derivedKey wallet) ;;
        let existingDraft :=
          with_collaborators
            (<[i := with_keyShare keyShare existingCollab]> (collaborators existingDraft))
            existingDraft in
        saveDraft existingDraft ;;;
        ret (link_result true "Access key imported successfully!")
      | None => ret (link_result false "You are not invited to this draft")
      end
    | None =>
      try_catchM
        (isInvited <- verifyInvitationOnCascade draftId wallet ;;
         if negb isInvited then ret NotInvited else
         draftCreated <- importDraftFromCascade draftId wallet documentKeyBase64 ;;
         if draftCreated
         then ret (link_result true "Draft imported successfully! You can now edit it.")
         else ret (link_result false "Failed to import draft from Cascade"))
        (λ _, ret (link_result false "Failed to verify invitation"))
    end
  end.

(** The version sync of [fetchUserDrafts], for one entry
    [(draftId, versions)] of its [draftMap]: from the sort of the
    discovered versions to the write of the local draft. *)
Definition fetchUserDrafts_sync (draftId : string) (versions : list CascadeVersion)
  : M unit :=
  let versions := sort_by cv_version versions in
  let latestVersion := last_elem versions in
  localDraft <- getDraft draftId ;;
  match localDraft with
  | Some localDraft =>
    let localLatestVersion :=
      num_or (dv_version <$> last_elem (versions_of localDraft)) 0 in
    match latestVersion with
    | None => throw (TypeError "Cannot read properties of undefined")
    | Some latestVersion =>
      if localLatestVersion <? cv_version latestVersion then
        let synced := add_missing (versions_of localDraft) versions in
        let localDraft :=
          with_updatedAt (Date_now h)
            (with_versions (sort_by dv_version synced) localDraft) in
        saveDraft localDraft
      else ret tt
    end
  | None => ret tt
  end.

(** The version sync of [fetchInvitedDrafts], for one invited [draft] and
    the [cascadeVersions] parsed for it from the index. *)
Definition fetchInvitedDrafts_sync (draft : Draft) (cascadeVersions : list CascadeVersion)
  : M unit :=
  if bool_decide (0 < length cascadeVersions)%nat then
    let cascadeVersions := sort_by cv_version cascadeVersions in
    match last_elem cascadeVersions with
    | None => throw (TypeError "Cannot read properties of undefined")
    | Some latestCascadeVersion =>
      let localLatestVersion :=
        num_or (dv_version <$> last_elem (versions draft)) 0 in
      if localLatestVersion <? cv_version latestCascadeVersion then
        let synced := add_missing (versions draft) cascadeVersions in
        let draft :=
          with_updatedAt (Date_now h)
            (with_versions (sort_by dv_version synced) draft) in
        saveDraft draft
      else ret tt
    end
  else ret tt.

(** [for (const x of xs) { body(x) }] *)
Fixpoint for_each {A} (xs : list A) (body : A → M unit) : M unit :=
  match xs with
  | [] => ret tt
  | x :: rest => body x ;;; for_each rest body
  end.

(** What [fetchUserDrafts] does to the world once its [draftMap] is built:
    one sync per entry, inside the [try] whose handler falls back to the
    local list. *)
Definition fetchUserDrafts_syncs (draftMap : list (string * list CascadeVersion))
  : M unit :=
  try_catchM
    (for_each draftMap (λ entry, fetchUserDrafts_sync entry.1 entry.2))
    (λ _, ret tt).

Definition is_invited (walletAddress : string) (draft : Draft) : bool :=
  let isOwner := String.eqb (owner draft) walletAddress in
  let isCollaborator := some (is_collaborator walletAddress) (collaborators draft) in
  negb isOwner && isCollaborator.

(** What [fetchInvitedDrafts] does to the world: the invited drafts are
    taken from one read of the store, and each is synced with the versions
    the index lists for its [draftId] ([found]). *)
Definition fetchInvitedDrafts_syncs (walletAddress : string)
    (found : string → list CascadeVersion) : M unit :=
  allDrafts <- getAllDrafts ;;
  let invitedDrafts := List.filter (is_invited walletAddress) allDrafts in
  try_catchM
    (for_each invitedDrafts (λ draft, fetchInvitedDrafts_sync draft (found (draftId draft))))
    (λ _, ret tt).
End Drafts.

(** ** The operations of the module as commands

    Every exported function of [drafts.ts] that touches the world.
    [processInvitation] is left out: it is not exported and nothing calls it
    ([fetchCollaborationInvitations], its one intended user, is empty). *)

Inductive Op :=
| CreateDraft (title content : string) (metadata : DraftMetadataInput)
| SaveDraftVersion (draftId content : string) (message : option string)
| LoadDraftContent (draftId : string) (versionIndex : option Z)
| AddCollaborator (draftId collaboratorWallet collaboratorName : string)
| ProcessSecureShareLink (draftId documentKeyBase64 : string)
| FetchUserDrafts (draftMap : list (string * list CascadeVersion))
| FetchInvitedDrafts (walletAddress : string) (found : string → list CascadeVersion)
| DeleteDraft (draftId : string)
| ClearDerivedKey.

Definition ignore {A} (c : M A) : M unit := bind c (λ _, ret tt).

Definition exec `{Sodium} `{Json} (h : Host) (op : Op) : M unit :=
  match op with
  | CreateDraft t c md => ignore (createDraft h t c md)
  | SaveDraftVersion i c msg => ignore (saveDraftVersion h i c msg)
  | LoadDraftContent i v => ignore (loadDraftContent h i v)
  | AddCollaborator i cw cn => ignore (addCollaborator h i cw cn)
  | ProcessSecureShareLink i k => ignore (processSecureShareLink h i k)
  | FetchUserDrafts m => fetchUserDrafts_syncs h m
  | FetchInvitedDrafts a f => fetchInvitedDrafts_syncs h a f
  | DeleteDraft i => deleteDraft i
  | ClearDerivedKey => clearDerivedKey
  end.

(** ** [getOrDeriveDerivedKey] under interleaving

    One thread runs the callers; a call runs until its first [await], and
    the async arrow that asked the wallet for a signature resumes when the
    wallet answers. [Session] holds the two module variables, the promises
    created so far (a promise is named by its position), and the signature
    requests sent to the wallet, each with the promise that awaits it. *)

Inductive PromiseState :=
| Pending
| Fulfilled (key : bytes)
| RejectedWith (reason : exn).

Record Session := {
  s_cachedDerivedKey : option bytes;
  s_keyDerivationPromise : option nat;
  s_promises : list PromiseState;
  s_signRequests : list (nat * string);
}.

(** What a caller holds when [getOrDeriveDerivedKey] returns to it. *)
Inductive Handle :=
| Resolved (key : bytes)
| Awaits (promise : nat).

Section Interleaving.
Context `{Sodium}.
Variable h : Host.

(** [signMessage] up to its [await]: it either rejects at once or sends
    the request. *)
Definition signMessage_starts : option exn :=
  match keplr h with
  | None => Some (AppError "Keplr not installed")
  | Some _ =>
    match getConnectedAddress h with
    | Some a => if str_truthy a then None else Some (AppError "Wallet not connected")
    | None => Some (AppError "Wallet not connected")
    end
  end.

(** A call, up to the point where it returns to its caller. *)
Definition getOrDeriveDerivedKey_call (s : Session) : Handle * Session :=
  match s_cachedDerivedKey s with
  | Some key => (Resolved key, s)
  | None =>
    match s_keyDerivationPromise s with
    | Some p => (Awaits p, s)
    | None =>
      let p := length (s_promises s) in
      match signMessage_starts with
      | None =>
        (Awaits p,
         {| s_cachedDerivedKey := None;
            s_keyDerivationPromise := Some p;
            s_promises := s_promises s ++ [Pending];
            s_signRequests := s_signRequests s ++ [(p, DERIVED_KEY_MESSAGE)] |})
      | Some reason =>
        (Awaits p,
         {| s_cachedDerivedKey := None;
            s_keyDerivationPromise := Some p;
            s_promises := s_promises s ++ [RejectedWith reason];
            s_signRequests := s_signRequests s |})
      end
    end
  end.

(** The wallet answers the request of promise [p]: the async arrow resumes
    after its [await]. *)
Definition wallet_answers (p : nat) (answer : Result bytes) (s : Session) : Session :=
  match s_promises s !! p with
  | Some Pending =>
    match rbind answer (deriveKeyFromSignature (sodiumReady h)) with
    | Ok key =>
      {| s_cachedDerivedKey := Some key;
         s_keyDerivationPromise := None;
         s_promises := <[p := Fulfilled key]> (s_promises s);
         s_signRequests := s_signRequests s |}
    | Err reason =>
      {| s_cachedDerivedKey := s_cachedDerivedKey s;
         s_keyDerivationPromise := s_keyDerivationPromise s;
         s_promises := <[p := RejectedWith reason]> (s_promises s);
         s_signRequests := s_signRequests s |}
    end
  | _ => s
  end.

(** What awaiting a handle yields, once it is settled. *)
Definition awaited (s : Session) (r : Handle) : option (Result bytes) :=
  match r with
  | Resolved key => Some (Ok key)
  | Awaits p =>
    match s_promises s !! p with
    | Some (Fulfilled key) => Some (Ok key)
    | Some (RejectedWith reason) => Some (Err reason)
    | _ => None
    end
  end.

(** [n] calls issued one after the other with nothing settling between. *)
Fixpoint calls (n : nat) (s : Session) : list Handle * Session :=
  match n with
  | O => ([], s)
  | S n' =>
    let '(r, s1) := getOrDeriveDerivedKey_call s in
    let '(rs, s2) := calls n' s1 in
    (r :: rs, s2)
  end.
End Interleaving.

(** ** [src/drafts.ts]: what the interface asks about a draft *)

Section Access.
Variable h : Host.

Local Open Scope m_scope.

(** [draft !== null && wallet !== null && draft.owner === wallet] *)
Definition isDraftOwner (draftId : string) : M bool :=
  draft <- getDraft draftId ;;
  let wallet := getConnectedAddress h in
  ret (match draft, wallet with
       | Some draft, Some wallet => String.eqb (owner draft) wallet
       | _, _ => false
       end).

Definition hasAccessToDraft (draftId : string) : M bool :=
  draft <- getDraft draftId ;;
  let wallet := getConnectedAddress h in
  match draft, wallet with
  | Some draft, Some wallet =>
    if negb (str_truthy wallet) then ret false else
    if String.eqb (owner draft) wallet then ret true else
    ret (some (is_collaborator wallet) (collaborators draft))
  | _, _ => ret false
  end.

Definition hasValidKeyForDraft (draftId : string) : M bool :=
  draft <- getDraft draftId ;;
  let wallet := getConnectedAddress h in
  match draft, wallet with
  | Some draft, Some wallet =>
    if negb (str_truthy wallet) then ret false else
    if String.eqb (owner draft) wallet && str_truthy (ownerEncryptedKey draft)
    then ret true else
    match find (is_collaborator wallet) (collaborators draft) with
    | Some collaborator =>
      if str_truthy (ks_encryptedKey (c_keyShare collaborator))
         && str_truthy (ks_nonce (c_keyShare collaborator))
      then ret true else ret false
    | None => ret false
    end
  | _, _ => ret false
  end.

(** [getStoredDrafts]: one summary per stored draft, in the order of the
    array. *)
Definition stored_draft (d : Draft) : StoredDraft :=
  {| sd_draftId := draftId d;
     sd_title := title d;
     sd_status := status d;
     sd_collaboratorCount := length (collaborators d);
     sd_latestVersion := num_or (dv_version <$> last_elem (versions d)) 1;
     sd_updatedAt := updatedAt d;
     sd_owner := None |}.

Definition getStoredDrafts : M (list StoredDraft) :=
  ds <- getAllDrafts ;; ret (stored_draft <$> ds).

End Access.

(** ** What goes to and comes back from Cascade

    [JSON.stringify] writes an object's properties in the order the object
    literal lists them and leaves out those that are [undefined];
    [JSON.parse] reads the text back to the value [json_of_content] gives.
    The optional fields of an [Author] are written in the order of the
    interface. *)

Definition json_optional (name : string) (o : option string) : list (string * json) :=
  match o with
  | Some s => [(name, JString s)]
  | None => []
  end.

Definition json_of_author (a : Author) : json :=
  JObject ([("name", JString (a_name a))]
           ++ json_optional "wallet" (a_wallet a)
           ++ json_optional "affiliation" (a_affiliation a)
           ++ json_optional "orcid" (a_orcid a)).

Definition json_of_document (e : EncryptedDocument) : json :=
  JObject [("ciphertext", JString (ed_ciphertext e));
           ("nonce", JString (ed_nonce e));
           ("algorithm", JString "xchacha20-poly1305")].

Definition json_of_metadata (md : ManifestMetadata) : json :=
  JObject [("title", JString (md_title md));
           ("abstract", JString (md_abstract md));
           ("authors", JArray (json_of_author <$> md_authors md));
           ("keywords", JArray (JString <$> md_keywords md));
           ("citations", JArray (JString <$> md_citations md));
           ("draftId", JString (md_draftId md));
           ("version", JNumber (md_version md));
           ("createdBy", JString (md_createdBy md));
           ("createdAt", JNumber (md_createdAt md))].

Definition json_of_manifest (m : EncryptedDraftManifest) : json :=
  JObject [("version", JNumber (m_version m));
           ("type", JString "encrypted_draft");
           ("metadata", json_of_metadata (m_metadata m));
           ("encrypted", json_of_document (m_encrypted m))].

Definition json_of_keyShare (ks : EncryptedKeyShare) : json :=
  JObject [("wallet", JString (ks_wallet ks));
           ("encryptedKey", JString (ks_encryptedKey ks));
           ("nonce", JString (ks_nonce ks))].

Definition json_of_invitation (i : CollaborationInvitation) : json :=
  JObject ([("version", JNumber (inv_version i));
            ("type", JString "draft_invitation");
            ("draftId", JString (inv_draftId i));
            ("draftTitle", JString (inv_draftTitle i));
            ("owner", JString (inv_owner i))]
           ++ json_optional "ownerName" (inv_ownerName i)
           ++ [("invitedWallet", JString (inv_invitedWallet i));
               ("keyShare", json_of_keyShare (inv_keyShare i));
               ("latestVersion", JNumber (inv_latestVersion i));
               ("latestActionId", JString (inv_latestActionId i));
               ("createdAt", JNumber (inv_createdAt i));
               ("invitedBy", JString (inv_invitedBy i))]).

Definition json_of_content (c : CascadeContent) : json :=
  match c with
  | ManifestJson m => json_of_manifest m
  | InvitationJson i => json_of_invitation i
  end.

(** Sizes the module takes for granted of libsodium: a nonce is not empty,
    a sealed box is not empty (it holds the authentication tag), and the
    text form of a non-empty array is a non-empty string. *)
Class SodiumSizes `{Sodium} := {
  noncebytes_pos : (0 < crypto_secretbox_NONCEBYTES)%nat;
  secretbox_not_empty : ∀ m n k,
    length n = crypto_secretbox_NONCEBYTES → crypto_secretbox_easy m n k ≠ [];
  to_base64_not_empty : ∀ b, b ≠ [] → to_base64 b ≠ "";
}.

(** ** File names on the index

    [s.startsWith(p)], [s.endsWith(p)], and the one regular expression the
    module matches file names against. *)

Definition startsWith (pre s : string) : bool := String.prefix pre s.

Definition endsWith (suf s : string) : bool :=
  (String.length suf <=? String.length s)%nat
  && String.eqb (substring (String.length s - String.length suf) (String.length suf) s)
                suf.

(** [s] without its prefix [pre], when it has it. *)
Fixpoint strip_prefix (pre s : string) : option string :=
  match pre, s with
  | EmptyString, _ => Some s
  | String a pre', String b s' => if Ascii.eqb a b then strip_prefix pre' s' else None
  | String _ _, EmptyString => None
  end.

(** The longest prefix of [s] made of characters of the class [p], and what
    follows it: a greedy [p+] or [p*]. *)
Fixpoint span (p : ascii → bool) (s : string) : string * string :=
  match s with
  | EmptyString => ("", "")
  | String c s' =>
    if p c then let '(run, rest) := span p s' in (String c run, rest)
    else ("", s)
  end.

(** [\d]: an ASCII digit. *)
Definition is_digit (c : ascii) : bool :=
  (48 <=? nat_of_ascii c)%nat && (nat_of_ascii c <=? 57)%nat.

(** [[^_]] *)
Definition not_underscore (c : ascii) : bool := negb (Ascii.eqb c "_").

(** [/draft_([^_]+)_v(\d+)\.json/] tried at the start of [s]. After
    [draft_], the greedy [[^_]+] stops at the first underscore or at the end,
    and no shorter run can be followed by [_v]; likewise the greedy [\d+]
    stops at the first character that is not a digit, and no shorter run can
    be followed by [.json]: backtracking finds nothing the greedy runs
    miss. The result holds the two groups. *)
Definition draft_file_at (s : string) : option (string * string) :=
  match strip_prefix "draft_" s with
  | None => None
  | Some rest =>
    let '(id, rest) := span not_underscore rest in
    if String.eqb id "" then None else
    match strip_prefix "_v" rest with
    | None => None
    | Some rest =>
      let '(digits, rest) := span is_digit rest in
      if String.eqb digits "" then None else
      match strip_prefix ".json" rest with
      | None => None
      | Some _ => Some (id, digits)
      end
    end
  end.

(** [fileName.match(/draft_([^_]+)_v(\d+)\.json/)]: the expression is not
    anchored, so the match is the one at the leftmost position that has
    one. [None] is [null]. *)
Fixpoint draft_file_match (s : string) : option (string * string) :=
  match draft_file_at s with
  | Some groups => Some groups
  | None =>
    match s with
    | EmptyString => None
    | String _ s' => draft_file_match s'
    end
  end.

(** [parseInt(digits, 10)] on a string of digits, for values below 2^53,
    where a number holds an integer exactly. *)
Definition digit_value (c : ascii) : Z := Z.of_nat (nat_of_ascii c) - 48.

Definition parseInt10 (digits : string) : Z :=
  fold_left (λ acc c, 10 * acc + digit_value c) (list_ascii_of_string digits) 0.

(** [draftMap.get(key).push(v)], after [draftMap.set(key, [])] when the key
    is new: a [Map] keeps its keys in the order of their first insertion. *)
Fixpoint map_push {V} (key : string) (v : V) (m : list (string * list V))
  : list (string * list V) :=
  match m with
  | [] => [(key, [v])]
  | (k, vs) :: rest =>
    if String.eqb k key then (k, vs ++ [v]) :: rest
    else (k, vs) :: map_push key v rest
  end.

(** A loop that pushes one result per element. *)
Fixpoint map_each {A B} (xs : list A) (body : A → M B) : M (list B) :=
  match xs with
  | [] => ret []
  | x :: rest =>
    bind (body x) (λ b, bind (map_each rest body) (λ bs, ret (b :: bs)))
  end.

Section Index.
Variable h : Host.

Local Open Scope m_scope.

(** [getActionsByCreator] of [lumescope.ts]. [type] is the second argument
    as the caller passes it; the filter compares it with ['cascade'] only.
    A failure of the request is thrown again under a longer message. *)
Definition getActionsByCreator (creatorAddress : string) (type : option string)
  : Result (list LumescopeAction) :=
  match GET_actions h (Some creatorAddress) with
  | Ok data =>
    let items := default [] data in
    Ok (match type with
        | Some type =>
          if str_truthy type then
            let typeFilter := if String.eqb type "cascade"
                              then "ACTION_TYPE_CASCADE" else "ACTION_TYPE_SENSE" in
            List.filter (λ item, String.eqb (la_type item) typeFilter) items
          else items
        | None => items
        end)
  | Err error => Err (AppError ("Lumescope error: " +:+ message error))
  end.

(** The record both fetches build from an index entry whose file name
    matched. *)
Definition index_version (action : LumescopeAction) (digits : string) : CascadeVersion :=
  {| cv_version := parseInt10 digits;
     cv_actionId := la_id action;
     cv_createdAt := Date_now h;
     cv_createdBy := la_creator action |}.

(** *** [fetchUserDrafts] *)

Definition is_draft_action (action : LumescopeAction) : bool :=
  let fileName := action_fileName action in
  startsWith "draft_" fileName
  && endsWith ".json" fileName
  && String.eqb (la_state action) "ACTION_STATE_DONE".

(** The first loop: the wallet's own versions, grouped by [draftId]. Each
    record also carries the title [Draft {draftId}], which is read back only
    from under the key it names. *)
Definition own_versions (draftActions : list LumescopeAction)
  : list (string * list CascadeVersion) :=
  fold_left
    (λ draftMap action,
       match draft_file_match (action_fileName action) with
       | None => draftMap
       | Some (draftId, digits) =>
           map_push draftId (index_version action digits) draftMap
       end)
    draftActions [].

Definition is_collaborator_version (walletAddress draftId : string)
    (action : LumescopeAction) : bool :=
  match draft_file_match (action_fileName action) with
  | None => false
  | Some (id, _) =>
    String.eqb id draftId
    && String.eqb (la_state action) "ACTION_STATE_DONE"
    && negb (String.eqb (la_creator action) walletAddress)
  end.

(** The second loop, for one entry of the map. *)
Definition add_collaborator_versions (walletAddress : string)
    (allActions : list LumescopeAction) (draftId : string)
    (versions : list CascadeVersion) : list CascadeVersion :=
  fold_left
    (λ versions action,
       match draft_file_match (action_fileName action) with
       | None => versions
       | Some (_, digits) =>
         let version := parseInt10 digits in
         let existsInMap := some (λ v, cv_version v =? version) versions in
         if existsInMap then versions
         else versions ++ [index_version action digits]
       end)
    (List.filter (is_collaborator_version walletAddress draftId) allActions)
    versions.

(** The third loop, for one entry: the sync of the local draft, then the
    summary that is listed. *)
Definition fetchUserDrafts_entry (entry : string * list CascadeVersion)
  : M StoredDraft :=
  let draftId := entry.1 in
  let versions := sort_by cv_version entry.2 in
  let latestVersion := last_elem versions in
  localDraft <- getDraft draftId ;;
  match localDraft with
  | Some localDraft =>
    let localLatestVersion :=
      num_or (dv_version <$> last_elem (versions_of localDraft)) 0 in
    match latestVersion with
    | None => throw (TypeError "Cannot read properties of undefined")
    | Some latestVersion =>
      if localLatestVersion <? cv_version latestVersion then
        let synced := add_missing (versions_of localDraft) versions in
        saveDraft (with_updatedAt (Date_now h)
                     (with_versions (sort_by dv_version synced) localDraft))
      else ret tt
    end
  | None => ret tt
  end ;;;
  match latestVersion with
  | None => throw (TypeError "Cannot read properties of undefined")
  | Some latestVersion =>
    ret {| sd_draftId := draftId;
           sd_title := match localDraft with
                       | Some localDraft => title localDraft
                       | None => "Draft " +:+ draftId
                       end;
           sd_status := match localDraft with
                        | Some localDraft => status localDraft
                        | None => status_draft
                        end;
           sd_collaboratorCount := match localDraft with
                                   | Some localDraft => length (collaborators localDraft)
                                   | None => 0%nat
                                   end;
           sd_latestVersion := cv_version latestVersion;
           sd_updatedAt := cv_createdAt latestVersion;
           sd_owner := None |}
  end.

(** The map as the first two loops leave it. *)
Definition discovered (walletAddress : string) (actions : list LumescopeAction)
  : list (string * list CascadeVersion) :=
  let draftActions := List.filter is_draft_action actions in
  let draftMap := own_versions draftActions in
  let allActions := getAllActions h in
  (λ entry, (entry.1, add_collaborator_versions walletAddress allActions entry.1 entry.2))
    <$> draftMap.

Definition fetchUserDrafts (walletAddress : string) : M (list StoredDraft) :=
  try_catchM
    (actions <- lift (getActionsByCreator walletAddress (Some "ACTION_TYPE_CASCADE")) ;;
     map_each (discovered walletAddress actions) fetchUserDrafts_entry)
    (λ _, getStoredDrafts).

(** *** [fetchInvitedDrafts] *)

Definition is_version_of (draftId : string) (action : LumescopeAction) : bool :=
  match draft_file_match (action_fileName action) with
  | None => false
  | Some (id, _) =>
    String.eqb id draftId && String.eqb (la_state action) "ACTION_STATE_DONE"
  end.

Definition cascade_versions (actions : list LumescopeAction) (draftId : string)
  : list CascadeVersion :=
  let draftVersions := List.filter (is_version_of draftId) actions in
  List.filter (λ v, 0 <? cv_version v)
    ((λ action,
        match draft_file_match (action_fileName action) with
        | Some (_, digits) => index_version action digits
        | None => {| cv_version := 0; cv_actionId := la_id action;
                     cv_createdAt := Date_now h; cv_createdBy := la_creator action |}
        end) <$> draftVersions).

(** The body of the loop for one invited draft: the draft object is
    updated in place, and the summaries are later read from it. *)
Definition fetchInvitedDrafts_draft (actions : list LumescopeAction) (draft : Draft)
  : M Draft :=
  let cascadeVersions := cascade_versions actions (draftId draft) in
  if bool_decide (0 < length cascadeVersions)%nat then
    let cascadeVersions := sort_by cv_version cascadeVersions in
    match last_elem cascadeVersions with
    | None => throw (TypeError "Cannot read properties of undefined")
    | Some latestCascadeVersion =>
      let localLatestVersion :=
        num_or (dv_version <$> last_elem (versions draft)) 0 in
      if localLatestVersion <? cv_version latestCascadeVersion then
        let synced := add_missing (versions draft) cascadeVersions in
        let draft :=
          with_updatedAt (Date_now h)
            (with_versions (sort_by dv_version synced) draft) in
        saveDraft draft ;;; ret draft
      else ret draft
    end
  else ret draft.

Definition invited_draft (draft : Draft) : StoredDraft :=
  {| sd_draftId := draftId draft;
     sd_title := title draft;
     sd_status := status draft;
     sd_collaboratorCount := length (collaborators draft);
     sd_latestVersion := num_or (dv_version <$> last_elem (versions draft)) 1;
     sd_updatedAt := updatedAt draft;
     sd_owner := Some (owner draft) |}.

(** [fetchInvitedDrafts]. Nothing in the body of its [try] throws here (a
    sorted non-empty array has a last element), so the drafts the handler
    would find half updated are never read. *)
Definition fetchInvitedDrafts (walletAddress : string) : M (list StoredDraft) :=
  allDrafts <- getAllDrafts ;;
  let invitedDrafts := List.filter (is_invited walletAddress) allDrafts in
  invitedDrafts <-
    try_catchM
      (let actions := getAllActions h in
       map_each invitedDrafts (fetchInvitedDrafts_draft actions))
      (λ _, ret invitedDrafts) ;;
  ret (invited_draft <$> invitedDrafts).
End Index.

(** ** [src/wallet.ts]

    The module holds two variables and one item of [sessionStorage], which
    outlives a reload of the page while the variables start again at
    [null] and [false]. [sessionStorage] takes what it is given. *)

Module wallet_ts.

Record State := {
  connectedAddress : option string;
  isConnected : bool;
  session_wallet : option string;
}.

(** What a rejected promise of the extension carries: an [Error] with its
    message, or some other value. *)
Inductive Thrown :=
| An_Error (message : string)
| Not_an_Error.

(** [window.keplr] for one call of [connectWallet]: the outcome of
    [enable(CHAIN_ID)] ([None] when it resolves) and of [getKey(CHAIN_ID)]
    (the [bech32Address] of the key, or what it rejects with). *)
Record Keplr := {
  enable : option Thrown;
  getKey : Thrown + string;
}.

(** The state in which the module is loaded. *)
Definition loaded (session : option string) : State :=
  {| connectedAddress := None; isConnected := false; session_wallet := session |}.

Definition reload (st : State) : State := loaded (session_wallet st).

Definition initializeWalletState (st : State) : State :=
  match session_wallet st with
  | Some savedAddress =>
    if str_truthy savedAddress then
      {| connectedAddress := Some savedAddress; isConnected := true;
         session_wallet := session_wallet st |}
    else st
  | None => st
  end.

Definition isKeplrInstalled (keplr : option Keplr) : bool := bool_decide (is_Some keplr).

(** The error the [catch] of [connectWallet] throws in place of the one it
    caught. *)
Definition connect_error (error : Thrown) : exn :=
  AppError match error with
           | An_Error message => message
           | Not_an_Error => "Failed to connect to Keplr wallet"
           end.

Definition connectWallet (keplr : option Keplr) (st : State) : Result string * State :=
  match keplr with
  | None =>
    (Err (AppError "Keplr wallet is not installed. Please install Keplr extension from https://www.keplr.app/"),
     st)
  | Some keplr =>
    match enable keplr with
    | Some error => (Err (connect_error error), st)
    | None =>
      match getKey keplr with
      | inl error => (Err (connect_error error), st)
      | inr bech32Address =>
        (Ok bech32Address,
         {| connectedAddress := Some bech32Address; isConnected := true;
            session_wallet := Some bech32Address |})
      end
    end
  end.

Definition disconnectWallet (st : State) : State :=
  {| connectedAddress := None; isConnected := false; session_wallet := None |}.

Definition getConnectedAddress (st : State) : option string := connectedAddress st.

Definition isWalletConnected (st : State) : bool :=
  isConnected st && bool_decide (is_Some (connectedAddress st)).

(** What the interface does with the wallet. *)
Inductive Event :=
| PageLoad
| Connect (keplr : option Keplr)
| Disconnect.

Definition step (st : State) (ev : Event) : State :=
  match ev with
  | PageLoad => initializeWalletState (reload st)
  | Connect keplr => (connectWallet keplr st).2
  | Disconnect => disconnectWallet st
  end.
End wallet_ts.

(** ** [src/paper.ts]: paper manifests and URIs *)

Section PaperManifest.
Context `{Json}.
Local Open Scope result_scope.

Definition parsePaperManifest (data : string) : option json :=
  try_catch
    (manifest <- json_parse data ;;
     type <- get_prop manifest "type" ;;
     if strict_neq type "research_paper" then Ok None
     else Ok (Some manifest))
    (λ _, None).
End PaperManifest.

Definition formatPaperUri (actionId : string) : string := "lumera://" +:+ actionId.

(** [uri.match(/^lumera:\/\/(\d+)$/)]: the expression is anchored at both
    ends, so the digits are all that follows the scheme. *)
Definition parsePaperUri (uri : string) : option string :=
  match strip_prefix "lumera://" uri with
  | None => None
  | Some rest =>
    let '(digits, rest) := span is_digit rest in
    if String.eqb digits "" then None
    else if String.eqb rest "" then Some digits
    else None
  end.

Definition formatDraftUri (draftId : string) : string := "draft://" +:+ draftId.

(** ** [src/cascade.ts]: which index entries are listed as papers

    [mime_type] is the field of the index entry that [LumescopeAction]
    leaves out. *)

Definition looksLikePaper (fileName : string) : bool :=
  endsWith ".json" fileName
  && negb (includes "draft_" fileName)
  && negb (startsWith "invitation_" fileName).

(** The test of [fetchUserPapers]. *)
Definition fetchUserPapers_filter (mime_type : option string) (action : LumescopeAction)
  : bool :=
  let isJson := bool_decide (mime_type = Some "application/json") in
  let isDone := String.eqb (la_state action) "ACTION_STATE_DONE" in
  let fileName := action_fileName action in
  isJson && isDone && looksLikePaper fileName.

(** The test of [fetchAllPublications]. *)
Definition fetchAllPublications_filter (mime_type : option string)
    (action : LumescopeAction) : bool :=
  let isJson := bool_decide (mime_type = Some "application/json") in
  let isDone := String.eqb (la_state action) "ACTION_STATE_DONE" in
  let fileName := action_fileName action in
  let isCascade := String.eqb (la_type action) "ACTION_TYPE_CASCADE" in
  isCascade && isJson && isDone && looksLikePaper fileName.

(** ** Share links

    [encodeURIComponent] and [decodeURIComponent] ([None] is the [URIError]
    it throws), and [new URLSearchParams(search).get(name)]. *)
Class Uri := {
  encodeURIComponent : string → string;
  decodeURIComponent : string → option string;
  URLSearchParams_get : string → string → option string;
}.

Definition not_ampersand (c : ascii) : bool := negb (Ascii.eqb c "&").

(** [/key=([^&]+)/] tried at the start of [s], and at its leftmost match. *)
Definition key_at (s : string) : option string :=
  match strip_prefix "key=" s with
  | None => None
  | Some rest =>
    let '(key, _) := span not_ampersand rest in
    if String.eqb key "" then None else Some key
  end.

Fixpoint key_match (s : string) : option string :=
  match key_at s with
  | Some key => Some key
  | None =>
    match s with
    | EmptyString => None
    | String _ s' => key_match s'
    end
  end.

Section ShareLink.
Context `{Uri}.

(** [generateShareLink]; [baseUrl] is [window.location.origin]. *)
Definition generateShareLink (baseUrl draftId documentKeyBase64 : string) : string :=
  baseUrl +:+ "/?draft=" +:+ draftId +:+ "#key=" +:+ encodeURIComponent documentKeyBase64.

(** [parseShareLink]; [search] and [hash] are those of [window.location].
    The result is the pair [(draftId, documentKey)], [None] being [null];
    no result ([None]) is the [URIError] thrown by [decodeURIComponent]. *)
Definition parseShareLink (search hash : string)
  : option (option string * option string) :=
  let draftId := URLSearchParams_get search "draft" in
  if str_truthy hash && includes "key=" hash then
    match key_match hash with
    | Some keyMatch =>
      match decodeURIComponent keyMatch with
      | Some documentKey => Some (draftId, Some documentKey)
      | None => None
      end
    | None => Some (draftId, None)
    end
  else Some (draftId, None).
End ShareLink.

(** ** A reference instance of the interfaces

    A deliberately simple box that satisfies [SodiumLaws] (it seals by
    writing key and nonce in front of the message and opens by comparing
    them), a text codec that is its own inverse, and a reader for a
    three-form text syntax. They serve to run the module on concrete
    inputs; the theorems are stated for every instance. *)

Module Ref.
Definition seal (m n k : bytes) : bytes := (k ++ n ++ m)%list.

Definition open (c n k : bytes) : option bytes :=
  if decide (take (length (k ++ n)%list) c = (k ++ n)%list)
  then Some (drop (length (k ++ n)%list) c)
  else None.

Definition hash (len : nat) (m : bytes) : bytes :=
  take len (m ++ replicate len Byte.x00)%list.

Definition sodium : Sodium := {|
  crypto_secretbox_KEYBYTES := 32;
  crypto_secretbox_NONCEBYTES := 24;
  crypto_secretbox_easy := seal;
  crypto_secretbox_open_easy := open;
  crypto_generichash := hash;
  to_base64 := string_of_list_byte;
  from_base64 := λ s, Some (list_byte_of_string s);
  to_hex := string_of_list_byte;
|}.

(** The text [null] reads as [null]; [manifest C N] reads as an
    encrypted-draft manifest with ciphertext [C] and nonce [N]; [paper]
    reads as an object of another type; anything else is a syntax error. *)
Definition split_space (s : string) : string * string :=
  match String.index 0 " " s with
  | Some i => (substring 0 i s, substring (S i) (String.length s - S i) s)
  | None => (s, "")
  end.

Definition parse (s : string) : option json :=
  let '(head, rest) := split_space s in
  if String.eqb head "null" then Some JNull
  else if String.eqb head "paper" then
    Some (JObject [("type", JString "research_paper")])
  else if String.eqb head "manifest" then
    let '(c, n) := split_space rest in
    Some (JObject [("type", JString "encrypted_draft");
                   ("encrypted", JObject [("ciphertext", JString c);
                                          ("nonce", JString n)])])
  else None.

Definition reader : Json := {| JSON_parse := parse |}.

Definition key_of (b : Byte.byte) : bytes := replicate 32 b.

Definition alice : string := "lumera1alice".
Definition bob : string := "lumera1bob".

(** A connected wallet that signs, an uploader that accepts every file
    and names it by its file name, a downloader and an index with nothing
    to offer. *)
Definition host (address : string) : Host := {|
  sodiumReady := true;
  getConnectedAddress := Some address;
  getLumeraClient := true;
  keplr := Some (λ signer _, Ok (list_byte_of_string signer));
  uploadFile := λ f, Ok {| action_id := Some (fileName f); taskId := None;
                           actionId := None |};
  download := λ _, Err (Rejected Downloader "not found");
  GET_actions := λ _, Ok (Some []);
  Date_now := 1700000000000;
  crypto_secretbox_keygen := key_of Byte.x41;
  randombytes_buf := λ i len, replicate len Byte.x42;
|}.

Definition with_uploadFile (u : CascadeFile → Result UploadResult) (h : Host) : Host := {|
  sodiumReady := sodiumReady h;
  getConnectedAddress := getConnectedAddress h;
  getLumeraClient := getLumeraClient h;
  keplr := keplr h;
  uploadFile := u;
  download := download h;
  GET_actions := GET_actions h;
  Date_now := Date_now h;
  crypto_secretbox_keygen := crypto_secretbox_keygen h;
  randombytes_buf := randombytes_buf h;
|}.

Definition with_download (d : string → Result string) (h : Host) : Host := {|
  sodiumReady := sodiumReady h;
  getConnectedAddress := getConnectedAddress h;
  getLumeraClient := getLumeraClient h;
  keplr := keplr h;
  uploadFile := uploadFile h;
  download := d;
  GET_actions := GET_actions h;
  Date_now := Date_now h;
  crypto_secretbox_keygen := crypto_secretbox_keygen h;
  randombytes_buf := randombytes_buf h;
|}.

Definition empty_world : World := {|
  cachedDerivedKey := None;
  keyDerivationPromise := None;
  drafts := [];
  cascade := [];
  signaturePrompts := 0;
|}.

Definition empty_session : Session := {|
  s_cachedDerivedKey := None;
  s_keyDerivationPromise := None;
  s_promises := [];
  s_signRequests := [];
|}.

Definition no_metadata : DraftMetadataInput := {|
  in_abstract := None; in_authors := None;
  in_keywords := None; in_citations := None;
|}.

(** Alice's world after she has created a draft with the text [hello]. *)
Definition after_create : Result Draft * World :=
  @createDraft sodium (host alice) "T" "hello" no_metadata empty_world.
End Ref.

(** ** Concrete worlds

    Worlds and inputs built by running the module on the reference
    instance. *)

Section Scenarios.
#[local] Existing Instance Ref.sodium.
#[local] Existing Instance Ref.reader.

(** The value of a run that succeeded. *)
Definition value {A} (otherwise : A) (r : Result A) : A :=
  match r with
  | Ok a => a
  | Err _ => otherwise
  end.

Definition no_draft : Draft := {|
  draftId := ""; title := ""; status := status_draft;
  ownerEncryptedKey := ""; ownerKeyNonce := ""; owner := "";
  collaborators := []; versions := []; createdAt := 0; updatedAt := 0;
|}.


(** Alice creates a draft, then invites Bob. *)
Definition alice_draft : Draft := value no_draft Ref.after_create.1.
Definition alice_world : World := Ref.after_create.2.
Definition after_invite : Result AddCollaboratorResult * World :=
  addCollaborator (Ref.host Ref.alice) (draftId alice_draft) Ref.bob "Bob" alice_world.
Definition shared_world : World := after_invite.2.
Definition shared_draft : Draft :=
  default no_draft (snd <$> find_draft (draftId alice_draft) (drafts shared_world)).



(** Alice saves a second version of her shared draft. *)
Definition second_save : Result DraftVersion * World :=
  saveDraftVersion (Ref.host Ref.alice) (draftId alice_draft) "again" (Some "second")
    shared_world.

(** Bob opens Alice's shared draft on the same store, in a session of his
    own, before he has imported the key. *)
Definition bob_session : World := (clearDerivedKey shared_world).2.

(** The index lists a second version of Alice's draft, uploaded by Bob. *)
Definition found_on_index : list CascadeVersion :=
  [ {| cv_version := 2; cv_actionId := "8002"; cv_createdAt := 1700000001000;
       cv_createdBy := Ref.bob |};
    {| cv_version := 1; cv_actionId := "draft_BBBBBBBB_v1.json";
       cv_createdAt := 1700000001000; cv_createdBy := Ref.alice |} ].

(** Bob's store after he imported the draft from an invitation written when
    its latest version was 3: it holds that one version record. The index
    lists versions 1, 2 and 3. *)
Definition bob_draft : Draft := {|
  draftId := "BBBBBBBB"; title := "T"; status := status_shared;
  ownerEncryptedKey := ""; ownerKeyNonce := ""; owner := Ref.alice;
  collaborators :=
    [ {| c_wallet := Ref.bob; c_name := Ref.bob;
         c_keyShare := {| ks_wallet := Ref.bob; ks_encryptedKey := "k"; ks_nonce := "n" |};
         c_addedAt := 1700000000000; c_addedBy := Ref.alice;
         c_documentKeyBase64 := None |} ];
  versions :=
    [ {| dv_version := 3; dv_actionId := "8003"; dv_createdAt := 1700000000000;
         dv_createdBy := Ref.alice; dv_message := Some "Shared draft" |} ];
  createdAt := 1700000000000; updatedAt := 1700000002000;
|}.

Definition bob_world : World := {|
  cachedDerivedKey := None; keyDerivationPromise := None;
  drafts := [bob_draft]; cascade := []; signaturePrompts := 0;
|}.

Definition index_versions : list CascadeVersion :=
  [ {| cv_version := 1; cv_actionId := "8001"; cv_createdAt := 1700000003000;
       cv_createdBy := Ref.alice |};
    {| cv_version := 2; cv_actionId := "8002"; cv_createdAt := 1700000003000;
       cv_createdBy := Ref.alice |};
    {| cv_version := 3; cv_actionId := "8003"; cv_createdAt := 1700000003000;
       cv_createdBy := Ref.alice |} ].
End Scenarios.

(** * Vocabulary of the statements *)

(** The [type] discriminant of a parsed value: the own property [type] of an
    object, nothing for any other value. *)
Definition discriminant (v : json) : option json :=
  match v with
  | JObject props => own_property props "type"
  | _ => None
  end.

(** A computation that leaves the local drafts and the Cascade store as
    they were, whatever its outcome. *)
Definition keeps_stores {A} (c : M A) : Prop :=
  ∀ w, drafts (c w).2 = drafts w ∧ cascade (c w).2 = cascade w.

Definition keeps_drafts {A} (c : M A) : Prop := ∀ w, drafts (c w).2 = drafts w.

(** A computation that ends in an error with the local drafts and the
    Cascade store as they were. *)
Definition aborts {A} (c : M A) : Prop :=
  ∀ w, (∃ e, (c w).1 = Err e) ∧ drafts (c w).2 = drafts w
       ∧ cascade (c w).2 = cascade w.

(** The array [saveDraft d] writes back. *)
Definition save_into (d : Draft) (ds : list Draft) : list Draft :=
  match find_draft (draftId d) ds with
  | Some (i, _) => <[i := d]> ds
  | None => ds ++ [d]
  end.

(** Run from [w], the computation leaves the local drafts as they were or
    writes back one draft [d], with [Q r d] for its outcome [r]. *)
Definition writes_once {A} (c : M A) (Q : Result A → Draft → Prop) (w : World) : Prop :=
  drafts (c w).2 = drafts w
  ∨ ∃ d, Q (c w).1 d ∧ drafts (c w).2 = save_into d (drafts w).

(** The placeholder share [addCollaborator] writes for a wallet. *)
Definition placeholder (wallet : string) : EncryptedKeyShare :=
  {| ks_wallet := wallet; ks_encryptedKey := ""; ks_nonce := "" |}.

(** The collaborator record [addCollaborator] builds, and the draft it
    writes back. *)
Definition new_collaborator (h : Host) (wallet name owner documentKeyBase64 : string)
  : Collaborator :=
  {| c_wallet := wallet; c_name := name;
     c_keyShare := {| ks_wallet := wallet; ks_encryptedKey := ""; ks_nonce := "" |};
     c_addedAt := Date_now h; c_addedBy := owner;
     c_documentKeyBase64 := Some documentKeyBase64 |}.

Definition with_new_collaborator (h : Host) (c : Collaborator) (draft : Draft) : Draft :=
  with_updatedAt (Date_now h)
    (with_status status_shared
       (with_collaborators (collaborators draft ++ [c]) draft)).


(** The order a numeric key gives. *)
Definition key_le {A} (key : A → Z) (a b : A) : Prop := key a ≤ key b.

(** The test that guards the sync: the highest discovered version number
    exceeds the number of the draft's last local record (0 when it has
    none). *)
Definition newer_on_cascade (local : Draft) (found : list CascadeVersion) : bool :=
  match last_elem (sort_by cv_version found) with
  | Some latest =>
      num_or (dv_version <$> last_elem (versions local)) 0 <? cv_version latest
  | None => false
  end.

(** The draft the sync writes when the guard passes. *)
Definition synced_draft (now : Z) (local : Draft) (found : list CascadeVersion) : Draft :=
  with_updatedAt now
    (with_versions
       (sort_by dv_version (add_missing (versions local) (sort_by cv_version found)))
       local).

(** [local'] is [local] reconciled with the discovered versions [found]:
    every discovered number is present; a number the local list lacked is
    there as a record synthesized from a discovered version of that number
    (so pointing at its action id); every local record is still there, as
    often as before; nothing else was added; the list is sorted by version
    number; and only [versions] and [updatedAt] differ. *)
Definition reconciled (found : list CascadeVersion) (local local' : Draft) : Prop :=
  (∀ v, v ∈ found → ∃ r, r ∈ versions local' ∧ dv_version r = cv_version v)
  ∧ (∀ v, v ∈ found → (∀ r, r ∈ versions local → dv_version r ≠ cv_version v) →
       ∃ v', v' ∈ found ∧ cv_version v' = cv_version v
             ∧ synced_version v' ∈ versions local')
  ∧ versions local ⊆+ versions local'
  ∧ (∀ r, r ∈ versions local' →
       r ∈ versions local ∨ ∃ v, v ∈ found ∧ r = synced_version v)
  ∧ StronglySorted (key_le dv_version) (versions local')
  ∧ local' = with_updatedAt (updatedAt local') (with_versions (versions local') local).

(** Every version number of [found2] is a version number of [found]. *)
Definition no_new_number (found2 found : list CascadeVersion) : Prop :=
  ∀ v, v ∈ found2 → ∃ v', v' ∈ found ∧ cv_version v' = cv_version v.

(** The world after a sync of the draft [local], through either path. *)
Definition sync_world (now : Z) (local : Draft) (found : list CascadeVersion)
    (w : World) : World :=
  if newer_on_cascade local found
  then (saveDraft (synced_draft now local found) w).2
  else w.

(** What the awaiters of a derivation see once the wallet has answered. *)
Definition settled `{Sodium} (h : Host) (answer : Result bytes) : Result bytes :=
  rbind answer (deriveKeyFromSignature (sodiumReady h)).

(** The status [getDraft id] would show. *)
Definition status_in (id : string) (ds : list Draft) : option DocumentStatus :=
  (λ p, status p.2) <$> find_draft id ds.

Definition status_of (id : string) (w : World) : option DocumentStatus :=
  status_in id (drafts w).

(** No two stored drafts share a [draftId]. *)
Definition ids_unique (ds : list Draft) : Prop := NoDup (draftId <$> ds).

(** The draft written keeps the status its id is stored with. *)
Definition same_status (ds : list Draft) (d : Draft) : Prop :=
  status_in (draftId d) ds = Some (status d).

(** The statuses and the uniqueness of ids, as a sync loop keeps them. *)
Definition same_statuses (w0 w : World) : Prop :=
  (∀ id, status_of id w = status_of id w0)
  ∧ (ids_unique (drafts w0) → ids_unique (drafts w)).

(** The [draftId] under which [importDraftFromCascade] would store a draft
    for a link to [draftId] opened by [wallet]: the one written inside the
    invitation file that the index lists under that wallet and draft. *)
Definition imported_id `{Json} (h : Host) (wallet draftId : string) : option string :=
  match find (is_invitation_for wallet draftId) (getAllActions h) with
  | Some invitationAction =>
    match rbind (download h (la_id invitationAction))
                (λ text, rbind (json_parse text) invitation_fields) with
    | Ok invitation => Some (if_draftId invitation)
    | Err _ => None
    end
  | None => None
  end.



(** What the sequential world records of a session. *)
Definition session_view (s : Session) : option bytes * option exn :=
  (s_cachedDerivedKey s,
   match s_keyDerivationPromise s with
   | Some p =>
     match s_promises s !! p with
     | Some (RejectedWith reason) => Some reason
     | _ => None
     end
   | None => None
   end).

(** No derivation is in flight. *)
Definition quiescent (s : Session) : Prop :=
  match s_keyDerivationPromise s with
  | Some p => ∃ reason, s_promises s !! p = Some (RejectedWith reason)
  | None => True
  end.

(** The answer of the wallet of [h] to a request it has taken. *)
Definition wallet_answer (h : Host) : Result bytes :=
  match keplr h, getConnectedAddress h with
  | Some signArbitrary, Some connectedAddress =>
      signArbitrary connectedAddress DERIVED_KEY_MESSAGE
  | _, _ => Err (AppError "Wallet not connected")
  end.

Definition call_and_settle `{Sodium} (h : Host) (s : Session) : Handle * Session :=
  let '(r, s1) := getOrDeriveDerivedKey_call h s in
  match r with
  | Awaits p => (r, wallet_answers h p (wallet_answer h) s1)
  | Resolved _ => (r, s1)
  end.

(** A computation that, when it fails, has left the local drafts and the
    Cascade store as they were. *)
Definition all_or_nothing {A} (c : M A) : Prop :=
  ∀ w e w', c w = (Err e, w') → drafts w' = drafts w ∧ cascade w' = cascade w.

(** A computation that cannot fail. *)
Definition succeeds {A} (c : M A) : Prop := ∀ w, ∃ a, (c w).1 = Ok a.

(** A computation that fails from every world. *)
Definition fails {A} (c : M A) : Prop := ∀ w, ∃ e, (c w).1 = Err e.

(** The downloader returns, for [actionId], a text that reads back as the
    uploaded content [c]. *)
Definition serves `{Json} (h : Host) (actionId : string) (c : CascadeContent) : Prop :=
  ∃ text, download h actionId = Ok text ∧ JSON_parse text = Some (json_of_content c).

(** The file a call has just added to the Cascade store. *)
Definition uploaded (w w' : World) (file : CascadeFile) : Prop :=
  cascade w' = cascade w ++ [file].

(** The draft [importDraftFromCascade] builds from an invitation, for the
    wallet that opened the link. *)
Definition imported_draft (h : Host) (wallet : string) (keyShare : EncryptedKeyShare)
    (inv : CollaborationInvitation) : Draft :=
  {| draftId := inv_draftId inv;
     title := inv_draftTitle inv;
     owner := inv_owner inv;
     collaborators :=
       [ {| c_wallet := wallet; c_name := wallet; c_keyShare := keyShare;
            c_addedAt := inv_createdAt inv; c_addedBy := inv_invitedBy inv;
            c_documentKeyBase64 := None |} ];
     status := status_shared;
     versions :=
       [ {| dv_version := inv_latestVersion inv;
            dv_actionId := inv_latestActionId inv;
            dv_createdAt := inv_createdAt inv;
            dv_createdBy := inv_owner inv;
            dv_message := Some "Shared draft" |} ];
     ownerEncryptedKey := "";
     ownerKeyNonce := "";
     createdAt := inv_createdAt inv;
     updatedAt := Date_now h |}.

Definition Imported : LinkResult :=
  link_result true "Draft imported successfully! You can now edit it.".

(** The ways the module builds the draft it writes back: a draft just
    created, a stored draft with one more version, with one more
    collaborator, with the key share of one collaborator replaced, a draft
    imported from an invitation, and a stored draft synced with the index.
    [P] is closed under them when each yields a draft with [P] from drafts
    with [P]. *)
Record closed_under_updates (h : Host) (P : Draft → Prop) : Prop := {
  closed_created : ∀ d v,
    status d = status_draft → collaborators d = [] →
    versions d = [v] → dv_version v = 1 → P d;
  closed_version : ∀ d v latest,
    P d → last (versions d) = Some latest → dv_version v = dv_version latest + 1 →
    P (with_updatedAt (Date_now h) (with_versions (versions d ++ [v]) d));
  closed_collaborator : ∀ d c,
    P d → some (is_collaborator (c_wallet c)) (collaborators d) = false →
    P (with_new_collaborator h c d);
  closed_keyShare : ∀ d j c ks,
    P d → collaborators d !! j = Some c →
    P (with_collaborators (<[j := with_keyShare ks c]> (collaborators d)) d);
  closed_imported : ∀ d c v,
    status d = status_shared → collaborators d = [c] → versions d = [v] → P d;
  closed_synced : ∀ d found, P d → P (synced_draft (Date_now h) d found);
}.

(** A draft is shared exactly when it has a collaborator, and is never
    published. *)
Definition sharing_consistent (d : Draft) : Prop :=
  (status d = status_draft ∧ collaborators d = [])
  ∨ (status d = status_shared ∧ collaborators d ≠ []).

(** No wallet is listed twice among the collaborators. *)
Definition collaborators_unique (d : Draft) : Prop :=
  NoDup (c_wallet <$> collaborators d).




Definition digits_only (s : string) : Prop :=
  Forall (λ c, is_digit c = true) (list_ascii_of_string s).

(** [d'] is [d] but for its version list, which still holds every record
    of [d], and its [updatedAt]. *)
Definition versions_touched (d d' : Draft) : Prop :=
  d' = with_updatedAt (updatedAt d') (with_versions (versions d') d)
  ∧ versions d ⊆+ versions d'.

(** [w'] is [w] but for the version lists of its drafts: the same drafts
    in the same order, nothing uploaded, the key cache as it was. *)
Definition only_versions_touched (w w' : World) : Prop :=
  Forall2 versions_touched (drafts w) (drafts w')
  ∧ w' = set_drafts (drafts w') w.

(** What the sync of [fetchInvitedDrafts] makes of one draft, for the
    versions [found] that the index lists under each [draftId]. *)
Definition synced_if_newer (now : Z) (found : string → list CascadeVersion) (d : Draft)
  : Draft :=
  if newer_on_cascade d (found (draftId d)) then synced_draft now d (found (draftId d))
  else d.

(** The state of [wallet.ts] is consistent: the flag is set exactly when
    an address is held, and an address held is the one kept in
    [sessionStorage]. *)
Definition wallet_consistent (st : wallet_ts.State) : Prop :=
  (wallet_ts.isConnected st = true ↔ is_Some (wallet_ts.connectedAddress st))
  ∧ ∀ address, wallet_ts.connectedAddress st = Some address →
               wallet_ts.session_wallet st = Some address.

(** A computation that touches the two stores only when it returns a value
    the test [good] accepts: after any other value, and after a throw, the
    local drafts and the Cascade store are as they were. *)
Definition quiet_unless {A} (good : A → bool) (c : M A) : Prop :=
  ∀ w, match (c w).1 with
       | Ok a => good a = false
       | Err _ => True
       end →
       drafts (c w).2 = drafts w ∧ cascade (c w).2 = cascade w.

(** ** More concrete worlds

    A Cascade that gives back what it was given: the uploader of
    [Ref.host] names an action by its file name, the downloader hands out
    that name, and the reader resolves it in a store of uploaded files to
    the value [JSON.parse] has on the text that was uploaded. *)

Section Archive.
#[local] Existing Instance Ref.sodium.

Definition archive_reader (store : list CascadeFile) : Json :=
  {| JSON_parse := λ text,
       json_of_content ∘ fileBytes
         <$> find (λ f, String.eqb (fileName f) text) store |}.

Definition with_GET_actions
    (g : option string → Result (option (list LumescopeAction))) (h : Host) : Host := {|
  sodiumReady := sodiumReady h;
  getConnectedAddress := getConnectedAddress h;
  getLumeraClient := getLumeraClient h;
  keplr := keplr h;
  uploadFile := uploadFile h;
  download := download h;
  GET_actions := g;
  Date_now := Date_now h;
  crypto_secretbox_keygen := crypto_secretbox_keygen h;
  randombytes_buf := randombytes_buf h;
|}.

(** The entry the index holds for an uploaded file. *)
Definition indexed (type creator : string) (f : CascadeFile) : LumescopeAction := {|
  la_id := fileName f;
  la_type := type;
  la_creator := creator;
  la_state := "ACTION_STATE_DONE";
  la_decoded := Some {| data_hash := ""; file_name := fileName f; public := isPublic f |};
|}.

(** A host on the archive: every uploaded file of [store] is listed, as a
    Cascade action of [creator], and can be downloaded. *)
Definition archive_host (creator : string) (store : list CascadeFile) (address : string)
  : Host :=
  with_GET_actions (λ _, Ok (Some (indexed "ACTION_TYPE_CASCADE" creator <$> store)))
    (Ref.with_download (λ actionId, Ok actionId) (Ref.host address)).

(** The invitation Alice uploaded for Bob, and the result of her call. *)
Definition no_invitation : CollaborationInvitation := {|
  inv_version := 0; inv_draftId := ""; inv_draftTitle := ""; inv_owner := "";
  inv_ownerName := None; inv_invitedWallet := "";
  inv_keyShare := placeholder ""; inv_latestVersion := 0;
  inv_latestActionId := ""; inv_createdAt := 0; inv_invitedBy := "";
|}.

Definition no_file : CascadeFile := {|
  fileName := ""; fileBytes := InvitationJson no_invitation;
  isPublic := false; expirationTime := "";
|}.

Definition invitation_file : CascadeFile := default no_file (last (cascade shared_world)).

Definition bob_invitation : CollaborationInvitation :=
  match fileBytes invitation_file with
  | InvitationJson i => i
  | ManifestJson _ => no_invitation
  end.

Definition invite_result : AddCollaboratorResult :=
  value {| r_collaborator := {| c_wallet := ""; c_name := ""; c_keyShare := placeholder "";
                                c_addedAt := 0; c_addedBy := "";
                                c_documentKeyBase64 := None |};
           r_invitationId := None; r_documentKeyBase64 := "" |}
        after_invite.1.

(** Bob's entry in Alice's shared draft. *)
Definition bob_entry : Collaborator :=
  default (r_collaborator invite_result) (last (collaborators shared_draft)).

(** A wallet that is not connected to any draft. *)
Definition carol : string := "lumera1carol".

(** An uploader that is down. *)
Definition offline (address : string) : Host :=
  Ref.with_uploadFile (λ _, Err (Rejected Uploader "storage unavailable"))
    (Ref.host address).

(** The key a wallet derives on the reference instance. *)
Definition derived_key (address : string) : bytes :=
  value [] (getOrDeriveDerivedKey (Ref.host address) Ref.empty_world).1.

(** An index that does not answer, and one that lists the files of
    [store] under the type [ACTION_TYPE_SENSE]. *)
Definition index_down (address : string) : Host :=
  with_GET_actions (λ _, Err (AppError "Lumescope API error: 503")) (Ref.host address).

Definition sense_host (creator : string) (store : list CascadeFile) (address : string)
  : Host :=
  with_GET_actions (λ _, Ok (Some (indexed "ACTION_TYPE_SENSE" creator <$> store)))
    (Ref.host address).

(** An extension that grants the connection of the wallet [address]. *)
Definition granting (address : string) : wallet_ts.Keplr :=
  {| wallet_ts.enable := None; wallet_ts.getKey := inr address |}.

(** A codec that leaves a base64 text as it is, and a query string with
    one parameter. *)
Definition plain_uri : Uri := {|
  encodeURIComponent := λ s, s;
  decodeURIComponent := λ s, Some s;
  URLSearchParams_get := λ search name, strip_prefix ("?" +:+ name +:+ "=") search;
|}.

(** The same host, a minute later. *)
Definition later (h : Host) : Host := {|
  sodiumReady := sodiumReady h;
  getConnectedAddress := getConnectedAddress h;
  getLumeraClient := getLumeraClient h;
  keplr := keplr h;
  uploadFile := uploadFile h;
  download := download h;
  GET_actions := GET_actions h;
  Date_now := Date_now h + 60000;
  crypto_secretbox_keygen := crypto_secretbox_keygen h;
  randombytes_buf := randombytes_buf h;
|}.
End Archive.

(** * Properties *)

(** ** Stepping through the monad *)

Lemma bind_Ok {A B} (c : M A) (k : A → M B) w b w' :
  bind c k w = (Ok b, w') ↔ ∃ a w1, c w = (Ok a, w1) ∧ k a w1 = (Ok b, w').
Proof.
  unfold bind. split.
  - destruct (c w) as [[a|e] w1]; [eauto | discriminate].
  - intros (a & w1 & -> & Hk). done.
Qed.

Lemma lift_run {A} (r : Result A) w : lift r w = (r, w).
Proof. done. Qed.

Lemma keeps_stores_throw {A} e : keeps_stores (@throw A e).
Proof. done. Qed.

Lemma keeps_stores_lift {A} (r : Result A) : keeps_stores (lift r).
Proof. done. Qed.

Lemma keeps_stores_bind {A B} (c : M A) (k : A → M B) :
  keeps_stores c → (∀ a, keeps_stores (k a)) → keeps_stores (bind c k).
Proof.
  intros Hc Hk w. unfold bind. specialize (Hc w).
  destruct (c w) as [[a|e] w1]; simpl in *; [| done].
  destruct (Hk a w1) as [-> ->]. done.
Qed.

Section CryptoFacts.
Context `{SodiumLaws}.


Lemma decryptKeyShare_encryptKeyForCollaborator nonce D Mk wallet :
  length Mk = crypto_secretbox_KEYBYTES →
  length nonce = crypto_secretbox_NONCEBYTES →
  rbind (encryptKeyForCollaborator true nonce D Mk wallet)
        (λ share, decryptKeyShare true share Mk) = Ok D.
Proof.
  intros HK Hn. unfold encryptKeyForCollaborator, decryptKeyShare, sodium_from_base64.
  simpl. rewrite !from_to_base64. simpl. by rewrite open_easy_sealed.
Qed.


End CryptoFacts.

(** The reference box satisfies the laws. *)
Lemma Ref_sodium_laws : @SodiumLaws Ref.sodium.
Proof.
  split.
  - intros b. simpl. by rewrite list_byte_of_string_of_list_byte.
  - intros m n k _ _. simpl. unfold Ref.open, Ref.seal.
    rewrite (assoc_L (++)%list k n m), take_app_length.
    rewrite decide_True by done. by rewrite drop_app_length.
  - intros m n k k' Hk Hk' _ Hne. simpl in *. unfold Ref.open, Ref.seal.
    rewrite decide_False; [done |].
    rewrite (assoc_L (++)%list k n m).
    replace (length (k' ++ n)%list) with (length (k ++ n)%list)
      by (rewrite !length_app; congruence).
    rewrite take_app_length. intros Heq.
    apply app_inj_2 in Heq as [? _]; [congruence | done].
Qed.

(** ** Local storage *)

Lemma find_draft_Some id ds i d :
  find_draft id ds = Some (i, d) → ds !! i = Some d ∧ draftId d = id.
Proof. intros (? & ? & _)%list_find_Some. done. Qed.

Lemma find_draft_insert id ds i d d' :
  find_draft id ds = Some (i, d) → draftId d' = id →
  find_draft id (<[i := d']> ds) = Some (i, d').
Proof.
  intros (Hi & Hd & Hleast)%list_find_Some Hid. apply list_find_Some.
  split_and!; [| done |].
  - apply list_lookup_insert_eq. by eapply lookup_lt_Some.
  - intros j y Hj Hlt. rewrite list_lookup_insert_ne in Hj by lia. eauto.
Qed.

Lemma find_draft_insert_ne id id' ds i d d' :
  find_draft id ds = Some (i, d) → draftId d' = id → id' ≠ id →
  find_draft id' (<[i := d']> ds) = find_draft id' ds.
Proof.
  intros (Hi & Hd & _)%list_find_Some Hid Hne. unfold find_draft.
  revert i Hi. induction ds as [|x ds IH]; intros [|i] Hi; simplify_eq/=; try done.
  - rewrite !decide_False by congruence. done.
  - case_decide; [done |]. by rewrite IH.
Qed.

Lemma find_draft_app_new id id' ds d' :
  draftId d' = id → id' ≠ id →
  find_draft id' (ds ++ [d']) = find_draft id' ds.
Proof.
  intros Hid Hne. unfold find_draft.
  destruct (list_find _ ds) as [[i d]|] eqn:E.
  - by apply list_find_app_l.
  - rewrite list_find_app_r by done. simpl.
    rewrite decide_False by congruence. done.
Qed.

Lemma find_draft_app_here id ds d' :
  find_draft id ds = None → draftId d' = id →
  find_draft id (ds ++ [d']) = Some (length ds, d').
Proof.
  intros Hnone Hid. unfold find_draft in *.
  rewrite list_find_app_r by done. simpl.
  rewrite decide_True by done. done.
Qed.

Lemma saveDraft_run d w :
  saveDraft d w =
  (Ok tt, set_drafts (match find_draft (draftId d) (drafts w) with
                      | Some (i, _) => <[i := d]> (drafts w)
                      | None => drafts w ++ [d]
                      end) w).
Proof. unfold saveDraft. by destruct (find_draft _ _) as [[??]|]. Qed.

(** After [saveDraft d], [getDraft (draftId d)] finds [d]. *)
Lemma find_draft_saveDraft d w :
  ∃ i, find_draft (draftId d) (drafts (saveDraft d w).2) = Some (i, d).
Proof.
  rewrite saveDraft_run. simpl.
  destruct (find_draft (draftId d) (drafts w)) as [[i d0]|] eqn:E.
  - exists i. by eapply find_draft_insert.
  - eexists. by apply find_draft_app_here.
Qed.

(** ** What key resolution leaves alone *)

Lemma keeps_stores_signMessage h msg : keeps_stores (signMessage h msg).
Proof.
  intros w. unfold signMessage.
  destruct (keplr h); [| done]. destruct (getConnectedAddress h); [| done].
  by destruct (str_truthy _).
Qed.

Lemma keeps_stores_getOrDeriveDerivedKey `{Sodium} h :
  keeps_stores (getOrDeriveDerivedKey h).
Proof.
  intros w. unfold getOrDeriveDerivedKey.
  destruct (cachedDerivedKey w); [done |].
  destruct (keyDerivationPromise w); [done |].
  pose proof (keeps_stores_bind (signMessage h DERIVED_KEY_MESSAGE)
    (λ s, lift (deriveKeyFromSignature (sodiumReady h) s))
    (keeps_stores_signMessage _ _) (λ _, keeps_stores_lift _) w) as Hk.
  destruct (bind _ _ w) as [[k|e] w1]; simpl in *; done.
Qed.

Lemma keeps_stores_require_address h e : keeps_stores (require_address h e).
Proof.
  intros w. unfold require_address.
  destruct (getConnectedAddress h); [| done]. by destruct (str_truthy _).
Qed.

Lemma keeps_stores_require_client h : keeps_stores (require_client h).
Proof. intros w. unfold require_client. by destruct (getLumeraClient h). Qed.

Lemma keeps_stores_getDocumentKey `{Sodium} h d :
  keeps_stores (getDocumentKey h d).
Proof.
  unfold getDocumentKey.
  apply keeps_stores_bind; [apply keeps_stores_require_address |]. intros wallet.
  apply keeps_stores_bind; [apply keeps_stores_getOrDeriveDerivedKey |]. intros k.
  destruct (String.eqb _ _); [apply keeps_stores_lift |].
  destruct (find _ _); [| apply keeps_stores_throw].
  destruct (_ || _); [apply keeps_stores_throw | apply keeps_stores_lift].
Qed.

Lemma keeps_stores_run {A} (c : M A) w r w' :
  keeps_stores c → c w = (r, w') → drafts w' = drafts w ∧ cascade w' = cascade w.
Proof. intros Hc Hrun. specialize (Hc w). by rewrite Hrun in Hc. Qed.

(** ** [parseEncryptedDraftManifest] *)

Lemma strict_neq_false u s : strict_neq u s = false ↔ u = Some (JString s).
Proof.
  unfold strict_neq. destruct u as [[]|]; try done.
  rewrite negb_false_iff, String.eqb_eq. split; [by intros -> | by intros [= ->]].
Qed.

Lemma parseEncryptedDraftManifest_unfold `{Json} (data : string) :
  parseEncryptedDraftManifest data =
  match JSON_parse data with
  | None => None
  | Some v => if strict_neq (discriminant v) "encrypted_draft" then None else Some v
  end.
Proof.
  unfold parseEncryptedDraftManifest, parseEncryptedDraftManifest_try, json_parse.
  destruct (JSON_parse data) as [v|]; [| done].
  destruct v; simpl; try done. by destruct (strict_neq _ _).
Qed.

(** C10. [parseEncryptedDraftManifest] returns on every input, with every
    throw of its body caught: it returns [null] exactly when the text is not
    valid JSON or the parsed value's [type] discriminant is not
    ['encrypted_draft'] (a parsed [null], whose property read throws, is
    among them), and returns the parsed value itself otherwise. *)
Theorem parseEncryptedDraftManifest_total `{Json} (data : string) :
  (parseEncryptedDraftManifest data = None ↔
     JSON_parse data = None ∨
     ∃ v, JSON_parse data = Some v ∧ discriminant v ≠ Some (JString "encrypted_draft"))
  ∧ (∀ manifest, parseEncryptedDraftManifest data = Some manifest ↔
       JSON_parse data = Some manifest ∧
       discriminant manifest = Some (JString "encrypted_draft")).
Proof.
  rewrite parseEncryptedDraftManifest_unfold.
  destruct (JSON_parse data) as [v|].
  2: { split; [split; [auto | done] | intros m; split; [done | intros [[=] _]]]. }
  destruct (strict_neq (discriminant v) "encrypted_draft") eqn:Hneq.
  - assert (discriminant v ≠ Some (JString "encrypted_draft")) as Hd.
    { intros Heq%strict_neq_false. congruence. }
    split; [split; [intros _; right; eexists; by split | done] |].
    intros m. split; [done | intros [[= <-] ?]; done].
  - apply strict_neq_false in Hneq.
    split; [split; [done | intros [[=] | (v' & [= <-] & Hv)]; done] |].
    intros m. split; [intros [= <-]; done | intros [[= <-] _]; done].
Qed.

(** ** [createDraft] *)

Lemma aborts_bind_l {A B} (c : M A) (k : A → M B) : aborts c → aborts (bind c k).
Proof.
  intros Hc w. destruct (Hc w) as ([e He] & Hd & Hs). unfold bind.
  destruct (c w) as [[a|e'] w1]; simpl in *; [done | eauto].
Qed.

Lemma aborts_bind_r {A B} (c : M A) (k : A → M B) :
  keeps_stores c → (∀ a, aborts (k a)) → aborts (bind c k).
Proof.
  intros Hc Hk w. destruct (Hc w) as [Hd Hs]. unfold bind.
  destruct (c w) as [[a|e'] w1]; simpl in *; [| eauto].
  destruct (Hk a w1) as (He & -> & ->). eauto.
Qed.

Lemma aborts_upload h file :
  (∃ e, uploadFile h file = Err e) → aborts (upload h file).
Proof. intros [e He] w. unfold upload. rewrite He. simpl. eauto. Qed.

(** C4. When the uploader rejects the version-1 manifest, [createDraft]
    ends in an error and the local draft store is what it was before the
    call (the Cascade store as well): no partial draft is kept. *)
Theorem createDraft_upload_failure `{Sodium} (h : Host)
    (title content : string) (metadata : DraftMetadataInput) (w : World) :
  (∀ file m, fileBytes file = ManifestJson m → md_version (m_metadata m) = 1 →
             ∃ e, uploadFile h file = Err e) →
  (∃ e, (createDraft h title content metadata w).1 = Err e)
  ∧ drafts (createDraft h title content metadata w).2 = drafts w
  ∧ cascade (createDraft h title content metadata w).2 = cascade w.
Proof.
  intros Hup. revert w. change (aborts (createDraft h title content metadata)).
  unfold createDraft.
  apply aborts_bind_r; [apply keeps_stores_require_client | intros _].
  apply aborts_bind_r; [apply keeps_stores_require_address | intros owner].
  apply aborts_bind_r; [apply keeps_stores_lift | intros documentKey].
  apply aborts_bind_r; [apply keeps_stores_lift | intros encrypted].
  apply aborts_bind_r; [apply keeps_stores_getOrDeriveDerivedKey | intros derivedKey].
  apply aborts_bind_r; [apply keeps_stores_lift | intros ownerKeyShare].
  apply aborts_bind_l, aborts_upload. by eapply Hup.
Qed.

(** ** [saveDraftVersion] *)

Tactic Notation "ok_step" hyp(H) "as" simple_intropattern(a)
    simple_intropattern(w) simple_intropattern(Hc) :=
  apply bind_Ok in H as (a & w & Hc & H).

Lemma require_client_Ok h w u w' :
  require_client h w = (Ok u, w') → getLumeraClient h = true ∧ w' = w.
Proof. unfold require_client. destruct (getLumeraClient h); by intros [= <-]. Qed.

Lemma require_address_Ok h e w a w' :
  require_address h e w = (Ok a, w') →
  getConnectedAddress h = Some a ∧ str_truthy a = true ∧ w' = w.
Proof.
  unfold require_address. destruct (getConnectedAddress h) as [a0|]; [| done].
  destruct (str_truthy a0) eqn:E; [| done]. by intros [= <- <-].
Qed.



(** ** [processSecureShareLink] *)

Lemma find_none_iff {A} (p : A → bool) (l : list A) :
  find p l = None ↔ ∀ x, x ∈ l → p x = false.
Proof.
  induction l as [|y l IH]; simpl.
  - split; [intros _ x Hx; by apply elem_of_nil in Hx | done].
  - destruct (p y) eqn:Hy.
    + split; [done |]. intros Hall. rewrite Hall in Hy; [done | left].
    + rewrite IH. split.
      * intros Hall x [-> | Hx]%elem_of_cons; auto.
      * intros Hall x Hx. apply Hall. by right.
Qed.

(** C6. On a client that holds no local record of the draft, when the index
    lists no finished Cascade action named
    [invitation_{wallet}_{draftId}.json] for the connected wallet (a failed
    index query lists none), [processSecureShareLink] answers with the
    not-invited failure whatever key the link carries, and the world (the
    local draft store in particular) is what it was. *)
Theorem processSecureShareLink_not_invited `{Sodium} `{Json} (h : Host)
    (draftId documentKeyBase64 wallet : string) (w : World) :
  getConnectedAddress h = Some wallet →
  str_truthy wallet = true →
  find_draft draftId (drafts w) = None →
  (∀ action, action ∈ getAllActions h →
             is_invitation_for wallet draftId action = false) →
  processSecureShareLink h draftId documentKeyBase64 w = (Ok NotInvited, w).
Proof.
  intros Hw Ht Hnone Hidx. unfold processSecureShareLink.
  rewrite Hw, Ht. simpl. unfold bind at 1, getDraft. rewrite Hnone. simpl.
  unfold try_catchM, bind, verifyInvitationOnCascade, try_catchM, ret.
  apply find_none_iff in Hidx. rewrite Hidx. simpl.
  done.
Qed.

(** ** [addCollaborator] *)

Lemma uploadCollaborationInvitation_run h draft collaborator w r w' :
  uploadCollaborationInvitation h draft collaborator w = (r, w') →
  drafts w' = drafts w
  ∧ (cascade w' = cascade w
     ∨ ∃ file invitation,
         cascade w' = cascade w ++ [file]
         ∧ fileName file =
             "invitation_" +:+ c_wallet collaborator +:+ "_" +:+ draftId draft +:+ ".json"
         ∧ fileBytes file = InvitationJson invitation
         ∧ inv_draftId invitation = draftId draft
         ∧ inv_invitedWallet invitation = c_wallet collaborator
         ∧ inv_keyShare invitation =
             {| ks_wallet := c_wallet collaborator;
                ks_encryptedKey := ks_encryptedKey (c_keyShare collaborator);
                ks_nonce := ks_nonce (c_keyShare collaborator) |}).
Proof.
  unfold uploadCollaborationInvitation, bind, require_client.
  destruct (getLumeraClient h); simpl; [| intros [= <- <-]; auto].
  destruct (last_elem (versions draft)) as [latest|]; [| intros [= <- <-]; auto].
  unfold upload. destruct (uploadFile h _) as [u|e]; simpl; intros [= <- <-].
  - split; [done |]. right. eexists _, _. split_and!; done.
  - auto.
Qed.



(** ** [loadDraftContent] *)





(** ** Sorting by a numeric key *)

Section SortBy.
Context {A : Type} (key : A → Z).

Lemma insert_by_Permutation x l : insert_by key x l ≡ₚ x :: l.
Proof.
  induction l as [|y l IH]; simpl; [done |].
  destruct (key x <=? key y); [done |].
  by rewrite IH, Permutation_swap.
Qed.

Lemma sort_by_Permutation l : sort_by key l ≡ₚ l.
Proof.
  induction l as [|x l IH]; simpl; [done |].
  by rewrite insert_by_Permutation, IH.
Qed.

Lemma insert_by_sorted x l :
  StronglySorted (key_le key) l → StronglySorted (key_le key) (insert_by key x l).
Proof.
  induction 1 as [|y l Hl IH Hy]; simpl.
  - repeat constructor.
  - destruct (Z.leb_spec (key x) (key y)).
    + constructor; [by constructor |]. constructor; [done |].
      eapply Forall_impl; [exact Hy |]. unfold key_le. intros; simpl in *; lia.
    + constructor; [done |].
      rewrite insert_by_Permutation. constructor; [unfold key_le; lia | done].
Qed.

Lemma sort_by_sorted l : StronglySorted (key_le key) (sort_by key l).
Proof.
  induction l as [|x l IH]; simpl; [constructor | by apply insert_by_sorted].
Qed.

(** A sorted array is left as it is: the sort is stable. *)
Lemma sort_by_id l : StronglySorted (key_le key) l → sort_by key l = l.
Proof.
  induction 1 as [|x l Hl IH Hx]; simpl; [done |].
  rewrite IH. destruct l as [|y l]; simpl; [done |].
  apply Forall_cons in Hx as [Hxy _]. unfold key_le in Hxy.
  destruct (Z.leb_spec (key x) (key y)); [done | lia].
Qed.

Lemma sort_by_idem l : sort_by key (sort_by key l) = sort_by key l.
Proof. apply sort_by_id, sort_by_sorted. Qed.

(** The last element of a sorted array has the greatest key. *)
Lemma sorted_last_max l m :
  StronglySorted (key_le key) l → last l = Some m → ∀ x, x ∈ l → key x ≤ key m.
Proof.
  induction 1 as [|y l Hl IH Hy]; [done |].
  intros Hlast x Hx. destruct l as [|z l].
  - simpl in Hlast. simplify_eq. apply list_elem_of_singleton in Hx as ->. lia.
  - rewrite last_cons_cons in Hlast.
    apply elem_of_cons in Hx as [-> | Hx]; [| by apply IH].
    transitivity (key z).
    + apply Forall_cons in Hy as [Hyz _]. exact Hyz.
    + apply IH; [done | left].
Qed.

Lemma sort_by_nil l : sort_by key l = [] ↔ l = [].
Proof.
  split; [| by intros ->].
  intros Hs. pose proof (sort_by_Permutation l) as Hp. rewrite Hs in Hp.
  by apply Permutation_nil_l in Hp.
Qed.

Lemma elem_of_sort_by x l : x ∈ sort_by key l ↔ x ∈ l.
Proof. by rewrite sort_by_Permutation. Qed.
End SortBy.

(** ** Reconciliation with the index *)

Lemma some_has_version n (l : list DraftVersion) :
  some (has_version n) l = true ↔ ∃ r, r ∈ l ∧ dv_version r = n.
Proof.
  unfold some, has_version. rewrite existsb_exists. split.
  - intros (r & Hr%list_elem_of_In & Heq%Z.eqb_eq). eauto.
  - intros (r & Hr%list_elem_of_In & Heq%Z.eqb_eq). eauto.
Qed.

(** What the loop adds is a list of records synthesized from discovered
    versions whose numbers the local array lacked, put after the local
    records; afterwards every discovered number is present. *)
Lemma add_missing_spec (found : list CascadeVersion) : ∀ local : list DraftVersion,
  ∃ added,
    add_missing local found = local ++ added
    ∧ (∀ r, r ∈ added → ∃ v, v ∈ found ∧ r = synced_version v)
    ∧ (∀ v, v ∈ found → ∃ r, r ∈ local ++ added ∧ dv_version r = cv_version v)
    ∧ (∀ v, v ∈ found → (∀ r, r ∈ local → dv_version r ≠ cv_version v) →
         ∃ v', v' ∈ found ∧ cv_version v' = cv_version v ∧ synced_version v' ∈ added).
Proof.
  induction found as [|v rest IH]; intros local; simpl.
  - exists []. rewrite app_nil_r. split_and!; [done | | |]; intros ? []%elem_of_nil.
  - destruct (some (has_version (cv_version v)) local) eqn:Hex.
    + destruct (IH local) as (added & Heq & Hfrom & Hall & Hnew).
      exists added. split_and!; [done | | |].
      * intros r Hr. destruct (Hfrom r Hr) as (v' & ? & ?). exists v'. split; [by right | done].
      * intros v' [-> | Hv']%elem_of_cons; [| by apply Hall].
        apply some_has_version in Hex as (r & Hr & Hrv). exists r.
        split; [apply elem_of_app; by left | done].
      * intros v' [-> | Hv']%elem_of_cons Hlacks.
        -- apply some_has_version in Hex as (r & Hr & Hrv). by destruct (Hlacks r Hr).
        -- destruct (Hnew v' Hv' Hlacks) as (v'' & ? & ? & ?).
           exists v''. split; [by right | done].
    + destruct (IH (local ++ [synced_version v])) as (added & Heq & Hfrom & Hall & Hnew).
      exists (synced_version v :: added). rewrite Heq, <- app_assoc. simpl.
      split_and!; [done | | |].
      * intros r [-> | Hr]%elem_of_cons; [exists v; split; [left | done] |].
        destruct (Hfrom r Hr) as (v' & ? & ?). exists v'. split; [by right | done].
      * intros v' [-> | Hv']%elem_of_cons.
        -- exists (synced_version v). split; [| done].
           apply elem_of_app. right. left.
        -- destruct (Hall v' Hv') as (r & Hr & ?). exists r. split; [| done].
           by rewrite <- app_assoc in Hr.
      * intros v' Hv' Hlacks.
        destruct (decide (cv_version v' = cv_version v)) as [Hsame | Hdiff].
        { exists v. split_and!; [left | done | left]. }
        apply elem_of_cons in Hv' as [-> | Hv']; [done |].
        destruct (Hnew v' Hv') as (v'' & ? & ? & ?).
        { intros r [Hr | ->%list_elem_of_singleton]%elem_of_app; [by apply Hlacks |].
          simpl. congruence. }
        exists v''. split_and!; [by right | done | by right].
Qed.

Lemma fetchUserDrafts_sync_world h id found w i local :
  find_draft id (drafts w) = Some (i, local) →
  (fetchUserDrafts_sync h id found w).2 =
  if newer_on_cascade local found
  then (saveDraft (synced_draft (Date_now h) local found) w).2
  else w.
Proof.
  intros Hfind. unfold fetchUserDrafts_sync, newer_on_cascade, synced_draft, versions_of.
  unfold bind at 1, getDraft. rewrite Hfind. simpl.
  destruct (last_elem (sort_by cv_version found)) as [latest|]; [| done].
  by destruct (_ <? _).
Qed.

Lemma fetchInvitedDrafts_sync_world h draft found w :
  (fetchInvitedDrafts_sync h draft found w).2 =
  if newer_on_cascade draft found
  then (saveDraft (synced_draft (Date_now h) draft found) w).2
  else w.
Proof.
  unfold fetchInvitedDrafts_sync, newer_on_cascade, synced_draft.
  case_bool_decide as Hlen.
  - destruct (last_elem (sort_by cv_version found)) as [latest|]; [| done].
    by destruct (_ <? _).
  - destruct found; [done | simpl in Hlen; lia].
Qed.

Lemma num_or_Some n : num_or (Some n) 0 = n.
Proof. unfold num_or. destruct (Z.eqb_spec n 0); congruence. Qed.

Lemma synced_draft_reconciled now local found :
  reconciled found local (synced_draft now local found).
Proof.
  unfold reconciled, synced_draft. simpl.
  destruct (add_missing_spec (sort_by cv_version found) (versions local))
    as (added & -> & Hfrom & Hall & Hnew).
  split_and!.
  - intros v Hv. destruct (Hall v) as (r & Hr & ?); [by apply elem_of_sort_by |].
    exists r. split; [by apply elem_of_sort_by | done].
  - intros v Hv Hlacks.
    destruct (Hnew v) as (v' & Hv' & ? & Hin); [by apply elem_of_sort_by | done |].
    exists v'. split_and!; [by apply elem_of_sort_by in Hv' | done |].
    apply elem_of_sort_by, elem_of_app. by right.
  - rewrite sort_by_Permutation. by apply submseteq_inserts_r.
  - intros r [Hr | Hr]%elem_of_sort_by%elem_of_app; [by left | right].
    destruct (Hfrom r Hr) as (v & Hv%elem_of_sort_by & ?). eauto.
  - apply sort_by_sorted.
  - by destruct local.
Qed.

Lemma last_sort_by_in {A} (key : A → Z) l m :
  last_elem (sort_by key l) = Some m → m ∈ l ∧ ∀ x, x ∈ l → key x ≤ key m.
Proof.
  intros Hlast. split.
  - apply (elem_of_sort_by key). unfold last_elem in Hlast.
    apply last_Some in Hlast as [l' ->]. apply elem_of_app. right. left.
  - intros x Hx. eapply sorted_last_max; [apply sort_by_sorted | exact Hlast |].
    by apply elem_of_sort_by.
Qed.

Lemma not_newer_no_new_number local found found2 :
  newer_on_cascade local found = false → no_new_number found2 found →
  newer_on_cascade local found2 = false.
Proof.
  unfold newer_on_cascade. intros Hold Hsub.
  destruct (last_elem (sort_by cv_version found2)) as [latest2|] eqn:H2; [| done].
  apply last_sort_by_in in H2 as [Hin2 _].
  destruct (Hsub _ Hin2) as (v' & Hv' & Heq).
  destruct (last_elem (sort_by cv_version found)) as [latest|] eqn:H1.
  - apply last_sort_by_in in H1 as [_ Hmax]. specialize (Hmax _ Hv').
    apply Z.ltb_ge in Hold. apply Z.ltb_ge. lia.
  - unfold last_elem in H1. apply last_None, sort_by_nil in H1. subst.
    by apply elem_of_nil in Hv'.
Qed.

Lemma not_newer_after_sync now local found found2 :
  no_new_number found2 found →
  newer_on_cascade (synced_draft now local found) found2 = false.
Proof.
  intros Hsub. unfold newer_on_cascade.
  destruct (last_elem (sort_by cv_version found2)) as [latest2|] eqn:H2; [| done].
  apply last_sort_by_in in H2 as [Hin2 _].
  destruct (Hsub _ Hin2) as (v' & Hv' & Heq).
  destruct (synced_draft_reconciled now local found) as (Hall & _ & _ & _ & Hsorted & _).
  destruct (Hall _ Hv') as (r & Hr & Hrv).
  destruct (last_elem (versions (synced_draft now local found))) as [m|] eqn:Hm.
  - change (dv_version <$> Some m) with (Some (dv_version m)).
    rewrite num_or_Some. apply Z.ltb_ge.
    pose proof (sorted_last_max dv_version _ _ Hsorted Hm r Hr). lia.
  - unfold last_elem in Hm. apply last_None in Hm. rewrite Hm in Hr.
    by apply elem_of_nil in Hr.
Qed.

Lemma sync_world_find now local found w i :
  find_draft (draftId local) (drafts w) = Some (i, local) →
  find_draft (draftId local) (drafts (sync_world now local found w)) =
  Some (i, if newer_on_cascade local found
           then synced_draft now local found else local).
Proof.
  intros Hfind. unfold sync_world. destruct (newer_on_cascade local found); [| done].
  rewrite saveDraft_run. simpl. rewrite Hfind. by eapply find_draft_insert.
Qed.

(** C2, as the code has it. For a draft [local] of the local store and the
    versions [found] discovered for its [draftId], through the sync of
    [fetchUserDrafts] as through that of [fetchInvitedDrafts]: when the
    highest discovered number exceeds the number of the draft's last local
    record, the stored draft becomes [local] reconciled with [found]
    (every discovered number present, the missing ones as records
    synthesized from the discovered versions, every local record kept, the
    list sorted by version number); otherwise the world is left as it was.
    A second sync, with versions of no new number, changes nothing. *)
Theorem versions_reconciled (h : Host) (found : list CascadeVersion)
    (w w' : World) (i : nat) (local : Draft) :
  find_draft (draftId local) (drafts w) = Some (i, local) →
  w' = (fetchUserDrafts_sync h (draftId local) found w).2
  ∨ w' = (fetchInvitedDrafts_sync h local found w).2 →
  (if newer_on_cascade local found
   then ∃ local', find_draft (draftId local) (drafts w') = Some (i, local')
                  ∧ reconciled found local local'
   else w' = w)
  ∧ ∀ h2 found2 local',
      no_new_number found2 found →
      find_draft (draftId local) (drafts w') = Some (i, local') →
      (fetchUserDrafts_sync h2 (draftId local) found2 w').2 = w'
      ∧ (fetchInvitedDrafts_sync h2 local' found2 w').2 = w'.
Proof.
  intros Hfind Hw'.
  assert (w' = sync_world (Date_now h) local found w) as ->.
  { destruct Hw' as [-> | ->];
      [by erewrite fetchUserDrafts_sync_world | by rewrite fetchInvitedDrafts_sync_world]. }
  pose proof (sync_world_find (Date_now h) local found w i Hfind) as Hfind'.
  split.
  - unfold sync_world in *. destruct (newer_on_cascade local found); [| done].
    eexists. split; [exact Hfind' |]. apply synced_draft_reconciled.
  - intros h2 found2 local' Hsub Hl'. rewrite Hfind' in Hl'. simplify_eq.
    assert (newer_on_cascade
              (if newer_on_cascade local found
               then synced_draft (Date_now h) local found else local) found2 = false)
      as Hnot.
    { destruct (newer_on_cascade local found) eqn:Hnew;
        [by apply not_newer_after_sync | by eapply not_newer_no_new_number]. }
    split.
    + erewrite fetchUserDrafts_sync_world; [| exact Hfind']. by rewrite Hnot.
    + by rewrite fetchInvitedDrafts_sync_world, Hnot.
Qed.

(** ** Concurrent key derivation *)

Section InterleavingFacts.
Context `{Sodium}.
Variable h : Host.

(** While a derivation is in flight, a call returns its promise and changes
    nothing. *)
Lemma calls_in_flight n s p :
  s_cachedDerivedKey s = None →
  s_keyDerivationPromise s = Some p →
  calls h n s = (replicate n (Awaits p), s).
Proof.
  intros Hc Hp. induction n as [|n IH]; simpl; [done |].
  unfold getOrDeriveDerivedKey_call. rewrite Hc, Hp, IH. done.
Qed.

(** The first call of a fresh session starts the derivation; the others
    find it in flight. *)
Lemma calls_fresh n s :
  s_cachedDerivedKey s = None →
  s_keyDerivationPromise s = None →
  signMessage_starts h = None →
  calls h (S n) s =
  (replicate (S n) (Awaits (length (s_promises s))),
   {| s_cachedDerivedKey := None;
      s_keyDerivationPromise := Some (length (s_promises s));
      s_promises := s_promises s ++ [Pending];
      s_signRequests :=
        s_signRequests s ++ [(length (s_promises s), DERIVED_KEY_MESSAGE)] |}).
Proof.
  intros Hc Hp Hstart. simpl. unfold getOrDeriveDerivedKey_call.
  rewrite Hc, Hp, Hstart.
  by rewrite (calls_in_flight n _ (length (s_promises s))).
Qed.

Lemma wallet_answers_pending p answer s :
  s_promises s !! p = Some Pending →
  s_signRequests (wallet_answers h p answer s) = s_signRequests s
  ∧ awaited (wallet_answers h p answer s) (Awaits p) = Some (settled h answer).
Proof.
  intros Hp. unfold wallet_answers, settled. rewrite Hp.
  pose proof (lookup_lt_Some _ _ _ Hp) as Hlt.
  destruct (rbind answer _) as [key|reason]; simpl;
    by rewrite list_lookup_insert_eq.
Qed.

(** C9. From a session with no key cached and no derivation in flight, and
    a wallet that takes the request: [n ≥ 1] calls of [getOrDeriveDerivedKey]
    issued before anything settles send exactly one signature request, and
    every caller holds the same pending promise; when the wallet answers,
    no further request is sent and all [n] callers receive the same outcome,
    which for a signature is the key derived from it. *)
Theorem concurrent_calls_one_signature (n : nat) (s : Session) :
  (1 ≤ n)%nat →
  s_cachedDerivedKey s = None →
  s_keyDerivationPromise s = None →
  signMessage_starts h = None →
  ∃ p,
    (calls h n s).1 = replicate n (Awaits p)
    ∧ s_signRequests (calls h n s).2 = s_signRequests s ++ [(p, DERIVED_KEY_MESSAGE)]
    ∧ awaited (calls h n s).2 (Awaits p) = None
    ∧ ∀ answer,
        let s' := wallet_answers h p answer (calls h n s).2 in
        s_signRequests s' = s_signRequests (calls h n s).2
        ∧ (∀ r, r ∈ (calls h n s).1 → awaited s' r = Some (settled h answer))
        ∧ ∀ signature, answer = Ok signature → sodiumReady h = true →
            settled h answer = Ok (crypto_generichash crypto_secretbox_KEYBYTES signature).
Proof.
  intros Hn Hc Hp Hstart. destruct n as [|n]; [lia |].
  exists (length (s_promises s)). rewrite calls_fresh by done.
  cbn [fst snd s_signRequests].
  assert ((s_promises s ++ [Pending]) !! length (s_promises s) = Some Pending) as Hpend.
  { by rewrite lookup_app_r, Nat.sub_diag by lia. }
  split_and!; [done | done | by (simpl; rewrite Hpend) |].
  intros answer. cbv zeta.
  match goal with |- context [wallet_answers h ?p answer ?s1] =>
    destruct (wallet_answers_pending p answer s1 Hpend) as [Hreq Haw] end.
  split_and!; [done | |].
  - intros r [-> | Hr%elem_of_replicate]%elem_of_cons; [exact Haw |].
    destruct Hr as [-> _]. exact Haw.
  - intros signature -> Hready. unfold settled, deriveKeyFromSignature.
    by rewrite Hready.
Qed.
End InterleavingFacts.

(** ** The status of a draft across the operations *)

Lemma drafts_saveDraft d w : drafts (saveDraft d w).2 = save_into d (drafts w).
Proof. rewrite saveDraft_run. unfold save_into. by destruct (find_draft _ _) as [[??]|]. Qed.

Lemma status_in_save_into id d ds :
  status_in id (save_into d ds) =
  if decide (id = draftId d) then Some (status d) else status_in id ds.
Proof.
  unfold status_in, save_into.
  destruct (find_draft (draftId d) ds) as [[i d0]|] eqn:Hfind; case_decide as Hid; subst.
  - by erewrite find_draft_insert.
  - by erewrite find_draft_insert_ne.
  - by erewrite find_draft_app_here.
  - by erewrite find_draft_app_new.
Qed.

(** Writing back a draft under the status it is stored with changes no
    status. *)
Lemma status_in_save_same d ds id :
  status_in (draftId d) ds = Some (status d) →
  status_in id (save_into d ds) = status_in id ds.
Proof.
  intros Hsame. rewrite status_in_save_into. case_decide; by subst.
Qed.

Lemma find_draft_filter_ne id id0 ds :
  id ≠ id0 →
  snd <$> find_draft id (filter (λ d, draftId d ≠ id0) ds) = snd <$> find_draft id ds.
Proof.
  intros Hne. unfold find_draft. induction ds as [|d ds IH]; [done |].
  rewrite filter_cons. destruct (decide (draftId d ≠ id0)) as [Hd | Hd].
  - cbn [list_find]. destruct (decide (draftId d = id)); [done |].
    destruct (list_find _ (filter _ ds)) as [[??]|];
      destruct (list_find _ ds) as [[??]|]; simpl in *; congruence.
  - apply dec_stable in Hd. cbn [list_find].
    rewrite decide_False by congruence. rewrite IH.
    by destruct (list_find _ ds) as [[??]|].
Qed.


Lemma ids_save_into d ds :
  draftId <$> save_into d ds = draftId <$> ds
  ∨ (draftId <$> save_into d ds = (draftId <$> ds) ++ [draftId d]
     ∧ draftId d ∉ draftId <$> ds).
Proof.
  unfold save_into. destruct (find_draft (draftId d) ds) as [[i d0]|] eqn:Hfind.
  - left. apply find_draft_Some in Hfind as [Hi Hid].
    rewrite list_fmap_insert. apply list_insert_id. by rewrite list_lookup_fmap, Hi, <- Hid.
  - right. split; [by rewrite fmap_app |].
    apply list_find_None in Hfind. intros (d' & Heq & Hin)%list_elem_of_fmap.
    rewrite Forall_forall in Hfind. by apply (Hfind d').
Qed.

Lemma ids_unique_save_into d ds : ids_unique ds → ids_unique (save_into d ds).
Proof.
  unfold ids_unique. intros Hu.
  destruct (ids_save_into d ds) as [-> | [-> Hnew]]; [done |].
  apply NoDup_app. split_and!; [done | | apply NoDup_singleton].
  intros x Hx ->%list_elem_of_singleton. done.
Qed.

Lemma ids_unique_filter id ds :
  ids_unique ds → ids_unique (filter (λ d, draftId d ≠ id) ds).
Proof.
  unfold ids_unique. induction ds as [|d ds IH]; [done |].
  rewrite fmap_cons, NoDup_cons. intros [Hd Hu]. rewrite filter_cons.
  case_decide; [| by apply IH]. rewrite fmap_cons, NoDup_cons. split; [| by apply IH].
  intros (d' & Heq & Hin%list_elem_of_filter)%list_elem_of_fmap.
  apply Hd, list_elem_of_fmap. exists d'. by destruct Hin.
Qed.

(** In a store with unique ids, a stored draft is the one its id finds. *)
Lemma status_in_elem d ds :
  ids_unique ds → d ∈ ds → status_in (draftId d) ds = Some (status d).
Proof.
  unfold ids_unique, status_in, find_draft.
  induction ds as [|x ds IH]; intros Hu Hin; [by apply elem_of_nil in Hin |].
  rewrite fmap_cons, NoDup_cons in Hu. destruct Hu as [Hx Hu]. simpl.
  apply elem_of_cons in Hin as [-> | Hin]; [by rewrite decide_True |].
  rewrite decide_False.
  - specialize (IH Hu Hin). by destruct (list_find _ ds) as [[??]|].
  - intros Heq. apply Hx, list_elem_of_fmap. by exists d.
Qed.

(** *** At most one write *)

Lemma keeps_stores_drafts {A} (c : M A) : keeps_stores c → keeps_drafts c.
Proof. intros Hc w. apply Hc. Qed.

Lemma writes_once_keeps {A} (c : M A) Q w : keeps_drafts c → writes_once c Q w.
Proof. intros Hc. left. apply Hc. Qed.

Lemma writes_once_bind {A B} (c : M A) (k : A → M B) Q w :
  keeps_drafts c →
  (∀ a w1, c w = (Ok a, w1) → writes_once (k a) Q w1) →
  writes_once (bind c k) Q w.
Proof.
  intros Hc Hk. unfold writes_once, bind. specialize (Hc w).
  destruct (c w) as [[a|e] w1] eqn:Hrun; simpl in *; [| by left].
  rewrite <- Hc. by apply Hk.
Qed.

Lemma writes_once_save {B} d (k : unit → M B) (Q : Result B → Draft → Prop) w :
  (∀ w1, drafts (k tt w1).2 = drafts w1 ∧ Q (k tt w1).1 d) →
  writes_once (bind (saveDraft d) k) Q w.
Proof.
  intros Hk. right. exists d. unfold bind. rewrite saveDraft_run.
  match goal with |- context [k tt ?w1] => destruct (Hk w1) as [Hd HQ] end.
  split; [done |]. rewrite Hd. simpl. unfold save_into.
  by destruct (find_draft _ _) as [[??]|].
Qed.

Lemma writes_once_try {A} (body : M A) handler (Q : Draft → Prop) w :
  writes_once body (λ _, Q) w →
  (∀ e, keeps_drafts (handler e)) →
  writes_once (try_catchM body handler) (λ _, Q) w.
Proof.
  intros Hb Hh. unfold writes_once, try_catchM in *.
  destruct (body w) as [[a|e] w1]; simpl in *; [done |]. by rewrite !Hh.
Qed.

Lemma keeps_drafts_bind {A B} (c : M A) (k : A → M B) :
  keeps_drafts c → (∀ a, keeps_drafts (k a)) → keeps_drafts (bind c k).
Proof.
  intros Hc Hk w. unfold bind. specialize (Hc w).
  destruct (c w) as [[a|e] w1]; simpl in *; [| done]. by rewrite Hk.
Qed.

Lemma keeps_drafts_upload h file : keeps_drafts (upload h file).
Proof. intros w. unfold upload. by destruct (uploadFile h file). Qed.

Lemma keeps_drafts_uploadCollaborationInvitation h d c :
  keeps_drafts (uploadCollaborationInvitation h d c).
Proof.
  intros w. destruct (uploadCollaborationInvitation h d c w) as [r w'] eqn:Hrun.
  by apply uploadCollaborationInvitation_run in Hrun as [? _].
Qed.

Lemma same_status_found id ds i d d' :
  find_draft id ds = Some (i, d) → draftId d' = draftId d → status d' = status d →
  same_status ds d'.
Proof.
  intros Hfind Hid Hst. unfold same_status, status_in.
  destruct (find_draft_Some _ _ _ _ Hfind) as [_ <-].
  by rewrite Hid, Hfind, Hst.
Qed.

Section Effects.
Context `{Sodium} `{Json}.
Variable h : Host.

Lemma createDraft_writes title content metadata w :
  writes_once (createDraft h title content metadata)
    (λ _ d, draftId d = generateDraftId (randombytes_buf h 2 8)
            ∧ status d = status_draft) w.
Proof.
  unfold createDraft.
  apply writes_once_bind; [apply keeps_stores_drafts, keeps_stores_require_client |].
  intros [] w1 _.
  apply writes_once_bind; [apply keeps_stores_drafts, keeps_stores_require_address |].
  intros owner w2 _.
  apply writes_once_bind; [apply keeps_stores_drafts, keeps_stores_lift |].
  intros documentKey w3 _.
  apply writes_once_bind; [apply keeps_stores_drafts, keeps_stores_lift |].
  intros encrypted w4 _.
  apply writes_once_bind;
    [apply keeps_stores_drafts, keeps_stores_getOrDeriveDerivedKey |].
  intros derivedKey w5 _.
  apply writes_once_bind; [apply keeps_stores_drafts, keeps_stores_lift |].
  intros ownerKeyShare w6 _.
  apply writes_once_bind; [apply keeps_drafts_upload |].
  intros uploadResult w7 _.
  apply writes_once_save. intros w8. done.
Qed.

Lemma saveDraftVersion_writes draftId content message w :
  writes_once (saveDraftVersion h draftId content message)
    (λ _, same_status (drafts w)) w.
Proof.
  unfold saveDraftVersion.
  apply writes_once_bind; [apply keeps_stores_drafts, keeps_stores_require_client |].
  intros [] w1 Hc. apply require_client_Ok in Hc as [_ ->].
  apply writes_once_bind; [done |].
  intros found w2 Hc. unfold getDraft in Hc. simplify_eq.
  destruct (find_draft draftId (drafts w2)) as [[i draft]|] eqn:Hfind;
    [| by apply writes_once_keeps].
  simpl.
  apply writes_once_bind; [apply keeps_stores_drafts, keeps_stores_require_address |].
  intros owner w3 Hc. apply require_address_Ok in Hc as (_ & _ & ->).
  apply writes_once_bind; [apply keeps_stores_drafts, keeps_stores_getDocumentKey |].
  intros documentKey w4 Hc.
  apply (keeps_stores_run _ _ _ _ (keeps_stores_getDocumentKey h draft)) in Hc as [Hd _].
  apply writes_once_bind; [apply keeps_stores_drafts, keeps_stores_lift |].
  intros encrypted w5 Hc. rewrite lift_run in Hc. simplify_eq.
  destruct (last_elem (versions draft)); [| by apply writes_once_keeps].
  apply writes_once_bind; [apply keeps_drafts_upload |].
  intros uploadResult w6 _.
  apply writes_once_save. intros w7. split; [done |].
  by eapply same_status_found.
Qed.

Lemma loadDraftContent_keeps draftId versionIndex :
  keeps_drafts (loadDraftContent h draftId versionIndex).
Proof.
  unfold loadDraftContent.
  apply keeps_drafts_bind; [apply keeps_stores_drafts, keeps_stores_require_client |].
  intros _. apply keeps_drafts_bind; [done |]. intros [draft|]; [| done].
  destruct (match versionIndex with Some _ => _ | None => _ end); [| done].
  apply keeps_drafts_bind; [done |]. intros text.
  destruct (parseEncryptedDraftManifest text); [| done].
  destruct (negb _); [done |].
  apply keeps_drafts_bind; [apply keeps_stores_drafts, keeps_stores_getDocumentKey |].
  intros documentKey. apply keeps_drafts_bind; [done |]. intros encrypted.
  apply keeps_drafts_bind; [done |]. done.
Qed.

Lemma addCollaborator_writes id cw cn w :
  writes_once (addCollaborator h id cw cn)
    (λ r d, (∃ res, r = Ok res) ∧ draftId d = id
            ∧ status d = status_shared) w.
Proof.
  unfold addCollaborator.
  apply writes_once_bind; [done |].
  intros found w2 Hc. unfold getDraft in Hc. simplify_eq.
  destruct (find_draft id (drafts w2)) as [[i draft]|] eqn:Hfind;
    [| by apply writes_once_keeps].
  simpl. destruct (find_draft_Some _ _ _ _ Hfind) as [_ Hid].
  apply writes_once_bind; [apply keeps_stores_drafts, keeps_stores_require_address |].
  intros owner w3 _.
  destruct (negb _); [by apply writes_once_keeps |].
  destruct (some _ _); [by apply writes_once_keeps |].
  apply writes_once_bind; [apply keeps_stores_drafts, keeps_stores_getDocumentKey |].
  intros documentKey w4 _.
  apply writes_once_save. intros w5. unfold bind, try_catchM.
  match goal with |- context [uploadCollaborationInvitation h ?d ?c w5] =>
    pose proof (keeps_drafts_uploadCollaborationInvitation h d c w5) as Hk;
    destruct (uploadCollaborationInvitation h d c w5) as [[invitationId|e] w6] end;
    simpl in *; (split; [done |]); split; eauto.
Qed.
End Effects.

Lemma writes_once_mono {A} (c : M A) (Q Q' : Result A → Draft → Prop) w :
  (∀ r d, Q r d → Q' r d) → writes_once c Q w → writes_once c Q' w.
Proof. intros HQ [Hk | (d & Hd & Heq)]; [by left | right; eauto]. Qed.

Lemma writes_once_then {A B} (c : M A) (k : A → M B) (Q : Draft → Prop) w :
  writes_once c (λ _, Q) w → (∀ a, keeps_drafts (k a)) →
  writes_once (bind c k) (λ _, Q) w.
Proof.
  intros Hc Hk. unfold writes_once, bind in *.
  destruct (c w) as [[a|e] w1]; simpl in *; [| done]. by rewrite !Hk.
Qed.

Section MoreEffects.
Context `{Sodium} `{Json}.
Variable h : Host.

Lemma importDraftFromCascade_writes draftId wallet documentKeyBase64 w :
  writes_once (importDraftFromCascade h draftId wallet documentKeyBase64)
    (λ _ d, status d = status_shared
            ∧ imported_id h wallet draftId = Some (draftId_of d)) w.
Proof.
  unfold importDraftFromCascade. apply writes_once_try; [| done].
  apply writes_once_bind; [apply keeps_stores_drafts, keeps_stores_require_client |].
  intros [] w1 _. unfold imported_id.
  destruct (find _ _) as [invitationAction|]; [| by apply writes_once_keeps].
  apply writes_once_bind; [done |]. intros text w2 Hc. rewrite lift_run in Hc.
  injection Hc as Hdl <-. rewrite Hdl. simpl.
  apply writes_once_bind; [done |]. intros invitation w3 Hc. rewrite lift_run in Hc.
  injection Hc as Hinv <-. rewrite Hinv.
  apply writes_once_bind;
    [apply keeps_stores_drafts, keeps_stores_getOrDeriveDerivedKey |].
  intros derivedKey w4 _.
  apply writes_once_bind; [done |]. intros documentKey w5 _.
  apply writes_once_bind; [done |]. intros keyShare w6 _.
  apply writes_once_save. intros w7. done.
Qed.

Lemma verifyInvitationOnCascade_keeps draftId wallet :
  keeps_drafts (verifyInvitationOnCascade h draftId wallet).
Proof. done. Qed.

Lemma processSecureShareLink_writes draftId documentKeyBase64 w :
  writes_once (processSecureShareLink h draftId documentKeyBase64)
    (λ _ d, same_status (drafts w) d
            ∨ (status d = status_shared
               ∧ find_draft draftId (drafts w) = None
               ∧ ∃ wallet, imported_id h wallet draftId = Some (draftId_of d))) w.
Proof.
  unfold processSecureShareLink.
  destruct (getConnectedAddress h) as [wallet|]; [| by apply writes_once_keeps].
  destruct (negb _); [by apply writes_once_keeps |].
  apply writes_once_bind; [done |].
  intros found w2 Hc. unfold getDraft in Hc. simplify_eq.
  destruct (find_draft draftId (drafts w2)) as [[i existingDraft]|] eqn:Hfind; simpl.
  - destruct (String.eqb _ _); [by apply writes_once_keeps |].
    destruct (list_find _ _) as [[j existingCollab]|]; [| by apply writes_once_keeps].
    destruct (str_truthy _); [by apply writes_once_keeps |].
    apply writes_once_bind;
      [apply keeps_stores_drafts, keeps_stores_getOrDeriveDerivedKey |].
    intros derivedKey w3 Hc.
    apply (keeps_stores_run _ _ _ _ (keeps_stores_getOrDeriveDerivedKey h)) in Hc as [Hd _].
    apply writes_once_bind; [done |]. intros documentKey w4 Hc.
    rewrite lift_run in Hc. injection Hc as _ <-.
    apply writes_once_bind; [done |]. intros keyShare w5 Hc.
    rewrite lift_run in Hc. injection Hc as _ <-.
    apply writes_once_save. intros w6. split; [done |]. left.
    by eapply same_status_found.
  - apply writes_once_try; [| done].
    apply writes_once_bind; [apply verifyInvitationOnCascade_keeps |].
    intros isInvited w3 Hc.
    assert (drafts w3 = drafts w2) as Hd.
    { pose proof (verifyInvitationOnCascade_keeps draftId wallet w2) as Hk.
      by rewrite Hc in Hk. }
    destruct (negb isInvited); [by apply writes_once_keeps |].
    apply writes_once_then; [| intros []; done].
    eapply writes_once_mono; [| apply importDraftFromCascade_writes].
    intros _ d [Hst Himp]. right. eauto.
Qed.

(** A sync writes the stored draft back with other versions: no status
    changes. *)
Lemma sync_world_status now local found w id :
  same_status (drafts w) local →
  status_of id (sync_world now local found w) = status_of id w.
Proof.
  intros Hsame. unfold sync_world, status_of.
  destruct (newer_on_cascade local found); [| done].
  rewrite drafts_saveDraft. by apply status_in_save_same.
Qed.

Lemma sync_world_ids now local found w :
  ids_unique (drafts w) → ids_unique (drafts (sync_world now local found w)).
Proof.
  intros Hu. unfold sync_world. destruct (newer_on_cascade local found); [| done].
  rewrite drafts_saveDraft. by apply ids_unique_save_into.
Qed.

Lemma fetchUserDrafts_sync_cases draftId found w :
  (fetchUserDrafts_sync h draftId found w).2 = w
  ∨ ∃ i local, find_draft draftId (drafts w) = Some (i, local)
      ∧ (fetchUserDrafts_sync h draftId found w).2
        = sync_world (Date_now h) local found w.
Proof.
  destruct (find_draft draftId (drafts w)) as [[i local]|] eqn:Hfind.
  - right. exists i, local. split; [done |]. by erewrite fetchUserDrafts_sync_world.
  - left. unfold fetchUserDrafts_sync, bind, getDraft. by rewrite Hfind.
Qed.

Lemma for_each_invariant {A} (I : World → Prop) (xs : list A) (body : A → M unit) :
  (∀ x w, x ∈ xs → I w → I (body x w).2) →
  ∀ w, I w → I (for_each xs body w).2.
Proof.
  induction xs as [|x xs IH]; intros Hbody w HI; [done |].
  simpl. unfold bind.
  pose proof (Hbody x w ltac:(left) HI) as HI1.
  destruct (body x w) as [[[]|e] w1]; simpl in *; [| done].
  apply IH; [| done]. intros y w2 Hy. apply Hbody. by right.
Qed.

Lemma try_catchM_ret_world {A} (c : M A) (a : A) w :
  (try_catchM c (λ _, ret a) w).2 = (c w).2.
Proof. unfold try_catchM. by destruct (c w) as [[?|?] ?]. Qed.

Lemma fetchUserDrafts_syncs_statuses draftMap w :
  same_statuses w (fetchUserDrafts_syncs h draftMap w).2.
Proof.
  unfold fetchUserDrafts_syncs. rewrite try_catchM_ret_world.
  apply (for_each_invariant (same_statuses w)); [| done].
  intros [id found] w1 _ [Hst Hu]. simpl.
  destruct (fetchUserDrafts_sync_cases id found w1) as [-> | (i & local & Hfind & ->)];
    [done |].
  split.
  - intros id'. rewrite sync_world_status; [done |].
    by eapply same_status_found.
  - intros Hu0. by apply sync_world_ids, Hu.
Qed.

Lemma fetchInvitedDrafts_syncs_statuses walletAddress found w :
  ids_unique (drafts w) →
  same_statuses w (fetchInvitedDrafts_syncs h walletAddress found w).2.
Proof.
  intros Hu0. unfold fetchInvitedDrafts_syncs, bind, getAllDrafts.
  rewrite try_catchM_ret_world.
  apply (for_each_invariant (same_statuses w)); [| done].
  intros draft w1 Hin [Hst Hu]. rewrite fetchInvitedDrafts_sync_world.
  fold (sync_world (Date_now h) draft (found (draftId draft)) w1).
  assert (same_status (drafts w1) draft) as Hsame.
  { unfold same_status. fold (status_of (draftId draft) w1). rewrite Hst.
    apply status_in_elem; [done |].
    apply list_elem_of_In, filter_In in Hin as [Hin _]. by apply list_elem_of_In. }
  split.
  - intros id'. by rewrite sync_world_status.
  - intros _. by apply sync_world_ids, Hu.
Qed.
End MoreEffects.

Lemma ignore_world {A} (c : M A) w : (ignore c w).2 = (c w).2.
Proof. unfold ignore, bind. by destruct (c w) as [[?|?] ?]. Qed.


Section StatusFacts.
Context `{Sodium} `{Json}.
Variable h : Host.




(** Unique ids are an invariant of the store. *)
Lemma exec_ids_unique op w :
  ids_unique (drafts w) → ids_unique (drafts (exec h op w).2).
Proof.
  intros Hu.
  destruct op as [t c md | i c msg | i v | i cw cn | i k | m | a f | i |]; simpl.
  - rewrite ignore_world.
    destruct (createDraft_writes h t c md w) as [-> | (d & _ & ->)];
      [done | by apply ids_unique_save_into].
  - rewrite ignore_world.
    destruct (saveDraftVersion_writes h i c msg w) as [-> | (d & _ & ->)];
      [done | by apply ids_unique_save_into].
  - by rewrite ignore_world, loadDraftContent_keeps.
  - rewrite ignore_world.
    destruct (addCollaborator_writes h i cw cn w) as [-> | (d & _ & ->)];
      [done | by apply ids_unique_save_into].
  - rewrite ignore_world.
    destruct (processSecureShareLink_writes h i k w) as [-> | (d & _ & ->)];
      [done | by apply ids_unique_save_into].
  - by apply (fetchUserDrafts_syncs_statuses h m w).
  - by apply (fetchInvitedDrafts_syncs_statuses h a f w Hu).
  - by apply ids_unique_filter.
  - done.
Qed.

End StatusFacts.

(** ** The two readings of [getOrDeriveDerivedKey] agree

    A call whose signature request is answered before anything else happens
    is the sequential [getOrDeriveDerivedKey]. *)

Lemma sequential_agrees `{Sodium} (h : Host) (s : Session) (w : World) :
  quiescent s →
  session_view s = (cachedDerivedKey w, keyDerivationPromise w) →
  awaited (call_and_settle h s).2 (call_and_settle h s).1
    = Some (getOrDeriveDerivedKey h w).1
  ∧ session_view (call_and_settle h s).2
    = (cachedDerivedKey (getOrDeriveDerivedKey h w).2,
       keyDerivationPromise (getOrDeriveDerivedKey h w).2)
  ∧ (length (s_signRequests (call_and_settle h s).2) + signaturePrompts w
     = length (s_signRequests s) + signaturePrompts (getOrDeriveDerivedKey h w).2)%nat.
Proof.
  intros Hq [Hcache Hprom]%pair_equal_spec.
  unfold call_and_settle, getOrDeriveDerivedKey_call, getOrDeriveDerivedKey, session_view in *.
  destruct w as [wcache wpromise wdrafts wcascade wprompts]. simpl in *. subst.
  destruct (s_cachedDerivedKey s) as [key|] eqn:Hc; simpl.
  { by rewrite Hc. }
  unfold quiescent in Hq.
  destruct (s_keyDerivationPromise s) as [p|] eqn:Hp.
  { destruct Hq as [reason Hrej]. rewrite Hrej.
    unfold wallet_answers. rewrite Hrej. simpl. by rewrite Hc, Hp, Hrej. }
  assert (∀ x, (s_promises s ++ [x]) !! length (s_promises s) = Some x) as Hlast.
  { intros x. by rewrite lookup_app_r, Nat.sub_diag by lia. }
  unfold signMessage_starts, wallet_answer, bind, signMessage.
  destruct (keplr h) as [signArbitrary|].
  2: { unfold wallet_answers. simpl. rewrite !Hlast. simpl. by rewrite Hlast. }
  destruct (getConnectedAddress h) as [a|].
  2: { unfold wallet_answers. simpl. rewrite !Hlast. simpl. by rewrite Hlast. }
  destruct (str_truthy a).
  2: { unfold wallet_answers. simpl. rewrite !Hlast. simpl. by rewrite Hlast. }
  unfold wallet_answers. simpl. rewrite Hlast.
  destruct (signArbitrary a DERIVED_KEY_MESSAGE) as [signature|reason]; simpl.
  - destruct (deriveKeyFromSignature (sodiumReady h) signature) as [key|reason]; simpl;
      rewrite ?list_lookup_insert_eq by (rewrite length_app; simpl; lia);
      rewrite ?length_app; simpl; split_and!; try done; lia.
  - rewrite ?list_lookup_insert_eq by (rewrite length_app; simpl; lia).
    rewrite ?length_app; simpl; split_and!; try done; lia.
Qed.

(** * Further properties of the module *)

(** ** Key derivation, call after call *)

Lemma signMessage_cache h msg w :
  cachedDerivedKey (signMessage h msg w).2 = cachedDerivedKey w
  ∧ keyDerivationPromise (signMessage h msg w).2 = keyDerivationPromise w
  ∧ (signaturePrompts (signMessage h msg w).2 ≤ S (signaturePrompts w))%nat.
Proof.
  unfold signMessage. destruct (keplr h); [| auto].
  destruct (getConnectedAddress h); [| auto].
  destruct (str_truthy _); simpl; auto.
Qed.

(** How a call leaves the two module variables. *)
Lemma getOrDeriveDerivedKey_final `{Sodium} (h : Host) (w : World) :
  match (getOrDeriveDerivedKey h w).1 with
  | Ok key => cachedDerivedKey (getOrDeriveDerivedKey h w).2 = Some key
  | Err reason =>
      cachedDerivedKey (getOrDeriveDerivedKey h w).2 = None
      ∧ keyDerivationPromise (getOrDeriveDerivedKey h w).2 = Some reason
  end.
Proof.
  unfold getOrDeriveDerivedKey.
  destruct (cachedDerivedKey w) as [key|] eqn:Hc; [done |].
  destruct (keyDerivationPromise w) as [reason|] eqn:Hp; [done |].
  unfold bind.
  destruct (signMessage_cache h DERIVED_KEY_MESSAGE w) as (Hc1 & Hp1 & _).
  destruct (signMessage h DERIVED_KEY_MESSAGE w) as [[signature|reason] w1];
    simpl in *; [| by rewrite Hc1].
  unfold lift.
  destruct (deriveKeyFromSignature (sodiumReady h) signature) as [key|reason];
    simpl; [done | by rewrite Hc1].
Qed.

(** X1. The outcome of a call of [getOrDeriveDerivedKey], a key or a
    failure, is the outcome of every later call, for whatever wallet is then
    connected, and a later call changes nothing (it sends no signature
    request): a key is cached, and the promise of a derivation that failed
    stays in [keyDerivationPromise]. One call asks the wallet at most once.
    After [clearDerivedKey], a wallet that signs is asked again and its key
    is derived. *)
Theorem derivation_outcome_is_final `{Sodium} (h : Host) (w : World) :
  (∀ h', getOrDeriveDerivedKey h' (getOrDeriveDerivedKey h w).2
         = getOrDeriveDerivedKey h w)
  ∧ (signaturePrompts (getOrDeriveDerivedKey h w).2 ≤ S (signaturePrompts w))%nat
  ∧ ∀ h' signArbitrary address signature,
      keplr h' = Some signArbitrary →
      getConnectedAddress h' = Some address →
      str_truthy address = true →
      signArbitrary address DERIVED_KEY_MESSAGE = Ok signature →
      sodiumReady h' = true →
      (getOrDeriveDerivedKey h' (clearDerivedKey (getOrDeriveDerivedKey h w).2).2).1
      = Ok (crypto_generichash crypto_secretbox_KEYBYTES signature)
      ∧ signaturePrompts
          (getOrDeriveDerivedKey h' (clearDerivedKey (getOrDeriveDerivedKey h w).2).2).2
        = S (signaturePrompts (getOrDeriveDerivedKey h w).2).
Proof.
  split_and!.
  - intros h'. pose proof (getOrDeriveDerivedKey_final h w) as Hfinal.
    destruct (getOrDeriveDerivedKey h w) as [[key|reason] w1]; simpl in *.
    + unfold getOrDeriveDerivedKey. by rewrite Hfinal.
    + destruct Hfinal as [Hc Hp]. unfold getOrDeriveDerivedKey. by rewrite Hc, Hp.
  - unfold getOrDeriveDerivedKey.
    destruct (cachedDerivedKey w); [simpl; lia |].
    destruct (keyDerivationPromise w); [simpl; lia |].
    unfold bind.
    destruct (signMessage_cache h DERIVED_KEY_MESSAGE w) as (_ & _ & Hn).
    destruct (signMessage h DERIVED_KEY_MESSAGE w) as [[signature|reason] w1];
      simpl in *; [| done].
    unfold lift. by destruct (deriveKeyFromSignature _ _).
  - intros h' signArbitrary address signature Hk Ha Ht Hs Hr.
    unfold clearDerivedKey, modify, getOrDeriveDerivedKey at 1 3. simpl.
    unfold bind, signMessage, lift. rewrite Hk, Ha, Ht, Hs.
    unfold deriveKeyFromSignature. rewrite Hr. done.
Qed.

(** ** The local store as a map from [draftId] to draft *)

Lemma find_draft_save_into id d ds :
  snd <$> find_draft id (save_into d ds) =
  if decide (id = draftId d) then Some d else snd <$> find_draft id ds.
Proof.
  unfold save_into.
  destruct (find_draft (draftId d) ds) as [[i d0]|] eqn:Hfind; case_decide as Hid; subst.
  - by erewrite find_draft_insert.
  - by erewrite find_draft_insert_ne.
  - by erewrite find_draft_app_here.
  - by erewrite find_draft_app_new.
Qed.

Lemma length_save_into d ds :
  length (save_into d ds) =
  if decide (is_Some (find_draft (draftId d) ds)) then length ds else S (length ds).
Proof.
  unfold save_into. destruct (find_draft (draftId d) ds) as [[i d0]|] eqn:Hfind.
  - rewrite decide_True by eauto. by rewrite length_insert.
  - rewrite decide_False by (by intros [? ?]). rewrite length_app. simpl. lia.
Qed.

(** X2. [saveDraft] followed by [getDraft]: the draft just saved is what
    its [draftId] finds, every other [draftId] finds what it found before,
    and the array grows by one element exactly when the [draftId] was not
    stored yet (a stored draft is replaced in place). *)
Theorem saveDraft_getDraft (draft : Draft) (id : string) (w : World) :
  (getDraft id (saveDraft draft w).2).1
  = (if decide (id = draftId draft) then Ok (Some draft) else (getDraft id w).1)
  ∧ length (drafts (saveDraft draft w).2)
    = (if decide (is_Some (find_draft (draftId draft) (drafts w)))
       then length (drafts w) else S (length (drafts w)))
  ∧ (saveDraft draft w).1 = Ok tt
  ∧ cascade (saveDraft draft w).2 = cascade w.
Proof.
  split_and!.
  - unfold getDraft. simpl. rewrite drafts_saveDraft, find_draft_save_into.
    by case_decide.
  - by rewrite drafts_saveDraft, length_save_into.
  - by rewrite saveDraft_run.
  - by rewrite saveDraft_run.
Qed.

Lemma filter_all {A} (P : A → Prop) `{∀ x, Decision (P x)} (l : list A) :
  Forall P l → filter P l = l.
Proof.
  induction 1 as [|x l Hx Hl IH]; [done |].
  rewrite filter_cons, decide_True by done. by rewrite IH.
Qed.

Lemma set_drafts_same w : set_drafts (drafts w) w = w.
Proof. by destruct w. Qed.

(** X3. [deleteDraft] followed by [getDraft]: the deleted [draftId] finds
    nothing (every record stored under it is gone), every other [draftId]
    finds what it found before; deleting twice is deleting once, and
    deleting a [draftId] that is not stored changes nothing. *)
Theorem deleteDraft_getDraft (id id' : string) (w : World) :
  (getDraft id' (deleteDraft id w).2).1
  = (if decide (id' = id) then Ok None else (getDraft id' w).1)
  ∧ (deleteDraft id (deleteDraft id w).2).2 = (deleteDraft id w).2
  ∧ (find_draft id (drafts w) = None → (deleteDraft id w).2 = w).
Proof.
  split_and!.
  - unfold getDraft, deleteDraft. simpl. case_decide as Hid.
    + subst. destruct (find_draft _ _) as [[i d]|] eqn:Hfind; [| done].
      apply find_draft_Some in Hfind as [Hin%list_elem_of_lookup_2 Heq].
      by apply list_elem_of_filter in Hin as [Hne _].
    + by rewrite find_draft_filter_ne.
  - unfold deleteDraft, set_drafts. simpl. rewrite filter_all; [done |].
    apply Forall_forall. by intros d [Hd _]%list_elem_of_filter.
  - intros Hnone. unfold deleteDraft. simpl.
    rewrite filter_all; [apply set_drafts_same |].
    apply list_find_None in Hnone. eapply Forall_impl; [exact Hnone |]. done.
Qed.

(** ** Failure leaves the stores alone *)

Lemma all_or_nothing_keeps {A} (c : M A) : keeps_stores c → all_or_nothing c.
Proof. intros Hc w e w' Hrun. by eapply keeps_stores_run. Qed.

Lemma all_or_nothing_bind {A B} (c : M A) (k : A → M B) :
  keeps_stores c → (∀ a, all_or_nothing (k a)) → all_or_nothing (bind c k).
Proof.
  intros Hc Hk w e w' Hrun. unfold bind in Hrun. specialize (Hc w).
  destruct (c w) as [[a|e'] w1]; simpl in *.
  - destruct Hc as [<- <-]. by eapply Hk.
  - by simplify_eq.
Qed.

Lemma all_or_nothing_last {A B} (c : M A) (k : A → M B) :
  all_or_nothing c → (∀ a, succeeds (k a)) → all_or_nothing (bind c k).
Proof.
  intros Hc Hk w e w' Hrun. unfold bind in Hrun.
  destruct (c w) as [[a|e'] w1] eqn:Hcw.
  - destruct (Hk a w1) as [b Hb]. rewrite Hrun in Hb. done.
  - simplify_eq. by eapply Hc.
Qed.

Lemma all_or_nothing_succeeds {A} (c : M A) : succeeds c → all_or_nothing c.
Proof. intros Hc w e w' Hrun. destruct (Hc w) as [a Ha]. by rewrite Hrun in Ha. Qed.

Lemma all_or_nothing_upload h file : all_or_nothing (upload h file).
Proof.
  intros w e w' Hrun. unfold upload in Hrun.
  destruct (uploadFile h file); by simplify_eq.
Qed.

Lemma succeeds_ret {A} (a : A) : succeeds (ret a).
Proof. intros w. by exists a. Qed.

Lemma succeeds_bind {A B} (c : M A) (k : A → M B) :
  succeeds c → (∀ a, succeeds (k a)) → succeeds (bind c k).
Proof.
  intros Hc Hk w. unfold bind. destruct (Hc w) as [a Ha].
  destruct (c w) as [[a'|e] w1]; simpl in *; [| done]. apply Hk.
Qed.

Lemma succeeds_saveDraft d : succeeds (saveDraft d).
Proof. intros w. exists tt. by rewrite saveDraft_run. Qed.

Lemma succeeds_try {A} (body : M A) (handler : exn → M A) :
  (∀ e, succeeds (handler e)) → succeeds (try_catchM body handler).
Proof.
  intros Hh w. unfold try_catchM. destruct (body w) as [[a|e] w1]; [by exists a |].
  apply Hh.
Qed.

Section Atomicity.
Context `{Sodium} `{Json}.
Variable h : Host.

Lemma createDraft_all_or_nothing title content metadata :
  all_or_nothing (createDraft h title content metadata).
Proof.
  unfold createDraft.
  apply all_or_nothing_bind; [apply keeps_stores_require_client | intros _].
  apply all_or_nothing_bind; [apply keeps_stores_require_address | intros owner].
  apply all_or_nothing_bind; [apply keeps_stores_lift | intros documentKey].
  apply all_or_nothing_bind; [apply keeps_stores_lift | intros encrypted].
  apply all_or_nothing_bind; [apply keeps_stores_getOrDeriveDerivedKey | intros derivedKey].
  apply all_or_nothing_bind; [apply keeps_stores_lift | intros ownerKeyShare].
  apply all_or_nothing_last; [apply all_or_nothing_upload | intros uploadResult].
  apply succeeds_bind; [apply succeeds_saveDraft | intros _; apply succeeds_ret].
Qed.

Lemma keeps_stores_getDraft id : keeps_stores (getDraft id).
Proof. done. Qed.

Lemma saveDraftVersion_all_or_nothing draftId content message :
  all_or_nothing (saveDraftVersion h draftId content message).
Proof.
  unfold saveDraftVersion.
  apply all_or_nothing_bind; [apply keeps_stores_require_client | intros _].
  apply all_or_nothing_bind; [apply keeps_stores_getDraft | intros [draft|]];
    [| apply all_or_nothing_keeps, keeps_stores_throw].
  apply all_or_nothing_bind; [apply keeps_stores_require_address | intros owner].
  apply all_or_nothing_bind; [apply keeps_stores_getDocumentKey | intros documentKey].
  apply all_or_nothing_bind; [apply keeps_stores_lift | intros encrypted].
  destruct (last_elem (versions draft)) as [latestVersion|];
    [| apply all_or_nothing_keeps, keeps_stores_throw].
  apply all_or_nothing_last; [apply all_or_nothing_upload | intros uploadResult].
  apply succeeds_bind; [apply succeeds_saveDraft | intros _; apply succeeds_ret].
Qed.

Lemma addCollaborator_all_or_nothing draftId collaboratorWallet collaboratorName :
  all_or_nothing (addCollaborator h draftId collaboratorWallet collaboratorName).
Proof.
  unfold addCollaborator.
  apply all_or_nothing_bind; [apply keeps_stores_getDraft | intros [draft|]];
    [| apply all_or_nothing_keeps, keeps_stores_throw].
  apply all_or_nothing_bind; [apply keeps_stores_require_address | intros owner].
  destruct (negb _); [apply all_or_nothing_keeps, keeps_stores_throw |].
  destruct (some _ _); [apply all_or_nothing_keeps, keeps_stores_throw |].
  apply all_or_nothing_bind; [apply keeps_stores_getDocumentKey | intros documentKey].
  apply all_or_nothing_succeeds.
  apply succeeds_bind; [apply succeeds_saveDraft | intros _].
  apply succeeds_bind; [| intros invitationId; apply succeeds_ret].
  apply succeeds_try. intros _. apply succeeds_ret.
Qed.

Lemma processSecureShareLink_all_or_nothing draftId documentKeyBase64 :
  all_or_nothing (processSecureShareLink h draftId documentKeyBase64).
Proof.
  unfold processSecureShareLink.
  destruct (getConnectedAddress h) as [wallet|];
    [| apply all_or_nothing_succeeds, succeeds_ret].
  destruct (negb _); [apply all_or_nothing_succeeds, succeeds_ret |].
  apply all_or_nothing_bind; [apply keeps_stores_getDraft | intros [existingDraft|]].
  - destruct (String.eqb _ _); [apply all_or_nothing_succeeds, succeeds_ret |].
    destruct (list_find _ _) as [[i existingCollab]|];
      [| apply all_or_nothing_succeeds, succeeds_ret].
    destruct (str_truthy _); [apply all_or_nothing_succeeds, succeeds_ret |].
    apply all_or_nothing_bind; [apply keeps_stores_getOrDeriveDerivedKey | intros derivedKey].
    apply all_or_nothing_bind; [apply keeps_stores_lift | intros documentKey].
    apply all_or_nothing_bind; [apply keeps_stores_lift | intros keyShare].
    apply all_or_nothing_succeeds.
    apply succeeds_bind; [apply succeeds_saveDraft | intros _; apply succeeds_ret].
  - apply all_or_nothing_succeeds, succeeds_try. intros _. apply succeeds_ret.
Qed.

Lemma loadDraftContent_keeps_stores draftId versionIndex :
  keeps_stores (loadDraftContent h draftId versionIndex).
Proof.
  unfold loadDraftContent.
  apply keeps_stores_bind; [apply keeps_stores_require_client | intros _].
  apply keeps_stores_bind; [apply keeps_stores_getDraft | intros [draft|]];
    [| apply keeps_stores_throw].
  destruct (match versionIndex with Some _ => _ | None => _ end);
    [| apply keeps_stores_throw].
  apply keeps_stores_bind; [apply keeps_stores_lift | intros text].
  destruct (parseEncryptedDraftManifest text); [| apply keeps_stores_throw].
  destruct (negb _); [apply keeps_stores_throw |].
  apply keeps_stores_bind; [apply keeps_stores_getDocumentKey | intros documentKey].
  apply keeps_stores_bind; [apply keeps_stores_lift | intros encrypted].
  apply keeps_stores_bind; [apply keeps_stores_lift | intros decryptedBytes].
  done.
Qed.

Lemma all_or_nothing_ignore {A} (c : M A) : all_or_nothing c → all_or_nothing (ignore c).
Proof.
  intros Hc. unfold ignore. apply all_or_nothing_last; [done |].
  intros a. apply succeeds_ret.
Qed.

(** X4. Every operation of [drafts.ts] is all-or-nothing on the two
    stores: when it fails (its promise rejects), the local drafts and the
    Cascade store are what they were before the call. What a failed call
    may leave behind is the cached derived key, or the promise of a failed
    derivation. *)
Theorem failed_operation_changes_nothing (op : Op) (w w' : World) (e : exn) :
  exec h op w = (Err e, w') → drafts w' = drafts w ∧ cascade w' = cascade w.
Proof.
  revert w e w'. change (all_or_nothing (exec h op)).
  destruct op as [t c md | i c msg | i v | i cw cn | i k | m | a f | i |]; simpl.
  - apply all_or_nothing_ignore, createDraft_all_or_nothing.
  - apply all_or_nothing_ignore, saveDraftVersion_all_or_nothing.
  - apply all_or_nothing_ignore, all_or_nothing_keeps, loadDraftContent_keeps_stores.
  - apply all_or_nothing_ignore, addCollaborator_all_or_nothing.
  - apply all_or_nothing_ignore, processSecureShareLink_all_or_nothing.
  - apply all_or_nothing_succeeds, succeeds_try. intros _. apply succeeds_ret.
  - apply all_or_nothing_succeeds.
    unfold fetchInvitedDrafts_syncs.
    apply succeeds_bind; [intros w; by eexists |]. intros allDrafts.
    apply succeeds_try. intros _. apply succeeds_ret.
  - apply all_or_nothing_succeeds. intros w. by exists tt.
  - apply all_or_nothing_succeeds. intros w. by exists tt.
Qed.
End Atomicity.

(** ** Access to a draft *)

Lemma some_find {A} (p : A → bool) (l : list A) :
  some p l = bool_decide (is_Some (find p l)).
Proof.
  unfold some. induction l as [|x l IH]; simpl; [done |].
  by destruct (p x).
Qed.

Lemma decryptKeyShare_errors `{Sodium} ready share derivedKey e :
  decryptKeyShare ready share derivedKey = Err e → e ≠ NoAccess ∧ e ≠ NoKeyShare.
Proof.
  unfold decryptKeyShare, sodium_from_base64. destruct ready; simpl; [| by intros [= <-]].
  destruct (from_base64 (ks_encryptedKey share)); simpl; [| by intros [= <-]].
  destruct (from_base64 (ks_nonce share)); simpl; [| by intros [= <-]].
  destruct (crypto_secretbox_open_easy _ _ _); [done | by intros [= <-]].
Qed.

(** What [getDocumentKey] answers once the wallet is connected and its key
    derived. *)
Lemma getDocumentKey_resolved `{Sodium} h draft wallet derivedKey w :
  getConnectedAddress h = Some wallet →
  str_truthy wallet = true →
  (getOrDeriveDerivedKey h w).1 = Ok derivedKey →
  (getDocumentKey h draft w).1 =
  if String.eqb (owner draft) wallet then
    decryptKeyShare (sodiumReady h)
      {| ks_wallet := wallet; ks_encryptedKey := ownerEncryptedKey draft;
         ks_nonce := ownerKeyNonce draft |} derivedKey
  else
    match find (is_collaborator wallet) (collaborators draft) with
    | Some collaborator =>
        if negb (str_truthy (ks_encryptedKey (c_keyShare collaborator)))
           || negb (str_truthy (ks_nonce (c_keyShare collaborator)))
        then Err NoKeyShare
        else decryptKeyShare (sodiumReady h) (c_keyShare collaborator) derivedKey
    | None => Err NoAccess
    end.
Proof.
  intros Hw Ht Hk. unfold getDocumentKey, require_address. rewrite Hw, Ht.
  unfold bind at 1, ret at 1. unfold bind.
  destruct (getOrDeriveDerivedKey h w) as [[k|e] w1]; simpl in *; [| done].
  simplify_eq. destruct (String.eqb _ _); [done |].
  destruct (find _ _); [| done]. by destruct (_ || _).
Qed.

(** X5. The three questions the interface asks are ordered: a wallet with
    a valid key for a draft has access to it, and so has its owner (but for
    a connected address that is the empty string, which [isDraftOwner] takes
    and [hasAccessToDraft] does not). None of them fails or changes
    anything. *)
Theorem access_predicates_ordered (h : Host) (id : string) (w : World) :
  ((hasValidKeyForDraft h id w).1 = Ok true → (hasAccessToDraft h id w).1 = Ok true)
  ∧ ((isDraftOwner h id w).1 = Ok true →
     (hasAccessToDraft h id w).1 = Ok true ∨ getConnectedAddress h = Some "")
  ∧ (∃ b, isDraftOwner h id w = (Ok b, w))
  ∧ (∃ b, hasAccessToDraft h id w = (Ok b, w))
  ∧ (∃ b, hasValidKeyForDraft h id w = (Ok b, w)).
Proof.
  unfold hasValidKeyForDraft, hasAccessToDraft, isDraftOwner, bind, getDraft, ret.
  simpl. destruct (find_draft id (drafts w)) as [[i draft]|]; simpl.
  2: { split_and!; try done; by eexists. }
  destruct (getConnectedAddress h) as [wallet|]; simpl.
  2: { split_and!; try done; by eexists. }
  rewrite some_find.
  destruct (str_truthy wallet) eqn:Ht; simpl.
  - destruct (String.eqb (owner draft) wallet); simpl.
    + split_and!; [done | by left | by eexists | by eexists |].
      repeat case_match; by eexists.
    + destruct (find _ _) as [c|]; simpl.
      * split_and!; [done | done | by eexists | by eexists |].
        repeat case_match; by eexists.
      * split_and!; [done | done | by eexists | by eexists | by eexists].
  - split_and!; try done; eauto.
    intros _. right. unfold str_truthy in Ht. apply negb_false_iff, String.eqb_eq in Ht.
    by subst.
Qed.

(** X6. For a stored draft and a connected wallet whose key derivation
    succeeds, the two access errors of [getDocumentKey] are told by the
    interface's questions: it fails with 'No access to this draft' exactly
    when [hasAccessToDraft] is false, and with [NO_KEY_SHARE] exactly when
    the wallet is not the owner, has access and has no valid key. *)
Theorem getDocumentKey_errors_by_access `{Sodium} (h : Host) (id : string) (w : World)
    (i : nat) (draft : Draft) (wallet : string) (derivedKey : bytes) :
  find_draft id (drafts w) = Some (i, draft) →
  getConnectedAddress h = Some wallet →
  str_truthy wallet = true →
  (getOrDeriveDerivedKey h w).1 = Ok derivedKey →
  ((getDocumentKey h draft w).1 = Err NoAccess ↔ (hasAccessToDraft h id w).1 = Ok false)
  ∧ ((getDocumentKey h draft w).1 = Err NoKeyShare ↔
       (hasAccessToDraft h id w).1 = Ok true
       ∧ (hasValidKeyForDraft h id w).1 = Ok false
       ∧ owner draft ≠ wallet).
Proof.
  intros Hfind Hw Ht Hk.
  rewrite (getDocumentKey_resolved h draft wallet derivedKey w Hw Ht Hk).
  unfold hasAccessToDraft, hasValidKeyForDraft, bind, getDraft, ret. simpl.
  rewrite Hfind, Hw, Ht. simpl. rewrite some_find.
  destruct (String.eqb_spec (owner draft) wallet) as [Ho | Ho]; simpl.
  - split; split.
    + intros [Hne _]%decryptKeyShare_errors. done.
    + done.
    + intros [_ Hne]%decryptKeyShare_errors. done.
    + intros (_ & _ & ?). done.
  - destruct (find _ _) as [c|]; simpl; rewrite ?bool_decide_true by eauto;
      rewrite ?bool_decide_false by (by intros [? ?]).
    + destruct (str_truthy (ks_encryptedKey (c_keyShare c))); simpl;
        [destruct (str_truthy (ks_nonce (c_keyShare c))); simpl |].
      * split; split; try done.
        -- intros [Hne _]%decryptKeyShare_errors. done.
        -- intros [_ Hne]%decryptKeyShare_errors. done.
        -- intros (_ & ? & _). done.
      * split; split; done.
      * split; split; done.
    + split; split; try done. intros (? & _). done.
Qed.

Lemma getDocumentKey_without_access `{Sodium} (h : Host) (id : string) (w : World)
    (i : nat) (draft : Draft) :
  find_draft id (drafts w) = Some (i, draft) →
  (hasAccessToDraft h id w).1 = Ok false →
  fails (getDocumentKey h draft)
  ∧ (∀ a, getConnectedAddress h = Some a → str_truthy a = true →
          String.eqb (owner draft) a = false).
Proof.
  intros Hfind. unfold hasAccessToDraft, bind, getDraft, ret. simpl. rewrite Hfind.
  simpl. unfold getDocumentKey, require_address.
  destruct (getConnectedAddress h) as [wallet|];
    [| intros _; split; [intros w1; by eexists | done]].
  destruct (str_truthy wallet) eqn:Ht; simpl.
  2: { intros _. split; [intros w1; by eexists |]. intros a [= <-]. congruence. }
  destruct (String.eqb (owner draft) wallet) eqn:Ho; [done |].
  rewrite some_find. intros Hnone. split; [| by intros a [= <-]].
  intros w1. unfold bind at 1, ret at 1. unfold bind.
  destruct (getOrDeriveDerivedKey h w1) as [[k|e] w2]; simpl; [| by eexists].
  rewrite Ho. destruct (find _ _); [| by eexists]. simpl in Hnone. done.
Qed.

(** One step of a computation that is to fail: the step fails, or the
    rest is run. *)
Ltac fail_or_step :=
  match goal with
  | |- ∃ e, (bind ?c ?k ?w).1 = Err e =>
    let Hc := fresh "Hc" in
    unfold bind at 1; destruct (c w) as [[?|?] ?] eqn:Hc; [| by eexists]
  end.

(** X7. A wallet for which [hasAccessToDraft] is false can neither read
    nor write the draft: [loadDraftContent] fails for every version,
    [saveDraftVersion] fails for every content, and [addCollaborator] fails
    for every wallet. *)
Theorem no_access_no_content `{Sodium} `{Json} (h : Host) (id : string) (w : World) :
  (hasAccessToDraft h id w).1 = Ok false →
  (∀ versionIndex, ∃ e, (loadDraftContent h id versionIndex w).1 = Err e)
  ∧ (∀ content message, ∃ e, (saveDraftVersion h id content message w).1 = Err e)
  ∧ (∀ collaboratorWallet collaboratorName,
       ∃ e, (addCollaborator h id collaboratorWallet collaboratorName w).1 = Err e).
Proof.
  intros Hno.
  destruct (find_draft id (drafts w)) as [[i draft]|] eqn:Hfind.
  - destruct (getDocumentKey_without_access h id w i draft Hfind Hno) as [Hkey Howner].
    split_and!.
    + intros versionIndex. unfold loadDraftContent.
      fail_or_step. apply require_client_Ok in Hc as [_ ->].
      unfold bind at 1, getDraft. rewrite Hfind. simpl.
      destruct (match versionIndex with Some _ => _ | None => _ end); [| by eexists].
      fail_or_step.
      destruct (parseEncryptedDraftManifest _); [| by eexists].
      destruct (negb _); [by eexists |].
      unfold bind at 1.
      match goal with |- context [getDocumentKey h draft ?w1] =>
        destruct (Hkey w1) as [e He];
        destruct (getDocumentKey h draft w1) as [[k|e'] w2]; simpl in He; [done |] end.
      by eexists.
    + intros content message. unfold saveDraftVersion.
      fail_or_step. apply require_client_Ok in Hc as [_ ->].
      unfold bind at 1, getDraft. rewrite Hfind. simpl.
      fail_or_step.
      unfold bind at 1.
      match goal with |- context [getDocumentKey h draft ?w1] =>
        destruct (Hkey w1) as [e He];
        destruct (getDocumentKey h draft w1) as [[k|e'] w2]; simpl in He; [done |] end.
      by eexists.
    + intros cw cn. unfold addCollaborator.
      unfold bind at 1, getDraft. rewrite Hfind. simpl.
      fail_or_step. apply require_address_Ok in Hc as (Ha & Ht & ->).
      unfold owner_of. rewrite (Howner _ Ha Ht). simpl. by eexists.
  - split_and!.
    + intros versionIndex. unfold loadDraftContent.
      fail_or_step. apply require_client_Ok in Hc as [_ ->].
      unfold bind at 1, getDraft. rewrite Hfind. by eexists.
    + intros content message. unfold saveDraftVersion.
      fail_or_step. apply require_client_Ok in Hc as [_ ->].
      unfold bind at 1, getDraft. rewrite Hfind. by eexists.
    + intros cw cn. unfold addCollaborator.
      unfold bind at 1, getDraft. rewrite Hfind. by eexists.
Qed.

(** ** What is saved is what is loaded *)

Lemma getOrDeriveDerivedKey_hit `{Sodium} (h : Host) (w : World) (key : bytes) :
  cachedDerivedKey w = Some key → getOrDeriveDerivedKey h w = (Ok key, w).
Proof. intros Hc. unfold getOrDeriveDerivedKey. by rewrite Hc. Qed.

Lemma getOrDeriveDerivedKey_Ok `{Sodium} (h : Host) (w w1 : World) (key : bytes) :
  getOrDeriveDerivedKey h w = (Ok key, w1) → cachedDerivedKey w1 = Some key.
Proof.
  intros Hrun. pose proof (getOrDeriveDerivedKey_final h w) as Hfinal.
  by rewrite Hrun in Hfinal.
Qed.






Lemma getOrDeriveDerivedKey_run `{Sodium} (h : Host) (w w1 : World) r :
  getOrDeriveDerivedKey h w = (r, w1) → drafts w1 = drafts w ∧ cascade w1 = cascade w.
Proof. by apply keeps_stores_run, keeps_stores_getOrDeriveDerivedKey. Qed.


Lemma encryptKeyForCollaborator_Ok `{Sodium} ready nonce D Mk wallet share :
  encryptKeyForCollaborator ready nonce D Mk wallet = Ok share →
  ready = true
  ∧ share = {| ks_wallet := wallet;
               ks_encryptedKey := to_base64 (crypto_secretbox_easy D nonce Mk);
               ks_nonce := to_base64 nonce |}.
Proof. unfold encryptKeyForCollaborator. destruct ready; [| done]. by intros [= <-]. Qed.





(** ** The key that travels in the share link *)

Lemma find_is_collaborator wallet (l : list Collaborator) :
  find (is_collaborator wallet) l = snd <$> list_find (λ c, c_wallet c = wallet) l.
Proof.
  induction l as [|c l IH]; [done |]. simpl. unfold is_collaborator at 1.
  destruct (String.eqb_spec (c_wallet c) wallet) as [Heq | Hne].
  - by rewrite decide_True.
  - rewrite decide_False by done. rewrite IH.
    by destruct (list_find _ l) as [[??]|].
Qed.

Lemma list_find_insert_here {A} (P : A → Prop) `{∀ x, Decision (P x)} (l : list A) i x y :
  list_find P l = Some (i, x) → P y → list_find P (<[i := y]> l) = Some (i, y).
Proof.
  intros (Hi & Hx & Hleast)%list_find_Some Hy. apply list_find_Some.
  split_and!; [| done |].
  - apply list_lookup_insert_eq. by eapply lookup_lt_Some.
  - intros j z Hj Hlt. rewrite list_lookup_insert_ne in Hj by lia. eauto.
Qed.

Lemma str_truthy_true s : str_truthy s = true ↔ s ≠ "".
Proof.
  unfold str_truthy. rewrite negb_true_iff. split.
  - intros Hne ->. by rewrite String.eqb_refl in Hne.
  - intros Hne. by apply String.eqb_neq.
Qed.

(** The share [encryptKeyForCollaborator] builds passes the emptiness test
    of [getDocumentKey] and opens under the key that sealed it. *)
Lemma sealed_share_opens `{SodiumLaws} `{!SodiumSizes} nonce D Mk wallet share :
  length Mk = crypto_secretbox_KEYBYTES →
  length nonce = crypto_secretbox_NONCEBYTES →
  encryptKeyForCollaborator true nonce D Mk wallet = Ok share →
  str_truthy (ks_encryptedKey share) = true
  ∧ str_truthy (ks_nonce share) = true
  ∧ ks_wallet share = wallet
  ∧ decryptKeyShare true share Mk = Ok D.
Proof.
  intros HK Hn Hshare.
  pose proof (decryptKeyShare_encryptKeyForCollaborator nonce D Mk wallet HK Hn) as Hround.
  rewrite Hshare in Hround. simpl in Hround.
  apply encryptKeyForCollaborator_Ok in Hshare as [_ ->]. simpl.
  split_and!; [| | done | done].
  - apply str_truthy_true, to_base64_not_empty. by apply secretbox_not_empty.
  - apply str_truthy_true, to_base64_not_empty. intros ->.
    pose proof noncebytes_pos. simpl in Hn. lia.
Qed.

(** X10. A wallet that is listed as a collaborator with the empty
    placeholder share, and opens the link on the store that lists it: when
    its key derivation succeeds and the link's key decodes,
    [processSecureShareLink] answers 'Access key imported successfully!',
    and from then on [getDocumentKey] resolves, for that wallet, to the very
    key the link carried; [hasValidKeyForDraft] becomes true and nothing is
    uploaded. *)
Theorem link_key_imported `{SodiumLaws} `{!SodiumSizes} `{Json} (h : Host)
    (id documentKeyBase64 wallet : string) (w : World) (i j : nat) (draft : Draft)
    (c : Collaborator) (derivedKey K : bytes) :
  getConnectedAddress h = Some wallet →
  str_truthy wallet = true →
  find_draft id (drafts w) = Some (i, draft) →
  owner draft ≠ wallet →
  list_find (λ c, c_wallet c = wallet) (collaborators draft) = Some (j, c) →
  ks_encryptedKey (c_keyShare c) = "" →
  (getOrDeriveDerivedKey h w).1 = Ok derivedKey →
  length derivedKey = crypto_secretbox_KEYBYTES →
  sodiumReady h = true →
  length (nonce_draw h 0) = crypto_secretbox_NONCEBYTES →
  from_base64 documentKeyBase64 = Some K →
  ∃ w' draft',
    processSecureShareLink h id documentKeyBase64 w
    = (Ok (link_result true "Access key imported successfully!"), w')
    ∧ find_draft id (drafts w') = Some (i, draft')
    ∧ getDocumentKey h draft' w' = (Ok K, w')
    ∧ (hasValidKeyForDraft h id w').1 = Ok true
    ∧ cascade w' = cascade w.
Proof.
  intros Hw Ht Hfind Ho Hc He Hk HK Hready Hn Hb64.
  destruct (getOrDeriveDerivedKey h w) as [[k|e] w1] eqn:Hrun; simpl in Hk; [| done].
  injection Hk as ->.
  destruct (getOrDeriveDerivedKey_run h w w1 _ Hrun) as [Hd Hs].
  pose proof (getOrDeriveDerivedKey_Ok h w w1 derivedKey Hrun) as Hcache.
  destruct (find_draft_Some _ _ _ _ Hfind) as [_ Hid].
  destruct (encryptKeyForCollaborator true (nonce_draw h 0) K derivedKey wallet)
    as [share|] eqn:Hshare; [| done].
  destruct (sealed_share_opens _ _ _ _ _ HK Hn Hshare) as (Hte & Htn & _ & Hopen).
  set (draft' := with_collaborators
                   (<[j := with_keyShare share c]> (collaborators draft)) draft).
  exists (saveDraft draft' w1).2, draft'.
  assert (find_draft id (drafts (saveDraft draft' w1).2) = Some (i, draft')) as Hfind'.
  { rewrite saveDraft_run. simpl. change (draftId draft') with (draftId draft).
    rewrite Hid, Hd, Hfind. by eapply find_draft_insert. }
  assert (find (is_collaborator wallet) (collaborators draft')
          = Some (with_keyShare share c)) as Hcollab.
  { rewrite find_is_collaborator. simpl.
    erewrite list_find_insert_here; [done | exact Hc |].
    simpl. by apply list_find_Some in Hc as (_ & ? & _). }
  assert (String.eqb (owner draft) wallet = false) as Hne by by apply String.eqb_neq.
  split_and!.
  - unfold processSecureShareLink. rewrite Hw, Ht. simpl.
    unfold bind at 1, getDraft. rewrite Hfind. simpl. rewrite Hne, Hc, He. simpl.
    unfold bind at 1. rewrite Hrun.
    unfold bind at 1. rewrite lift_run. unfold fromBase64, sodium_from_base64.
    rewrite Hb64. unfold bind at 1. rewrite lift_run, Hready, Hshare.
    unfold bind. by rewrite !saveDraft_run.
  - exact Hfind'.
  - unfold getDocumentKey, require_address. rewrite Hw, Ht.
    unfold bind at 1, ret at 1. unfold bind.
    rewrite (getOrDeriveDerivedKey_hit h _ derivedKey)
      by (by rewrite saveDraft_run).
    change (owner draft') with (owner draft). rewrite Hne, Hcollab. simpl.
    rewrite Hte, Htn. simpl. by rewrite lift_run, Hready, Hopen.
  - unfold hasValidKeyForDraft, bind, getDraft, ret. simpl. rewrite Hfind', Hw, Ht. simpl.
    simpl in Hcollab. rewrite Hne, Hcollab. simpl.
    by rewrite Hte, Htn.
  - rewrite saveDraft_run. simpl. done.
Qed.

Lemma invitation_fields_of_invitation (inv : CollaborationInvitation) :
  invitation_fields (json_of_invitation inv)
  = Ok {| if_draftId := inv_draftId inv; if_draftTitle := inv_draftTitle inv;
          if_owner := inv_owner inv; if_latestVersion := inv_latestVersion inv;
          if_latestActionId := inv_latestActionId inv;
          if_createdAt := inv_createdAt inv; if_invitedBy := inv_invitedBy inv |}.
Proof. unfold invitation_fields, json_of_invitation. by destruct (inv_ownerName inv). Qed.

(** The import of a draft through a link, step by step. *)
Lemma processSecureShareLink_imports `{SodiumLaws} `{!SodiumSizes} `{Json} (h : Host)
    (id documentKeyBase64 wallet : string) (w : World) (action : LumescopeAction)
    (inv : CollaborationInvitation) (derivedKey K : bytes) :
  getConnectedAddress h = Some wallet →
  str_truthy wallet = true →
  getLumeraClient h = true →
  find_draft id (drafts w) = None →
  find (is_invitation_for wallet id) (getAllActions h) = Some action →
  serves h (la_id action) (InvitationJson inv) →
  (getOrDeriveDerivedKey h w).1 = Ok derivedKey →
  length derivedKey = crypto_secretbox_KEYBYTES →
  sodiumReady h = true →
  length (nonce_draw h 0) = crypto_secretbox_NONCEBYTES →
  from_base64 documentKeyBase64 = Some K →
  ∃ share w1,
    getOrDeriveDerivedKey h w = (Ok derivedKey, w1)
    ∧ encryptKeyForCollaborator true (nonce_draw h 0) K derivedKey wallet = Ok share
    ∧ processSecureShareLink h id documentKeyBase64 w
      = (Ok Imported, (saveDraft (imported_draft h wallet share inv) w1).2)
    ∧ (inv_owner inv ≠ wallet →
       getDocumentKey h (imported_draft h wallet share inv)
         (saveDraft (imported_draft h wallet share inv) w1).2
       = (Ok K, (saveDraft (imported_draft h wallet share inv) w1).2)).
Proof.
  intros Hw Ht Hcl Hnone Hidx (text & Hdl & Hparse) Hk HK Hready Hn Hb64.
  destruct (getOrDeriveDerivedKey h w) as [[k|e] w1] eqn:Hrun; simpl in Hk; [| done].
  injection Hk as ->.
  pose proof (getOrDeriveDerivedKey_Ok h w w1 derivedKey Hrun) as Hcache.
  destruct (encryptKeyForCollaborator true (nonce_draw h 0) K derivedKey wallet)
    as [share|] eqn:Hshare; [| done].
  destruct (sealed_share_opens _ _ _ _ _ HK Hn Hshare) as (Hte & Htn & _ & Hopen).
  exists share, w1. split_and!; [done | done | |].
  - unfold processSecureShareLink. rewrite Hw, Ht. simpl.
    unfold bind at 1, getDraft. rewrite Hnone. simpl.
    unfold try_catchM at 1. unfold bind at 1.
    unfold verifyInvitationOnCascade, try_catchM at 1. rewrite Hidx. simpl.
    unfold bind at 1.
    unfold importDraftFromCascade, try_catchM, require_client. rewrite Hcl.
    unfold bind at 1, ret at 1. rewrite Hidx.
    unfold bind at 1. rewrite lift_run, Hdl.
    unfold bind at 1. rewrite lift_run. unfold json_parse. rewrite Hparse. simpl.
    rewrite invitation_fields_of_invitation.
    unfold bind at 1. rewrite Hrun.
    unfold bind at 1. rewrite lift_run. unfold fromBase64, sodium_from_base64.
    rewrite Hb64. unfold bind at 1. rewrite lift_run, Hready, Hshare.
    unfold bind. rewrite !saveDraft_run. done.
  - intros Ho. apply String.eqb_neq in Ho.
    unfold getDocumentKey, require_address. rewrite Hw, Ht.
    unfold bind at 1, ret at 1. unfold bind.
    rewrite (getOrDeriveDerivedKey_hit h _ derivedKey) by (by rewrite saveDraft_run).
    simpl. rewrite Ho. unfold is_collaborator. simpl. rewrite String.eqb_refl. simpl.
    rewrite Hte, Htn. simpl. by rewrite lift_run, Hready, Hopen.
Qed.

(** X11. A wallet that holds no local record of the draft and opens a link
    for which the index lists its invitation: when the invitation is served,
    the key derivation succeeds and the link's key decodes,
    [processSecureShareLink] answers 'Draft imported successfully!' and has
    stored one new draft, built from the invitation and stored under the
    [draftId] written inside it: shared, owned by the invitation's owner,
    with the wallet as its one collaborator and the invitation's latest
    version as its one version. Nothing is uploaded. For a wallet other
    than the owner, [getDocumentKey] then resolves to the key the link
    carried. *)
Theorem invited_wallet_imports_draft `{SodiumLaws} `{!SodiumSizes} `{Json} (h : Host)
    (id documentKeyBase64 wallet : string) (w : World) (action : LumescopeAction)
    (inv : CollaborationInvitation) (derivedKey K : bytes) :
  getConnectedAddress h = Some wallet →
  str_truthy wallet = true →
  getLumeraClient h = true →
  find_draft id (drafts w) = None →
  find (is_invitation_for wallet id) (getAllActions h) = Some action →
  serves h (la_id action) (InvitationJson inv) →
  (getOrDeriveDerivedKey h w).1 = Ok derivedKey →
  length derivedKey = crypto_secretbox_KEYBYTES →
  sodiumReady h = true →
  length (nonce_draw h 0) = crypto_secretbox_NONCEBYTES →
  from_base64 documentKeyBase64 = Some K →
  ∃ w' draft collaborator version,
    processSecureShareLink h id documentKeyBase64 w = (Ok Imported, w')
    ∧ drafts w' = save_into draft (drafts w)
    ∧ cascade w' = cascade w
    ∧ draftId draft = inv_draftId inv
    ∧ status draft = status_shared
    ∧ owner draft = inv_owner inv
    ∧ collaborators draft = [collaborator] ∧ c_wallet collaborator = wallet
    ∧ versions draft = [version]
    ∧ dv_version version = inv_latestVersion inv
    ∧ dv_actionId version = inv_latestActionId inv
    ∧ (inv_owner inv ≠ wallet → getDocumentKey h draft w' = (Ok K, w')).
Proof.
  intros Hw Ht Hcl Hnone Hidx Hserved Hk HK Hready Hn Hb64.
  destruct (processSecureShareLink_imports h id documentKeyBase64 wallet w action inv
              derivedKey K Hw Ht Hcl Hnone Hidx Hserved Hk HK Hready Hn Hb64)
    as (share & w1 & Hrun & _ & Hlink & Hkey).
  destruct (getOrDeriveDerivedKey_run h w w1 _ Hrun) as [Hd Hs].
  eexists _, (imported_draft h wallet share inv), _, _.
  split_and!; [exact Hlink | | | done | done | done | done | done | done | done | done
               | exact Hkey].
  - by rewrite drafts_saveDraft, Hd.
  - by rewrite saveDraft_run.
Qed.

(** The invitation [uploadCollaborationInvitation] writes for a collaborator
    of [draft] whose latest version is [latest]. *)
Lemma uploadCollaborationInvitation_file (h : Host) (draft : Draft)
    (collaborator : Collaborator) (w w' : World) (r : Result string) :
  uploadCollaborationInvitation h draft collaborator w = (r, w') →
  cascade w' = cascade w
  ∨ ∃ latest file inv,
      last (versions draft) = Some latest
      ∧ cascade w' = cascade w ++ [file]
      ∧ fileBytes file = InvitationJson inv
      ∧ inv_draftId inv = draftId draft
      ∧ inv_owner inv = owner draft
      ∧ inv_invitedWallet inv = c_wallet collaborator
      ∧ inv_latestVersion inv = dv_version latest
      ∧ inv_latestActionId inv = dv_actionId latest.
Proof.
  unfold uploadCollaborationInvitation, bind, require_client.
  destruct (getLumeraClient h); simpl; [| intros [= <- <-]; auto].
  destruct (last_elem (versions draft)) as [latest|] eqn:Hlast; [| intros [= <- <-]; auto].
  unfold upload. destruct (uploadFile h _) as [u|e]; simpl; intros [= <- <-]; [| auto].
  right. eexists latest, _, _. split_and!; done.
Qed.

(** What a successful [addCollaborator] hands over. *)
Lemma addCollaborator_shares `{Sodium} (h : Host) (id cw cn : string)
    (w w' : World) (r : AddCollaboratorResult) :
  addCollaborator h id cw cn w = (Ok r, w') →
  ∃ i draft K w3,
    find_draft id (drafts w) = Some (i, draft)
    ∧ getConnectedAddress h = Some (owner draft)
    ∧ getDocumentKey h draft w = (Ok K, w3)
    ∧ r_documentKeyBase64 r = to_base64 K
    ∧ c_documentKeyBase64 (r_collaborator r) = Some (to_base64 K)
    ∧ (∀ file, uploaded w w' file →
         ∃ inv latest,
           fileBytes file = InvitationJson inv
           ∧ inv_draftId inv = id
           ∧ inv_owner inv = owner draft
           ∧ inv_invitedWallet inv = cw
           ∧ last (versions draft) = Some latest
           ∧ inv_latestVersion inv = dv_version latest
           ∧ inv_latestActionId inv = dv_actionId latest).
Proof.
  intros Hrun. unfold addCollaborator in Hrun.
  ok_step Hrun as found w1 Hc. unfold getDraft in Hc. simplify_eq/=.
  destruct (find_draft id (drafts w1)) as [[i draft]|] eqn:Hfind; [| done].
  simpl in Hrun. destruct (find_draft_Some _ _ _ _ Hfind) as [_ Hid].
  ok_step Hrun as owner w2 Hc. apply require_address_Ok in Hc as (Hw & _ & ->).
  destruct (String.eqb_spec (owner_of draft) owner) as [Ho | Ho]; [| done]. simpl in Hrun.
  destruct (some _ _); [done |].
  ok_step Hrun as K w3 Hkey.
  destruct (keeps_stores_run _ _ _ _ (keeps_stores_getDocumentKey h draft) Hkey)
    as [Hd Hs].
  ok_step Hrun as [] w4 Hc. rewrite saveDraft_run in Hc. injection Hc as <-.
  ok_step Hrun as invitationId w5 Hc. unfold ret in Hrun. injection Hrun as <- <-.
  exists i, draft, K, w3. unfold owner_of in Ho. subst owner.
  split_and!; [done | done | done | done | done |].
  intros file Hup. unfold uploaded in Hup.
  unfold try_catchM in Hc.
  match type of Hc with context [bind (uploadCollaborationInvitation h ?d ?c) ?k ?w0] =>
    destruct (uploadCollaborationInvitation h d c w0) as [r0 w6] eqn:Hrun;
    pose proof (uploadCollaborationInvitation_file h d c w0 w6 r0 Hrun) as Hfile;
    unfold bind in Hc; rewrite Hrun in Hc end.
  assert (w5 = w6) as ->.
  { destruct r0; simpl in Hc; unfold ret in Hc; by injection Hc as _ <-. }
  simpl in Hfile. rewrite Hs in Hfile.
  destruct Hfile as [Hsame | (latest & file' & inv & Hlast & Hcas & Hbytes & ? & ? & ? & ? & ?)].
  - rewrite Hsame in Hup. apply (f_equal length) in Hup.
    rewrite length_app in Hup. simpl in Hup. lia.
  - rewrite Hcas in Hup. apply app_inj_tail in Hup as [_ ->].
    exists inv, latest. split_and!; try done. congruence.
Qed.

(** X12. The document key reaches the collaborator. The owner adds a
    collaborator and the invitation is uploaded; the collaborator, on a
    store of their own that does not hold the draft, opens the link made of
    the [documentKeyBase64] that [addCollaborator] returned, on an index
    that lists the invitation and a downloader that serves it. Then the
    draft is imported under the same [draftId], and [getDocumentKey]
    resolves for the collaborator to the key it resolves to for the owner:
    both decrypt the same versions. *)
Theorem shared_key_reaches_collaborator `{SodiumLaws} `{!SodiumSizes} `{Json}
    (ha hb : Host) (id cw cn : string) (wa wa' wb : World)
    (r : AddCollaboratorResult) (file : CascadeFile) (action : LumescopeAction)
    (derivedKey : bytes) :
  addCollaborator ha id cw cn wa = (Ok r, wa') →
  uploaded wa wa' file →
  getConnectedAddress ha ≠ Some cw →
  getConnectedAddress hb = Some cw →
  str_truthy cw = true →
  getLumeraClient hb = true →
  find_draft id (drafts wb) = None →
  find (is_invitation_for cw id) (getAllActions hb) = Some action →
  serves hb (la_id action) (fileBytes file) →
  (getOrDeriveDerivedKey hb wb).1 = Ok derivedKey →
  length derivedKey = crypto_secretbox_KEYBYTES →
  sodiumReady hb = true →
  length (nonce_draw hb 0) = crypto_secretbox_NONCEBYTES →
  ∃ wb' K ia drafta ib draftb,
    processSecureShareLink hb id (r_documentKeyBase64 r) wb = (Ok Imported, wb')
    ∧ find_draft id (drafts wa) = Some (ia, drafta)
    ∧ find_draft id (drafts wb') = Some (ib, draftb)
    ∧ (getDocumentKey ha drafta wa).1 = Ok K
    ∧ getDocumentKey hb draftb wb' = (Ok K, wb')
    ∧ owner draftb = owner drafta
    ∧ (λ v, (dv_version v, dv_actionId v)) <$> last (versions draftb)
      = (λ v, (dv_version v, dv_actionId v)) <$> last (versions drafta).
Proof.
  intros Hadd Hup Hne Hw Ht Hcl Hnone Hidx Hserved Hk HK Hready Hn.
  destruct (addCollaborator_shares ha id cw cn wa wa' r Hadd)
    as (ia & drafta & K & w3 & Hfinda & Howner & Hkeya & Hb64 & _ & Hinv).
  destruct (Hinv file Hup) as (inv & latest & Hfile & Hid & Ho & _ & Hlast & Hlv & Hla).
  rewrite Hfile in Hserved.
  destruct (processSecureShareLink_imports hb id (r_documentKeyBase64 r) cw wb action inv
              derivedKey K Hw Ht Hcl Hnone Hidx Hserved Hk HK Hready Hn)
    as (share & w1 & Hrun & _ & Hlink & Hkeyb).
  { rewrite Hb64. apply from_to_base64. }
  destruct (find_draft_saveDraft (imported_draft hb cw share inv) w1) as [ib Hfindb].
  simpl in Hfindb. rewrite Hid in Hfindb.
  eexists _, K, ia, drafta, ib, _.
  split_and!; [exact Hlink | exact Hfinda | exact Hfindb | by rewrite Hkeya | | done |].
  - apply Hkeyb. rewrite Ho. intros Heq. apply Hne. by rewrite Howner, Heq.
  - rewrite Hlast. simpl. by rewrite Hlv, Hla.
Qed.

(** ** Invariants of the stored drafts *)

Lemma Forall_save_into (P : Draft → Prop) d ds :
  Forall P ds → P d → Forall P (save_into d ds).
Proof.
  intros Hds Hd. unfold save_into. destruct (find_draft _ _) as [[i d0]|].
  - by apply Forall_insert.
  - apply Forall_app. split; [done |]. by constructor.
Qed.

Lemma find_draft_elem id ds i d : find_draft id ds = Some (i, d) → d ∈ ds.
Proof. intros [Hi _]%find_draft_Some. by eapply list_elem_of_lookup_2. Qed.

Section Forms.
Context `{Sodium} `{Json}.
Variable h : Host.

Lemma createDraft_form title content metadata w :
  writes_once (createDraft h title content metadata)
    (λ _ d, status d = status_draft ∧ collaborators d = []
            ∧ ∃ v, versions d = [v] ∧ dv_version v = 1) w.
Proof.
  unfold createDraft.
  apply writes_once_bind; [apply keeps_stores_drafts, keeps_stores_require_client |].
  intros [] w1 _.
  apply writes_once_bind; [apply keeps_stores_drafts, keeps_stores_require_address |].
  intros owner w2 _.
  apply writes_once_bind; [apply keeps_stores_drafts, keeps_stores_lift |].
  intros documentKey w3 _.
  apply writes_once_bind; [apply keeps_stores_drafts, keeps_stores_lift |].
  intros encrypted w4 _.
  apply writes_once_bind;
    [apply keeps_stores_drafts, keeps_stores_getOrDeriveDerivedKey |].
  intros derivedKey w5 _.
  apply writes_once_bind; [apply keeps_stores_drafts, keeps_stores_lift |].
  intros ownerKeyShare w6 _.
  apply writes_once_bind; [apply keeps_drafts_upload |].
  intros uploadResult w7 _.
  apply writes_once_save. intros w8. split_and!; try done. by eexists.
Qed.

Lemma saveDraftVersion_form id content message w :
  writes_once (saveDraftVersion h id content message)
    (λ _ d, ∃ i d0 v latest,
       find_draft id (drafts w) = Some (i, d0)
       ∧ last (versions d0) = Some latest
       ∧ dv_version v = dv_version latest + 1
       ∧ d = with_updatedAt (Date_now h) (with_versions (versions d0 ++ [v]) d0)) w.
Proof.
  unfold saveDraftVersion.
  apply writes_once_bind; [apply keeps_stores_drafts, keeps_stores_require_client |].
  intros [] w1 Hc. apply require_client_Ok in Hc as [_ ->].
  apply writes_once_bind; [done |].
  intros found w2 Hc. unfold getDraft in Hc. simplify_eq.
  destruct (find_draft id (drafts w2)) as [[i draft]|] eqn:Hfind;
    [| by apply writes_once_keeps].
  simpl.
  apply writes_once_bind; [apply keeps_stores_drafts, keeps_stores_require_address |].
  intros owner w3 Hc. apply require_address_Ok in Hc as (_ & _ & ->).
  apply writes_once_bind; [apply keeps_stores_drafts, keeps_stores_getDocumentKey |].
  intros documentKey w4 Hc.
  apply writes_once_bind; [apply keeps_stores_drafts, keeps_stores_lift |].
  intros encrypted w5 Hc'. rewrite lift_run in Hc'. simplify_eq.
  destruct (last_elem (versions draft)) as [latest|] eqn:Hlast;
    [| by apply writes_once_keeps].
  apply writes_once_bind; [apply keeps_drafts_upload |].
  intros uploadResult w6 _.
  apply writes_once_save. intros w7. split; [done |].
  eexists i, draft, _, latest. split_and!; [done | done | idtac | done]; done.
Qed.

Lemma addCollaborator_form id cw cn w :
  writes_once (addCollaborator h id cw cn)
    (λ _ d, ∃ i d0 c,
       find_draft id (drafts w) = Some (i, d0)
       ∧ some (is_collaborator (c_wallet c)) (collaborators d0) = false
       ∧ d = with_new_collaborator h c d0) w.
Proof.
  unfold addCollaborator.
  apply writes_once_bind; [done |].
  intros found w2 Hc. unfold getDraft in Hc. simplify_eq.
  destruct (find_draft id (drafts w2)) as [[i draft]|] eqn:Hfind;
    [| by apply writes_once_keeps].
  simpl.
  apply writes_once_bind; [apply keeps_stores_drafts, keeps_stores_require_address |].
  intros owner w3 _.
  destruct (negb _); [by apply writes_once_keeps |].
  destruct (some _ _) eqn:Hsome; [by apply writes_once_keeps |].
  apply writes_once_bind; [apply keeps_stores_drafts, keeps_stores_getDocumentKey |].
  intros documentKey w4 _.
  apply writes_once_save. intros w5. unfold bind, try_catchM.
  match goal with |- context [uploadCollaborationInvitation h ?d ?c w5] =>
    pose proof (keeps_drafts_uploadCollaborationInvitation h d c w5) as Hk;
    destruct (uploadCollaborationInvitation h d c w5) as [[invitationId|e] w6] end;
    simpl in *; (split; [done |]); eexists i, draft, _;
    (split_and!; [done | idtac | done]; done).
Qed.

Lemma processSecureShareLink_form id documentKeyBase64 w :
  writes_once (processSecureShareLink h id documentKeyBase64)
    (λ _ d, (∃ i d0 j c ks,
               find_draft id (drafts w) = Some (i, d0)
               ∧ collaborators d0 !! j = Some c
               ∧ d = with_collaborators
                       (<[j := with_keyShare ks c]> (collaborators d0)) d0)
            ∨ (status d = status_shared
               ∧ ∃ c v, collaborators d = [c] ∧ versions d = [v])) w.
Proof.
  unfold processSecureShareLink.
  destruct (getConnectedAddress h) as [wallet|]; [| by apply writes_once_keeps].
  destruct (negb _); [by apply writes_once_keeps |].
  apply writes_once_bind; [done |].
  intros found w2 Hc. unfold getDraft in Hc. simplify_eq.
  destruct (find_draft id (drafts w2)) as [[i existingDraft]|] eqn:Hfind; simpl.
  - destruct (String.eqb _ _); [by apply writes_once_keeps |].
    destruct (list_find _ _) as [[j existingCollab]|] eqn:Hcollab;
      [| by apply writes_once_keeps].
    destruct (str_truthy _); [by apply writes_once_keeps |].
    apply writes_once_bind;
      [apply keeps_stores_drafts, keeps_stores_getOrDeriveDerivedKey |].
    intros derivedKey w3 Hc.
    apply writes_once_bind; [done |]. intros documentKey w4 Hc1.
    apply writes_once_bind; [done |]. intros keyShare w5 Hc2.
    apply writes_once_save. intros w6. split; [done |]. left.
    eexists i, existingDraft, j, existingCollab, keyShare. split_and!; [done | | done].
    by apply list_find_Some in Hcollab as [? _].
  - apply writes_once_try; [| done].
    apply writes_once_bind; [apply verifyInvitationOnCascade_keeps |].
    intros isInvited w3 Hc.
    destruct (negb isInvited); [by apply writes_once_keeps |].
    apply writes_once_then; [| intros []; done].
    unfold importDraftFromCascade. apply writes_once_try; [| done].
    apply writes_once_bind; [apply keeps_stores_drafts, keeps_stores_require_client |].
    intros [] w4 _.
    destruct (find _ _) as [invitationAction|]; [| by apply writes_once_keeps].
    apply writes_once_bind; [done |]. intros text w5 _.
    apply writes_once_bind; [done |]. intros invitation w6 _.
    apply writes_once_bind;
      [apply keeps_stores_drafts, keeps_stores_getOrDeriveDerivedKey |].
    intros derivedKey w7 _.
    apply writes_once_bind; [done |]. intros documentKey w8 _.
    apply writes_once_bind; [done |]. intros keyShare w9 _.
    apply writes_once_save. intros w10. split; [done |]. right.
    split; [done |]. by eexists _, _.
Qed.

(** A property closed under the module's updates is kept by every
    operation, for all the stored drafts. *)
Lemma exec_closed (P : Draft → Prop) (op : Op) (w : World) :
  closed_under_updates h P → Forall P (drafts w) → Forall P (drafts (exec h op w).2).
Proof.
  intros Hclosed Hall.
  assert (∀ id i d, find_draft id (drafts w) = Some (i, d) → P d) as Hstored.
  { intros id i d Hfind%find_draft_elem. by eapply Forall_forall in Hall. }
  destruct op as [t c md | i c msg | i v | i cw cn | i k | m | a f | i |]; simpl.
  - rewrite ignore_world.
    destruct (createDraft_form t c md w) as [-> | (d & (Hst & Hco & v & Hv & Hn) & ->)];
      [done |].
    apply Forall_save_into; [done |]. by eapply closed_created.
  - rewrite ignore_world.
    destruct (saveDraftVersion_form i c msg w)
      as [-> | (d & (j & d0 & v & latest & Hfind & Hlast & Hn & ->) & ->)]; [done |].
    apply Forall_save_into; [done |]. eapply closed_version; eauto.
  - by rewrite ignore_world, loadDraftContent_keeps.
  - rewrite ignore_world.
    destruct (addCollaborator_form i cw cn w)
      as [-> | (d & (j & d0 & c & Hfind & Hnew & ->) & ->)]; [done |].
    apply Forall_save_into; [done |]. eapply closed_collaborator; eauto.
  - rewrite ignore_world.
    destruct (processSecureShareLink_form i k w)
      as [-> | (d & [(j & d0 & n & c & ks & Hfind & Hc & ->)
                    | (Hst & c & v & Hco & Hv)] & ->)]; [done | |].
    + apply Forall_save_into; [done |]. eapply closed_keyShare; eauto.
    + apply Forall_save_into; [done |]. by eapply closed_imported.
  - unfold fetchUserDrafts_syncs. rewrite try_catchM_ret_world.
    apply (for_each_invariant (λ w1, Forall P (drafts w1))); [| done].
    intros [id found] w1 _ Hall1. simpl.
    destruct (fetchUserDrafts_sync_cases h id found w1)
      as [-> | (j & local & Hfind & ->)]; [done |].
    unfold sync_world. destruct (newer_on_cascade local found); [| done].
    rewrite drafts_saveDraft. apply Forall_save_into; [done |].
    eapply closed_synced; [done |].
    apply find_draft_elem in Hfind. by eapply Forall_forall in Hall1.
  - unfold fetchInvitedDrafts_syncs, bind, getAllDrafts.
    rewrite try_catchM_ret_world.
    apply (for_each_invariant (λ w1, Forall P (drafts w1))); [| done].
    intros draft w1 Hin Hall1. rewrite fetchInvitedDrafts_sync_world.
    destruct (newer_on_cascade draft _); [| done].
    rewrite drafts_saveDraft. apply Forall_save_into; [done |].
    eapply closed_synced; [done |].
    apply list_elem_of_In, filter_In in Hin as [Hin _].
    apply list_elem_of_In in Hin. by eapply Forall_forall in Hall.
  - unfold deleteDraft. simpl. apply Forall_forall.
    intros d [_ Hd]%list_elem_of_filter. by eapply Forall_forall in Hall.
  - done.
Qed.
End Forms.

Section Strict.
Context {A : Type} (key : A → Z).





End Strict.



Lemma sharing_consistent_closed (h : Host) : closed_under_updates h sharing_consistent.
Proof.
  split; unfold sharing_consistent.
  - intros d v Hs Hc _ _. by left.
  - intros d v latest Hd _ _. done.
  - intros d c _ _. right. split; [done |]. simpl. by destruct (collaborators d).
  - intros d j c ks [[Hs Hc] | [Hs Hc]] Hj; simpl.
    + rewrite Hc in Hj. done.
    + right. split; [done |]. intros Hnil. apply (f_equal length) in Hnil.
      rewrite length_insert in Hnil. by destruct (collaborators d).
  - intros d c v Hs Hc _. right. by rewrite Hc.
  - intros d found Hd. done.
Qed.

Lemma collaborators_unique_closed (h : Host) : closed_under_updates h collaborators_unique.
Proof.
  split; unfold collaborators_unique.
  - intros d v _ -> _ _. constructor.
  - intros d v latest Hd _ _. done.
  - intros d c Hd Hnew. simpl. rewrite fmap_app. apply NoDup_app.
    split_and!; [done | | apply NoDup_singleton].
    intros wallet (c' & -> & Hc')%list_elem_of_fmap Heq%list_elem_of_singleton.
    assert (some (is_collaborator (c_wallet c)) (collaborators d) = true) as Hyes;
      [| congruence].
    unfold some. apply existsb_exists. exists c'. split; [by apply list_elem_of_In |].
    unfold is_collaborator. by apply String.eqb_eq.
  - intros d j c ks Hd Hj. simpl. rewrite list_fmap_insert. simpl.
    rewrite list_insert_id; [done |]. by rewrite list_lookup_fmap, Hj.
  - intros d c v _ -> _. simpl. apply NoDup_singleton.
  - intros d found Hd. done.
Qed.


(** X13. A stored draft is shared exactly when it has a collaborator: the
    property that every stored draft either is private ([draft]) with no
    collaborator, or is [shared] with at least one, is kept by every
    operation of the module. No operation stores a draft as [published]. *)
Theorem shared_iff_collaborators `{Sodium} `{Json} (h : Host) (op : Op) (w : World) :
  Forall sharing_consistent (drafts w) →
  Forall sharing_consistent (drafts (exec h op w).2).
Proof. apply exec_closed, sharing_consistent_closed. Qed.

(** X14. No wallet is listed twice among the collaborators of a draft: the
    property is kept by every operation of the module, so the first entry
    that [find] returns for a wallet is its only one. *)
Theorem collaborators_stay_unique `{Sodium} `{Json} (h : Host) (op : Op) (w : World) :
  Forall collaborators_unique (drafts w) →
  Forall collaborators_unique (drafts (exec h op w).2).
Proof. apply exec_closed, collaborators_unique_closed. Qed.


(** ** File names: what is uploaded is found again *)

Lemma append_nil s : "" +:+ s = s.
Proof. done. Qed.

Lemma append_cons a s t : String a s +:+ t = String a (s +:+ t).
Proof. done. Qed.

Lemma strip_prefix_app pre s : strip_prefix pre (pre +:+ s) = Some s.
Proof.
  induction pre as [|a pre IH]; rewrite ?append_nil, ?append_cons; simpl.
  - by destruct s.
  - by rewrite Ascii.eqb_refl.
Qed.

Lemma span_app (p : ascii → bool) run rest :
  Forall (λ c, p c = true) (list_ascii_of_string run) →
  match rest with
  | EmptyString => True
  | String c _ => p c = false
  end →
  span p (run +:+ rest) = (run, rest).
Proof.
  intros Hrun Hrest. induction run as [|a run IH];
    rewrite ?append_nil, ?append_cons; simpl in *.
  - destruct rest as [|c rest]; [done |]. simpl. by rewrite Hrest.
  - apply Forall_cons in Hrun as [-> Hrun]. by rewrite IH.
Qed.











(** ** The two fetches *)

Lemma versions_touched_refl d : versions_touched d d.
Proof. split; [by destruct d | done]. Qed.

Lemma versions_touched_trans d1 d2 d3 :
  versions_touched d1 d2 → versions_touched d2 d3 → versions_touched d1 d3.
Proof.
  intros [H12 S12] [H23 S23]. split; [| by etrans].
  rewrite H23. rewrite H12. by destruct d1.
Qed.

Lemma only_versions_touched_refl w : only_versions_touched w w.
Proof.
  split; [| by destruct w].
  apply Forall_Forall2_diag, Forall_forall. intros. apply versions_touched_refl.
Qed.

Lemma only_versions_touched_trans w1 w2 w3 :
  only_versions_touched w1 w2 → only_versions_touched w2 w3 →
  only_versions_touched w1 w3.
Proof.
  intros [H12 E12] [H23 E23]. split.
  - clear E12 E23. revert H23. generalize (drafts w3).
    induction H12 as [|d1 d2 l1 l2 Hd Hl IH]; intros l3 H23; inversion H23; subst;
      constructor; [by eapply versions_touched_trans | by apply IH].
  - rewrite E23 at 1. rewrite E12 at 1. by destruct w1.
Qed.

(** Writing back a draft read from the store, with a longer version list. *)
Lemma saveDraft_touch w i local d' :
  find_draft (draftId local) (drafts w) = Some (i, local) →
  versions_touched local d' →
  only_versions_touched w (saveDraft d' w).2.
Proof.
  intros Hfind Htouch. rewrite saveDraft_run.
  assert (draftId d' = draftId local) as Hid by (destruct Htouch as [-> _]; done).
  rewrite Hid, Hfind. simpl. split; [| done]. simpl.
  apply list_find_Some in Hfind as (Hi & _ & _).
  apply Forall2_same_length_lookup_2; [by rewrite length_insert |].
  intros j x y Hx Hy. destruct (decide (j = i)) as [-> | Hne].
  - rewrite list_lookup_insert_eq in Hy by (by eapply lookup_lt_Some).
    by simplify_eq.
  - rewrite list_lookup_insert_ne in Hy by done. simplify_eq.
    apply versions_touched_refl.
Qed.

Lemma synced_touched now local found :
  versions_touched local
    (with_updatedAt now
       (with_versions (sort_by dv_version (add_missing (versions local) found)) local)).
Proof.
  split; [by destruct local |]. simpl.
  destruct (add_missing_spec found (versions local)) as (added & -> & _).
  rewrite sort_by_Permutation. by apply submseteq_inserts_r.
Qed.

(** A loop keeps what each of its rounds keeps. *)
Lemma map_each_keeps {A B} (R : World → World → Prop) (xs : list A) (body : A → M B) :
  (∀ w, R w w) → (∀ w1 w2 w3, R w1 w2 → R w2 w3 → R w1 w3) →
  (∀ x w, R w (body x w).2) →
  ∀ w, R w (map_each xs body w).2.
Proof.
  intros Hrefl Htrans Hbody. induction xs as [|x xs IH]; intros w; simpl; [apply Hrefl |].
  unfold bind. specialize (Hbody x w).
  destruct (body x w) as [[b|e] w1]; simpl in *; [| done].
  specialize (IH w1). destruct (map_each xs body w1) as [[bs|e] w2]; simpl in *;
    by eapply Htrans.
Qed.

(** A loop whose rounds all succeed. *)
Lemma map_each_Ok {A B} (P : A → B → Prop) (xs : list A) (body : A → M B) :
  (∀ x w, x ∈ xs → ∃ b w', body x w = (Ok b, w') ∧ P x b) →
  ∀ w, ∃ bs w', map_each xs body w = (Ok bs, w') ∧ Forall2 P xs bs.
Proof.
  induction xs as [|x xs IH]; intros Hbody w; simpl.
  - by exists [], w.
  - destruct (Hbody x w ltac:(left)) as (b & w1 & Hrun & HP).
    destruct (IH (λ y w Hy, Hbody y w ltac:(by right)) w1) as (bs & w2 & Hrest & HF).
    exists (b :: bs), w2. unfold bind. rewrite Hrun. simpl. rewrite Hrest. simpl.
    split; [done | by constructor].
Qed.

Section IndexFacts.
Variable h : Host.

Lemma fetchUserDrafts_entry_touch entry w :
  only_versions_touched w (fetchUserDrafts_entry h entry w).2.
Proof.
  unfold fetchUserDrafts_entry. unfold bind at 1. unfold bind at 1. unfold getDraft.
  simpl.
  destruct (find_draft entry.1 (drafts w)) as [[i localDraft]|] eqn:Hfind; simpl.
  - destruct (last_elem (sort_by cv_version entry.2)) as [latest|]; simpl;
      [| apply only_versions_touched_refl].
    destruct (_ <? _); simpl; [| apply only_versions_touched_refl].
    destruct (find_draft_Some _ _ _ _ Hfind) as [_ Hid]. rewrite <- Hid in Hfind.
    pose proof (saveDraft_touch w i localDraft _ Hfind
                  (synced_touched (Date_now h) localDraft (sort_by cv_version entry.2)))
      as Htouch.
    unfold versions_of. destruct (saveDraft _ w) as [[[]|e] w1]; exact Htouch.
  - destruct (last_elem (sort_by cv_version entry.2)); apply only_versions_touched_refl.
Qed.

Lemma getActionsByCreator_sense addr data :
  GET_actions h (Some addr) = Ok data →
  getActionsByCreator h addr (Some "ACTION_TYPE_CASCADE")
  = Ok (List.filter (λ item, String.eqb (la_type item) "ACTION_TYPE_SENSE")
          (default [] data)).
Proof. intros Hget. unfold getActionsByCreator. by rewrite Hget. Qed.

Lemma getActionsByCreator_Err addr type e :
  GET_actions h (Some addr) = Err e →
  ∃ e', getActionsByCreator h addr type = Err e'.
Proof. intros Hget. unfold getActionsByCreator. rewrite Hget. by eexists. Qed.

(** X17. [fetchUserDrafts] never fails, whatever the index answers, and
    all it changes is the version lists of stored drafts: the same drafts
    are stored in the same order, each with its id, title, owner, keys,
    collaborators and status as before and with every version record it
    had; nothing is uploaded and the key cache is not touched. When the
    request to the index fails it returns the summaries of the local drafts,
    one per stored draft in the order of the store, and changes nothing. *)
Theorem fetchUserDrafts_touches_only_versions (addr : string) (w : World) :
  ∃ l w',
    fetchUserDrafts h addr w = (Ok l, w')
    ∧ only_versions_touched w w'
    ∧ ∀ e, GET_actions h (Some addr) = Err e →
        l = stored_draft <$> drafts w ∧ w' = w.
Proof.
  unfold fetchUserDrafts, try_catchM, bind, lift.
  destruct (GET_actions h (Some addr)) as [data|e] eqn:Hget.
  - rewrite (getActionsByCreator_sense addr data Hget).
    match goal with |- context [map_each ?xs ?body w] =>
      pose proof (map_each_keeps only_versions_touched xs body
                    only_versions_touched_refl only_versions_touched_trans
                    (λ x w, fetchUserDrafts_entry_touch x w) w) as Hkeeps;
      destruct (map_each xs body w) as [[l|e] w1]
    end; simpl in *.
    + by exists l, w1.
    + eexists _, w1. by split_and!.
  - destruct (getActionsByCreator_Err addr (Some "ACTION_TYPE_CASCADE") e Hget)
      as [e' ->].
    eexists _, w. split_and!; [done | apply only_versions_touched_refl |].
    intros _ _. done.
Qed.

(** The keys of the map, in the order of their first insertion. *)
Lemma map_push_keys {V} key (v : V) m :
  (map_push key v m).*1 = if bool_decide (key ∈ m.*1) then m.*1 else m.*1 ++ [key].
Proof.
  induction m as [|[k vs] m IH]; simpl; [done |].
  destruct (String.eqb_spec k key) as [-> | Hne]; simpl.
  - rewrite bool_decide_true by left. done.
  - change (list_fmap _ _ fst ?l) with (l.*1). rewrite IH.
    destruct (decide (key ∈ m.*1)) as [Hin | Hnin].
    + rewrite !bool_decide_true; [done | by right | done].
    + rewrite !bool_decide_false; [done | | done].
      intros [? | ?]%elem_of_cons; [by subst | done].
Qed.

Lemma map_push_not_empty {V} key (v : V) m :
  Forall (λ e, e.2 ≠ []) m → Forall (λ e, e.2 ≠ []) (map_push key v m).
Proof.
  induction 1 as [|[k vs] m Hk Hm IH]; simpl.
  - by repeat constructor.
  - destruct (String.eqb k key); constructor; simpl in *; try done.
    by destruct vs.
Qed.

Lemma own_versions_keys (actions : list LumescopeAction) :
  NoDup (own_versions h actions).*1
  ∧ Forall (λ e, e.2 ≠ []) (own_versions h actions)
  ∧ ∀ id, id ∈ (own_versions h actions).*1 ↔
      ∃ action digits, action ∈ actions
        ∧ draft_file_match (action_fileName action) = Some (id, digits).
Proof.
  unfold own_versions.
  assert (∀ m0 : list (string * list CascadeVersion),
            NoDup m0.*1 → Forall (λ e, e.2 ≠ []) m0 →
            let m := fold_left
              (λ draftMap action,
                 match draft_file_match (action_fileName action) with
                 | None => draftMap
                 | Some (draftId, digits) =>
                     map_push draftId (index_version h action digits) draftMap
                 end) actions m0 in
            NoDup m.*1 ∧ Forall (λ e, e.2 ≠ []) m
            ∧ ∀ id, id ∈ m.*1 ↔
                id ∈ m0.*1 ∨
                ∃ action digits, action ∈ actions
                  ∧ draft_file_match (action_fileName action) = Some (id, digits))
    as Hgen.
  { induction actions as [|a actions IH]; intros m0 Hnd Hne; simpl.
    - split_and!; [done | done |]. intros id. split; [by left |].
      intros [? | (? & ? & []%elem_of_nil & _)]. done.
    - destruct (draft_file_match (action_fileName a)) as [[id0 digits0]|] eqn:Hm.
      + destruct (IH (map_push id0 (index_version h a digits0) m0)) as (Hnd' & Hne' & Hin').
        { rewrite map_push_keys. case_bool_decide; [done |].
          apply NoDup_app. split_and!; [done | | apply NoDup_singleton].
          intros x Hx ->%list_elem_of_singleton. done. }
        { by apply map_push_not_empty. }
        split_and!; [done | done |]. intros id. rewrite Hin'. rewrite map_push_keys.
        split.
        * intros [Hid | (action & digits & Hact & Hmatch)].
          -- case_bool_decide; [by left |].
             apply elem_of_app in Hid as [? | ->%list_elem_of_singleton]; [by left |].
             right. exists a, digits0. split; [left | done].
          -- right. exists action, digits. split; [by right | done].
        * intros [Hid | (action & digits & [-> | Hact]%elem_of_cons & Hmatch)].
          -- left. case_bool_decide; [done | apply elem_of_app; by left].
          -- left. rewrite Hm in Hmatch. simplify_eq.
             case_bool_decide; [done | apply elem_of_app; right; left].
          -- right. eauto.
      + destruct (IH m0 Hnd Hne) as (Hnd' & Hne' & Hin').
        split_and!; [done | done |]. intros id. rewrite Hin'. split.
        * intros [? | (action & digits & ? & ?)]; [by left |].
          right. exists action, digits. split; [by right | done].
        * intros [? | (action & digits & [-> | ?]%elem_of_cons & Hmatch)]; [by left | |].
          -- congruence.
          -- right. eauto. }
  destruct (Hgen [] (NoDup_nil_2) (Forall_nil_2 _)) as (Hnd & Hne & Hin).
  split_and!; [done | done |]. intros id. rewrite Hin. split; [| by right].
  intros [[]%elem_of_nil | ?]. done.
Qed.

Lemma add_collaborator_versions_not_empty addr allActions id versions :
  versions ≠ [] → add_collaborator_versions h addr allActions id versions ≠ [].
Proof.
  unfold add_collaborator_versions.
  generalize (List.filter (is_collaborator_version addr id) allActions).
  intros l. revert versions. induction l as [|a l IH]; intros versions Hne; simpl; [done |].
  apply IH. destruct (draft_file_match _) as [[? digits]|]; [| done].
  destruct (some _ versions); [done |]. by destruct versions.
Qed.

Lemma fetchUserDrafts_entry_Ok entry w :
  entry.2 ≠ [] →
  ∃ sd w', fetchUserDrafts_entry h entry w = (Ok sd, w') ∧ sd_draftId sd = entry.1.
Proof.
  intros Hne. unfold fetchUserDrafts_entry.
  destruct (last_elem (sort_by cv_version entry.2)) as [latest|] eqn:Hlast.
  2: { unfold last_elem in Hlast. by apply last_None, sort_by_nil in Hlast. }
  unfold bind at 1. unfold bind at 1. unfold getDraft. simpl.
  destruct (find_draft entry.1 (drafts w)) as [[i localDraft]|]; simpl.
  - destruct (_ <? _); simpl.
    + rewrite saveDraft_run. simpl. by eexists _, _.
    + by eexists _, _.
  - by eexists _, _.
Qed.

(** X18. What [fetchUserDrafts] lists when the index answers. It asks
    [getActionsByCreator] for the type ['ACTION_TYPE_CASCADE'], which that
    function, knowing only ['cascade'], takes for the other type: the drafts
    listed are those of the wallet's actions of type [ACTION_TYPE_SENSE]
    that are done and whose file name is that of a draft version; each such
    [draftId] is listed once, and an action of any other type adds
    nothing. *)
Theorem fetchUserDrafts_lists_sense_actions (addr : string) (w : World)
    (data : option (list LumescopeAction)) :
  GET_actions h (Some addr) = Ok data →
  ∃ l w',
    fetchUserDrafts h addr w = (Ok l, w')
    ∧ NoDup (sd_draftId <$> l)
    ∧ ∀ id, id ∈ sd_draftId <$> l ↔
        ∃ action digits,
          action ∈ default [] data
          ∧ la_type action = "ACTION_TYPE_SENSE"
          ∧ is_draft_action action = true
          ∧ draft_file_match (action_fileName action) = Some (id, digits).
Proof.
  intros Hget. unfold fetchUserDrafts, try_catchM, bind, lift.
  rewrite (getActionsByCreator_sense addr data Hget).
  set (actions := List.filter _ (default [] data)).
  destruct (own_versions_keys (List.filter is_draft_action actions))
    as (Hnd & Hne & Hin).
  assert ((discovered h addr actions).*1
          = (own_versions h (List.filter is_draft_action actions)).*1) as Hkeys.
  { unfold discovered. rewrite <- list_fmap_compose. done. }
  destruct (map_each_Ok (λ entry sd, sd_draftId sd = entry.1)
              (discovered h addr actions) (fetchUserDrafts_entry h)) with (w := w)
    as (l & w' & -> & Hall).
  { intros entry w0 Hentry. apply fetchUserDrafts_entry_Ok.
    unfold discovered in Hentry. apply list_elem_of_fmap in Hentry as (e0 & -> & He0).
    simpl. apply add_collaborator_versions_not_empty.
    by eapply (proj1 (Forall_forall _ _) Hne). }
  assert (sd_draftId <$> l = (discovered h addr actions).*1) as Hids.
  { clear -Hall. induction Hall; simpl; [done | by f_equal]. }
  exists l, w'. rewrite Hids, Hkeys. split_and!; [done | done |].
  intros id. rewrite Hin. unfold actions. split.
  - intros (action & digits & Hact & Hmatch). exists action, digits.
    apply list_elem_of_In, filter_In in Hact as [Hact Hdraft].
    apply filter_In in Hact as [Hact Htype%String.eqb_eq].
    by apply list_elem_of_In in Hact.
  - intros (action & digits & Hact & Htype & Hdraft & Hmatch). exists action, digits.
    split; [| done]. apply list_elem_of_In, filter_In. split; [| done].
    apply filter_In. split; [by apply list_elem_of_In | by apply String.eqb_eq].
Qed.

(** *** [fetchInvitedDrafts] *)

Lemma newer_on_cascade_nil d : newer_on_cascade d [] = false.
Proof. done. Qed.

Lemma fetchInvitedDrafts_draft_run actions d w :
  fetchInvitedDrafts_draft h actions d w =
  (Ok (synced_if_newer (Date_now h) (cascade_versions h actions) d),
   if newer_on_cascade d (cascade_versions h actions (draftId d))
   then (saveDraft (synced_draft (Date_now h) d (cascade_versions h actions (draftId d)))
           w).2
   else w).
Proof.
  unfold fetchInvitedDrafts_draft, synced_if_newer, newer_on_cascade, synced_draft.
  case_bool_decide as Hlen.
  - destruct (last_elem (sort_by cv_version _)) as [latest|] eqn:Hlast.
    + destruct (_ <? _); [| done]. unfold bind. rewrite saveDraft_run. done.
    + unfold last_elem in Hlast. apply last_None, sort_by_nil in Hlast.
      rewrite Hlast in Hlen. simpl in Hlen. lia.
  - destruct (cascade_versions h actions (draftId d)); [done | simpl in Hlen; lia].
Qed.

Lemma synced_if_newer_id now found d : draftId (synced_if_newer now found d) = draftId d.
Proof. unfold synced_if_newer. by destruct (newer_on_cascade _ _). Qed.

Lemma is_invited_synced addr now found d :
  is_invited addr (synced_if_newer now found d) = is_invited addr d.
Proof. unfold synced_if_newer. by destruct (newer_on_cascade _ _). Qed.

Lemma versions_touched_synced now found d :
  versions_touched d (synced_if_newer now found d).
Proof.
  unfold synced_if_newer. destruct (newer_on_cascade _ _);
    [apply synced_touched | apply versions_touched_refl].
Qed.

(** In a store without two drafts of one id, a draft is found under its
    id. *)
Lemma ids_unique_find ds i d :
  ids_unique ds → ds !! i = Some d → find_draft (draftId d) ds = Some (i, d).
Proof.
  intros Hu Hi. apply list_find_Some. split_and!; [done | done |].
  intros j y Hj Hlt Hid.
  assert (j = i); [| lia].
  eapply (NoDup_lookup _ _ _ _ Hu); rewrite list_lookup_fmap.
  - by rewrite Hj.
  - rewrite Hi. simpl. by rewrite Hid.
Qed.

Lemma invited_loop actions (xs : list Draft) : ∀ w,
  ids_unique (drafts w) → NoDup (draftId <$> xs) → (∀ x, x ∈ xs → x ∈ drafts w) →
  ∃ w',
    map_each xs (fetchInvitedDrafts_draft h actions) w
    = (Ok (synced_if_newer (Date_now h) (cascade_versions h actions) <$> xs), w')
    ∧ drafts w'
      = (λ d, if bool_decide (draftId d ∈ draftId <$> xs)
              then synced_if_newer (Date_now h) (cascade_versions h actions) d
              else d) <$> drafts w
    ∧ w' = set_drafts (drafts w') w.
Proof.
  set (s := synced_if_newer (Date_now h) (cascade_versions h actions)).
  induction xs as [|x xs IH]; intros w Hu Hnd Hin; simpl.
  - exists w. split_and!; [done | | by destruct w].
    rewrite <- (list_fmap_id (drafts w)) at 1. apply list_fmap_ext.
    by intros i d _.
  - apply NoDup_cons in Hnd as [Hx Hnd].
    destruct (proj1 (list_elem_of_lookup _ _) (Hin x ltac:(left))) as [i Hi].
    pose proof (ids_unique_find _ _ _ Hu Hi) as Hfind.
    unfold bind at 1. rewrite fetchInvitedDrafts_draft_run. fold s. simpl.
    set (w1 := if newer_on_cascade x _ then _ else w).
    assert (drafts w1 = <[i := s x]> (drafts w) ∧ w1 = set_drafts (drafts w1) w)
      as [Hw1 Hrest].
    { unfold w1, s, synced_if_newer. destruct (newer_on_cascade x _).
      - rewrite saveDraft_run. simpl. by rewrite Hfind.
      - rewrite list_insert_id by done. by destruct w. }
    assert (draftId (s x) = draftId x) as Hsx by apply synced_if_newer_id.
    destruct (IH w1) as (w' & Hrun & Hds & Hw').
    { unfold ids_unique. rewrite Hw1, list_fmap_insert, Hsx.
      rewrite list_insert_id; [done |]. by rewrite list_lookup_fmap, Hi. }
    { done. }
    { intros y Hy. destruct (proj1 (list_elem_of_lookup _ _) (Hin y ltac:(by right)))
        as [j Hj].
      apply list_elem_of_lookup. exists j. rewrite Hw1.
      rewrite list_lookup_insert_ne; [done |]. intros ->. simplify_eq.
      apply Hx. by apply list_elem_of_fmap_2. }
    exists w'. unfold bind. rewrite Hrun. simpl. split_and!; [done | |].
    + rewrite Hds, Hw1. apply list_eq. intros j.
      rewrite !list_lookup_fmap. destruct (decide (j = i)) as [-> | Hne].
      * rewrite list_lookup_insert_eq by (by eapply lookup_lt_Some).
        rewrite Hi. simpl. f_equal.
        rewrite bool_decide_false by (by rewrite Hsx).
        by rewrite bool_decide_true by left.
      * rewrite list_lookup_insert_ne by done.
        destruct (drafts w !! j) as [d|] eqn:Hj; simpl; [| done]. f_equal.
        assert (draftId d ≠ draftId x) as Hdx.
        { intros Heq. apply Hne.
          eapply (NoDup_lookup _ _ _ _ Hu); rewrite list_lookup_fmap.
          - by rewrite Hj.
          - rewrite Hi. simpl. by rewrite Heq. }
        destruct (decide (draftId d ∈ draftId <$> xs)).
        -- rewrite !bool_decide_true; [done | by right | done].
        -- rewrite !bool_decide_false; [done | | done].
           intros [? | ?]%elem_of_cons; done.
    + rewrite Hw' at 1. rewrite Hrest. by destruct w.
Qed.

Lemma filter_fmap_if {A} (p : A → bool) (f : A → A) (l : list A) :
  (∀ x, p (f x) = p x) →
  List.filter p ((λ x, if p x then f x else x) <$> l) = f <$> List.filter p l.
Proof.
  intros Hpf. induction l as [|x l IH]; [done |].
  rewrite fmap_cons. cbn [List.filter]. destruct (p x) eqn:Hp.
  - rewrite Hpf, Hp, fmap_cons. by rewrite IH.
  - by rewrite Hp.
Qed.

Lemma fetchInvitedDrafts_run (addr : string) (w : World) :
  ids_unique (drafts w) →
  ∃ w',
    fetchInvitedDrafts h addr w
    = (Ok (invited_draft
             <$> (synced_if_newer (Date_now h) (cascade_versions h (getAllActions h))
                    <$> List.filter (is_invited addr) (drafts w))), w')
    ∧ drafts w'
      = (λ d, if is_invited addr d
              then synced_if_newer (Date_now h)
                     (cascade_versions h (getAllActions h)) d
              else d) <$> drafts w
    ∧ w' = set_drafts (drafts w') w.
Proof.
  intros Hu. unfold fetchInvitedDrafts. unfold bind at 1. unfold getAllDrafts. simpl.
  set (invited := List.filter (is_invited addr) (drafts w)).
  set (s := synced_if_newer (Date_now h) (cascade_versions h (getAllActions h))).
  assert (∀ x, x ∈ invited ↔ x ∈ drafts w ∧ is_invited addr x = true) as Hinv.
  { intros x. unfold invited. by rewrite !list_elem_of_In, filter_In. }
  destruct (invited_loop (getAllActions h) invited w Hu) as (w' & Hrun & Hds & Hw').
  { unfold invited. clear -Hu. unfold ids_unique in Hu.
    induction (drafts w) as [|d ds IH]; simpl; [constructor |].
    apply NoDup_cons in Hu as [Hd Hu]. destruct (is_invited addr d); [| by apply IH].
    simpl. apply NoDup_cons. split; [| by apply IH].
    intros (y & Hy & Hin)%list_elem_of_fmap. apply Hd. rewrite Hy.
    apply list_elem_of_fmap_2. by apply list_elem_of_In, filter_In in Hin as [?%list_elem_of_In _]. }
  { intros x Hx. by apply Hinv in Hx as [? _]. }
  fold s in Hrun, Hds.
  exists w'. unfold bind, try_catchM. rewrite Hrun. simpl. split_and!; [done | | done].
  rewrite Hds. apply list_fmap_ext. intros i d Hi.
  destruct (is_invited addr d) eqn:Hd.
  - rewrite bool_decide_true; [done |]. apply list_elem_of_fmap_2, Hinv.
    split; [by eapply list_elem_of_lookup_2 | done].
  - rewrite bool_decide_false; [done |].
    intros (y & Hy & [Hyin Hyinv]%Hinv)%list_elem_of_fmap.
    apply list_elem_of_lookup in Hyin as [j Hj].
    assert (i = j) as ->.
    { eapply (NoDup_lookup _ _ _ _ Hu); rewrite list_lookup_fmap.
      - by rewrite Hi.
      - rewrite Hj. simpl. by rewrite Hy. }
    congruence.
Qed.

(** X19. [fetchInvitedDrafts], on a store that holds no two drafts of one
    id, never fails, and what it returns describes what it leaves stored:
    one summary per draft the wallet is invited to (a collaborator and not
    the owner), in the order of the store, each read off the stored draft as
    it is after the call. Every invited draft for which the index lists a
    version number above its last local one has been synced with the index;
    every other draft is stored as it was. *)
Theorem fetchInvitedDrafts_lists_the_store (addr : string) (w : World) :
  ids_unique (drafts w) →
  ∃ w',
    fetchInvitedDrafts h addr w
    = (Ok (invited_draft <$> List.filter (is_invited addr) (drafts w')), w')
    ∧ drafts w'
      = (λ d, if is_invited addr d
              then synced_if_newer (Date_now h)
                     (cascade_versions h (getAllActions h)) d
              else d) <$> drafts w
    ∧ only_versions_touched w w'.
Proof.
  intros Hu. destruct (fetchInvitedDrafts_run addr w Hu) as (w' & Hrun & Hmap & Hw').
  exists w'. split_and!; [| done |].
  - rewrite Hrun. do 2 f_equal. rewrite Hmap.
    rewrite (filter_fmap_if (is_invited addr)); [done |].
    intros x. apply is_invited_synced.
  - split; [| done]. rewrite Hmap.
    apply Forall2_fmap_r, Forall_Forall2_diag, Forall_forall. intros d _. simpl.
    destruct (is_invited addr d); [apply versions_touched_synced | apply versions_touched_refl].
Qed.
End IndexFacts.

(** The version numbers read from the index do not depend on the time of
    the reading. *)
Lemma cascade_versions_numbers (h h2 : Host) actions id :
  cv_version <$> cascade_versions h2 actions id
  = cv_version <$> cascade_versions h actions id.
Proof.
  unfold cascade_versions.
  induction (List.filter (is_version_of id) actions) as [|a l IH]; [done |].
  rewrite !fmap_cons. cbn [List.filter].
  destruct (draft_file_match (action_fileName a)) as [[? digits]|]; simpl.
  - destruct (0 <? parseInt10 digits); [| done]. rewrite !fmap_cons. simpl. by f_equal.
  - done.
Qed.

Lemma cascade_versions_no_new_number (h h2 : Host) actions id :
  no_new_number (cascade_versions h2 actions id) (cascade_versions h actions id).
Proof.
  intros v Hv.
  assert (cv_version v ∈ cv_version <$> cascade_versions h actions id) as Hin.
  { rewrite <- (cascade_versions_numbers h h2). by apply list_elem_of_fmap_2. }
  apply list_elem_of_fmap in Hin as (v' & Heq & Hv'). by exists v'.
Qed.

(** A draft that has been synced is not synced again. *)
Lemma synced_if_newer_twice now now2 found found2 d :
  (∀ id, no_new_number (found2 id) (found id)) →
  synced_if_newer now2 found2 (synced_if_newer now found d) = synced_if_newer now found d.
Proof.
  intros Hsub. unfold synced_if_newer at 1. rewrite synced_if_newer_id.
  unfold synced_if_newer. destruct (newer_on_cascade d (found (draftId d))) eqn:Hnew.
  - by rewrite not_newer_after_sync.
  - by rewrite (not_newer_no_new_number d (found (draftId d)) (found2 (draftId d))).
Qed.

(** X20. [fetchInvitedDrafts] twice is [fetchInvitedDrafts] once: on a
    store that holds no two drafts of one id, a second call, made later
    while the index lists the same actions, returns the same summaries and
    leaves the store as the first call left it. *)
Theorem fetchInvitedDrafts_twice (h h2 : Host) (addr : string) (w : World) :
  ids_unique (drafts w) →
  getAllActions h2 = getAllActions h →
  ∃ l w',
    fetchInvitedDrafts h addr w = (Ok l, w')
    ∧ fetchInvitedDrafts h2 addr w' = (Ok l, w').
Proof.
  intros Hu Hindex.
  destruct (fetchInvitedDrafts_run h addr w Hu) as (w1 & Hrun1 & Hmap1 & Hw1).
  set (s1 := synced_if_newer (Date_now h) (cascade_versions h (getAllActions h))) in *.
  assert (ids_unique (drafts w1)) as Hu1.
  { unfold ids_unique. rewrite Hmap1, <- list_fmap_compose.
    erewrite list_fmap_ext; [exact Hu |]. intros i d _. simpl.
    destruct (is_invited addr d); [apply synced_if_newer_id | done]. }
  destruct (fetchInvitedDrafts_run h2 addr w1 Hu1) as (w2 & Hrun2 & Hmap2 & Hw2).
  rewrite Hindex in Hrun2, Hmap2.
  set (s2 := synced_if_newer (Date_now h2) (cascade_versions h2 (getAllActions h))) in *.
  assert (∀ d, s2 (s1 d) = s1 d) as Htwice.
  { intros d. apply synced_if_newer_twice. intros id.
    apply cascade_versions_no_new_number. }
  assert (List.filter (is_invited addr) (drafts w1)
          = s1 <$> List.filter (is_invited addr) (drafts w)) as Hinv1.
  { rewrite Hmap1. apply filter_fmap_if. intros x. apply is_invited_synced. }
  assert (drafts w2 = drafts w1) as Hsame.
  { rewrite Hmap2, Hmap1, <- list_fmap_compose. apply list_fmap_ext. intros i d _. simpl.
    destruct (is_invited addr d) eqn:Hd.
    - unfold s1 at 1. by rewrite is_invited_synced, Hd.
    - by rewrite Hd. }
  eexists _, w1. split; [exact Hrun1 |]. rewrite Hrun2. f_equal.
  - do 2 f_equal. rewrite Hinv1, <- list_fmap_compose. apply list_fmap_ext.
    intros i d _. apply Htwice.
  - rewrite Hw2, Hsame. by destruct w1.
Qed.

(** ** The wallet *)

(** X21. The state of [wallet.ts] stays consistent: from the loading of
    the page, after any sequence of page loads, connection attempts
    (whatever the extension answers) and disconnections, the flag
    [isConnected] is set exactly when an address is held, so that
    [isWalletConnected] says whether [getConnectedAddress] returns one, and
    the address held is the one kept in [sessionStorage]. *)
Theorem wallet_state_consistent (session : option string) (events : list wallet_ts.Event) :
  let st := foldl wallet_ts.step (wallet_ts.loaded session) events in
  wallet_consistent st
  ∧ (wallet_ts.isWalletConnected st = true ↔ is_Some (wallet_ts.getConnectedAddress st)).
Proof.
  assert (∀ st, wallet_consistent st →
                wallet_consistent (foldl wallet_ts.step st events)) as Hinv.
  { induction events as [|ev events IH]; intros st Hst; simpl; [done |].
    apply IH. destruct Hst as [Hflag Hsession].
    destruct ev as [|keplr|]; simpl.
    - unfold wallet_ts.initializeWalletState, wallet_ts.reload, wallet_ts.loaded. simpl.
      destruct (wallet_ts.session_wallet st) as [saved|]; simpl.
      + destruct (str_truthy saved); simpl.
        * split; [by split | by intros ? [= <-]].
        * split; [split; [done | by intros [? [=]]] | done].
      + split; [split; [done | by intros [? [=]]] | done].
    - unfold wallet_ts.connectWallet.
      destruct keplr as [keplr|]; simpl; [| done].
      destruct (wallet_ts.enable keplr); simpl; [done |].
      destruct (wallet_ts.getKey keplr); simpl; [done |].
      split; [by split | by intros ? [= <-]].
    - split; [split; [done | by intros [? [=]]] | done]. }
  intros st. assert (wallet_consistent st) as Hst.
  { apply Hinv. split; [split; [done | by intros [? [=]]] | done]. }
  split; [done |]. destruct Hst as [Hflag _].
  unfold wallet_ts.isWalletConnected, wallet_ts.getConnectedAddress.
  rewrite andb_true_iff, bool_decide_eq_true, Hflag. tauto.
Qed.

(** X22. A connection outlives a reload of the page, a disconnection does
    not. After [connectWallet] has succeeded with an address, the
    address is held and [isWalletConnected] is true; once the page is loaded
    again, [initializeWalletState] restores that address, unless it is the
    empty string, which it takes for no address. After [disconnectWallet]
    nothing is restored. A connection attempt that fails leaves the state
    as it was. *)
Theorem connection_survives_reload (keplr : option wallet_ts.Keplr) (st : wallet_ts.State) :
  (∀ address st',
     wallet_ts.connectWallet keplr st = (Ok address, st') →
     wallet_ts.getConnectedAddress st' = Some address
     ∧ wallet_ts.isWalletConnected st' = true
     ∧ wallet_ts.getConnectedAddress (wallet_ts.step st' wallet_ts.PageLoad)
       = (if str_truthy address then Some address else None)
     ∧ wallet_ts.isWalletConnected (wallet_ts.step st' wallet_ts.PageLoad)
       = str_truthy address
     ∧ wallet_ts.isWalletConnected
         (wallet_ts.step (wallet_ts.disconnectWallet st') wallet_ts.PageLoad) = false)
  ∧ (∀ e st', wallet_ts.connectWallet keplr st = (Err e, st') → st' = st).
Proof.
  unfold wallet_ts.connectWallet. split.
  - intros address st' Hrun.
    destruct keplr as [k|]; [| done].
    destruct (wallet_ts.enable k); [done |].
    destruct (wallet_ts.getKey k) as [|bech32Address]; [done |].
    injection Hrun as <- <-. split_and!; try done.
    + simpl. unfold wallet_ts.initializeWalletState. simpl.
      by destruct (str_truthy bech32Address).
    + simpl. unfold wallet_ts.initializeWalletState. simpl.
      by destruct (str_truthy bech32Address).
  - intros e st' Hrun.
    destruct keplr as [k|]; [| by injection Hrun].
    destruct (wallet_ts.enable k); [by injection Hrun |].
    destruct (wallet_ts.getKey k); [by injection Hrun | done].
Qed.

(** ** Papers *)

Lemma strip_prefix_Some pre : ∀ s rest,
  strip_prefix pre s = Some rest → s = pre +:+ rest.
Proof.
  induction pre as [|a pre IH]; intros s rest Hs; simpl in Hs.
  - destruct s; by injection Hs as <-.
  - destruct s as [|b s]; [done |].
    destruct (Ascii.eqb_spec a b) as [-> | ?]; [| done].
    rewrite append_cons. f_equal. by apply IH.
Qed.

Lemma span_spec (p : ascii → bool) : ∀ s run rest,
  span p s = (run, rest) →
  s = run +:+ rest ∧ Forall (λ c, p c = true) (list_ascii_of_string run).
Proof.
  induction s as [|c s IH]; intros run rest Hs; simpl in Hs.
  - injection Hs as <- <-. by split; [| constructor].
  - destruct (p c) eqn:Hc.
    + destruct (span p s) as [run' rest'] eqn:Hspan. injection Hs as <- <-.
      destruct (IH _ _ eq_refl) as [-> Hall].
      split; [done |]. simpl. by constructor.
    + injection Hs as <- <-. by split; [| constructor].
Qed.

Lemma append_empty_r s : s +:+ "" = s.
Proof.
  induction s as [|a s IH]; rewrite ?append_nil, ?append_cons; [done | by f_equal].
Qed.

(** X23. [parsePaperUri] reads back exactly the URIs that [formatPaperUri]
    writes for an action id made of decimal digits, at least one: it
    returns [id] for those and [null] for every other string. So the URI
    shown for a paper whose action id is not a number (a task id, or the
    [paper-{time}] fallback of [uploadPaper]) does not parse, nor does a
    draft URI. *)
Theorem parsePaperUri_formatPaperUri (uri id : string) :
  (parsePaperUri uri = Some id ↔ uri = formatPaperUri id ∧ id ≠ "" ∧ digits_only id)
  ∧ parsePaperUri (formatPaperUri ("paper-" +:+ id)) = None
  ∧ parsePaperUri (formatDraftUri id) = None.
Proof.
  split_and!.
  - unfold parsePaperUri, formatPaperUri. split.
    + destruct (strip_prefix "lumera://" uri) as [rest|] eqn:Hpre; [| done].
      apply strip_prefix_Some in Hpre as ->.
      destruct (span is_digit rest) as [digits rest'] eqn:Hspan.
      apply span_spec in Hspan as [-> Hdigits].
      destruct (String.eqb_spec digits "") as [| Hne]; [done |].
      destruct (String.eqb_spec rest' "") as [-> |]; [| done].
      intros [= <-]. by rewrite append_empty_r.
    + intros (-> & Hne & Hdigits). rewrite strip_prefix_app.
      rewrite <- (append_empty_r id) at 1.
      rewrite (span_app is_digit id ""); [| done | done].
      by rewrite (proj2 (String.eqb_neq _ _) Hne).
  - done.
  - done.
Qed.

Lemma parsePaperManifest_unfold `{Json} data :
  parsePaperManifest data =
  match JSON_parse data with
  | Some v => if strict_neq (discriminant v) "research_paper" then None else Some v
  | None => None
  end.
Proof.
  unfold parsePaperManifest, json_parse.
  destruct (JSON_parse data) as [v|]; [| done].
  destruct v; simpl; try done. by destruct (strict_neq _ _).
Qed.

(** X24. The two kinds of manifest are told apart. No text is accepted
    by both [parsePaperManifest] and [parseEncryptedDraftManifest], and what
    [parsePaperManifest] accepts is the parsed value, of type
    ['research_paper']. Of what [drafts.ts] uploads, nothing opens as a
    paper; a draft version opens as a draft manifest and an invitation does
    not. *)
Theorem manifests_told_apart `{Json} (data : string) :
  (parsePaperManifest data = None ∨ parseEncryptedDraftManifest data = None)
  ∧ (∀ manifest, parsePaperManifest data = Some manifest ↔
       JSON_parse data = Some manifest
       ∧ discriminant manifest = Some (JString "research_paper"))
  ∧ ∀ c, JSON_parse data = Some (json_of_content c) →
      parsePaperManifest data = None
      ∧ parseEncryptedDraftManifest data
        = match c with
          | ManifestJson _ => Some (json_of_content c)
          | InvitationJson _ => None
          end.
Proof.
  rewrite parsePaperManifest_unfold, parseEncryptedDraftManifest_unfold.
  destruct (JSON_parse data) as [v|].
  2: { split_and!; [by left | intros m; split; [done | by intros [[=] _]] | done]. }
  split_and!.
  - destruct (strict_neq (discriminant v) "research_paper") eqn:Hp; [by left |].
    apply strict_neq_false in Hp. rewrite Hp. by right.
  - intros m. destruct (strict_neq (discriminant v) "research_paper") eqn:Hp.
    + split; [done |]. intros [[= <-] Hd]. rewrite Hd in Hp. done.
    + apply strict_neq_false in Hp. split; [by intros [= <-] | by intros [[= <-] _]].
  - intros c [= ->]. by destruct c.
Qed.

Lemma prefix_append pre s : String.prefix pre (pre +:+ s) = true.
Proof.
  induction pre as [|a pre IH]; rewrite ?append_nil, ?append_cons; simpl.
  - by destruct s.
  - by destruct (ascii_dec a a).
Qed.

Lemma includes_prefix pre s : pre ≠ "" → includes pre (pre +:+ s) = true.
Proof.
  intros Hne. unfold includes. destruct pre as [|a pre]; [done |].
  rewrite append_cons. cbn [String.index]. rewrite <- append_cons.
  by rewrite prefix_append.
Qed.

(** X25. No file of [drafts.ts] is listed as a paper: an index entry
    whose file name is that of a draft version
    ([draft_{draftId}_v{number}.json]) or of an invitation
    ([invitation_{wallet}_{draftId}.json]) passes neither the test of
    [fetchUserPapers] nor that of [fetchAllPublications], whatever its
    type, state and MIME type. *)
Theorem drafts_never_listed_as_papers (mime_type : option string)
    (action : LumescopeAction) (draftId wallet : string) (number : Z) :
  action_fileName action = "draft_" +:+ draftId +:+ "_v" +:+ pretty number +:+ ".json"
  ∨ action_fileName action = "invitation_" +:+ wallet +:+ "_" +:+ draftId +:+ ".json" →
  fetchUserPapers_filter mime_type action = false
  ∧ fetchAllPublications_filter mime_type action = false.
Proof.
  intros Hname.
  assert (looksLikePaper (action_fileName action) = false) as Hlooks.
  { unfold looksLikePaper. destruct Hname as [-> | ->].
    - rewrite includes_prefix by done. simpl. by rewrite andb_false_r.
    - unfold startsWith. rewrite prefix_append. simpl. by rewrite andb_false_r. }
  unfold fetchUserPapers_filter, fetchAllPublications_filter.
  rewrite Hlooks. by rewrite !andb_false_r.
Qed.

(** ** Share links *)

Lemma key_match_at s key : key_at s = Some key → key_match s = Some key.
Proof. intros Hat. destruct s; unfold key_match; by rewrite Hat. Qed.

(** X26. The key written into a share link is the key read from it. The
    link [generateShareLink] makes ends in the fragment [#key=] followed by
    the encoded key; when the page is opened with that fragment,
    [parseShareLink] returns the key that was given, for a key whose
    encoding is not empty, holds no [&] and decodes to the key (as
    [encodeURIComponent] and [decodeURIComponent] have it on a base64
    text). *)
Theorem share_link_carries_key `{Uri} (baseUrl draftId documentKeyBase64 search : string) :
  encodeURIComponent documentKeyBase64 ≠ "" →
  Forall (λ c, c ≠ "&"%char)
    (list_ascii_of_string (encodeURIComponent documentKeyBase64)) →
  decodeURIComponent (encodeURIComponent documentKeyBase64) = Some documentKeyBase64 →
  ∃ hash,
    generateShareLink baseUrl draftId documentKeyBase64
    = baseUrl +:+ "/?draft=" +:+ draftId +:+ hash
    ∧ parseShareLink search hash
      = Some (URLSearchParams_get search "draft", Some documentKeyBase64).
Proof.
  intros Hne Hamp Hdecode.
  exists ("#key=" +:+ encodeURIComponent documentKeyBase64). split; [done |].
  unfold parseShareLink.
  assert (key_match ("#key=" +:+ encodeURIComponent documentKeyBase64)
          = Some (encodeURIComponent documentKeyBase64)) as ->.
  { change ("#key=" +:+ ?s) with (String "#" ("key=" +:+ s)).
    cbn [key_match]. replace (key_at (String "#" _)) with (@None string) by done.
    apply key_match_at. unfold key_at. rewrite strip_prefix_app.
    rewrite <- (append_empty_r (encodeURIComponent documentKeyBase64)) at 1.
    rewrite (span_app not_ampersand _ ""); [| | done].
    - by rewrite (proj2 (String.eqb_neq _ _) Hne).
    - eapply Forall_impl; [exact Hamp |]. intros c Hc. unfold not_ampersand.
      apply negb_true_iff. by apply Ascii.eqb_neq. }
  rewrite Hdecode.
  change ("#key=" +:+ ?s) with (String "#" ("key=" +:+ s)).
  assert (includes "key=" (String "#" ("key=" +:+ encodeURIComponent documentKeyBase64))
          = true) as ->.
  { unfold includes. cbn [String.index].
    replace (String.prefix "key=" (String "#" _)) with false by done.
    pose proof (includes_prefix "key=" (encodeURIComponent documentKeyBase64)
                  ltac:(done)) as Hinc.
    unfold includes in Hinc. by destruct (String.index 0 "key=" _). }
  done.
Qed.

(** ** Answers and effects *)

Lemma quiet_keeps {A} (good : A → bool) (c : M A) : keeps_stores c → quiet_unless good c.
Proof. intros Hc w _. apply Hc. Qed.

Lemma quiet_bind {A B} (good : B → bool) (c : M A) (k : A → M B) :
  keeps_stores c → (∀ a, quiet_unless good (k a)) → quiet_unless good (bind c k).
Proof.
  intros Hc Hk w. unfold bind. specialize (Hc w).
  destruct (c w) as [[a|e] w1]; simpl in *; [| done].
  destruct Hc as [<- <-]. apply Hk.
Qed.

Lemma quiet_try {A} (good : A → bool) (body : M A) (handler : exn → M A) :
  quiet_unless good body → (∀ e, keeps_stores (handler e)) →
  quiet_unless good (try_catchM body handler).
Proof.
  intros Hb Hh w. unfold try_catchM. specialize (Hb w).
  destruct (body w) as [[a|e] w1]; simpl in *; [done |].
  intros _. destruct (Hb I) as [<- <-]. apply Hh.
Qed.

Lemma quiet_good {A} (good : A → bool) (c : M unit) (a : A) :
  good a = true → succeeds c → quiet_unless good (bind c (λ _, ret a)).
Proof.
  intros Hgood Hc w. unfold bind. destruct (Hc w) as [[] Hrun].
  destruct (c w) as [[[]|e] w1]; simpl in *; [| done]. congruence.
Qed.

Section Answers.
Context `{Sodium} `{Json}.
Variable h : Host.

Lemma keeps_stores_verifyInvitationOnCascade draftId wallet :
  keeps_stores (verifyInvitationOnCascade h draftId wallet).
Proof. done. Qed.

Lemma importDraftFromCascade_quiet draftId wallet documentKeyBase64 :
  quiet_unless (λ draftCreated : bool, draftCreated)
    (importDraftFromCascade h draftId wallet documentKeyBase64).
Proof.
  unfold importDraftFromCascade. apply quiet_try; [| done].
  apply quiet_bind; [apply keeps_stores_require_client | intros _].
  destruct (find _ _) as [invitationAction|]; [| by apply quiet_keeps].
  apply quiet_bind; [apply keeps_stores_lift | intros invitationJson].
  apply quiet_bind; [apply keeps_stores_lift | intros invitation].
  apply quiet_bind; [apply keeps_stores_getOrDeriveDerivedKey | intros derivedKey].
  apply quiet_bind; [apply keeps_stores_lift | intros documentKey].
  apply quiet_bind; [apply keeps_stores_lift | intros keyShare].
  apply quiet_good; [done | apply succeeds_saveDraft].
Qed.

Lemma processSecureShareLink_quiet draftId documentKeyBase64 :
  quiet_unless success (processSecureShareLink h draftId documentKeyBase64).
Proof.
  unfold processSecureShareLink.
  destruct (getConnectedAddress h) as [wallet|]; [| by apply quiet_keeps].
  destruct (negb _); [by apply quiet_keeps |].
  apply quiet_bind; [apply keeps_stores_getDraft | intros [existingDraft|]].
  - destruct (String.eqb _ _); [by apply quiet_keeps |].
    destruct (list_find _ _) as [[i existingCollab]|]; [| by apply quiet_keeps].
    destruct (str_truthy _); [by apply quiet_keeps |].
    apply quiet_bind; [apply keeps_stores_getOrDeriveDerivedKey | intros derivedKey].
    apply quiet_bind; [apply keeps_stores_lift | intros documentKey].
    apply quiet_bind; [apply keeps_stores_lift | intros keyShare].
    apply quiet_good; [done | apply succeeds_saveDraft].
  - apply quiet_try; [| done].
    apply quiet_bind; [apply keeps_stores_verifyInvitationOnCascade | intros isInvited].
    destruct (negb isInvited); [by apply quiet_keeps |].
    intros w. pose proof (importDraftFromCascade_quiet draftId wallet documentKeyBase64 w)
      as Himp.
    unfold bind in *.
    destruct (importDraftFromCascade h draftId wallet documentKeyBase64 w)
      as [[[]|e] w1]; simpl in *; [done | | done].
    intros _. by apply Himp.
Qed.

(** X27. [processSecureShareLink] touches the stores only when it answers
    with a success: after an answer that is not a success, as after a throw,
    the local drafts and the Cascade store are what they were; it never
    uploads anything; and it throws only on the path that imports the key
    into a draft already stored (with no wallet connected, or no local
    record of the draft, it always returns an answer). The same holds of
    [importDraftFromCascade] and its [false]. *)
Theorem unsuccessful_link_stores_nothing (draftId documentKeyBase64 : string) (w : World) :
  (∀ answer w',
     processSecureShareLink h draftId documentKeyBase64 w = (Ok answer, w') →
     success answer = false →
     drafts w' = drafts w ∧ cascade w' = cascade w)
  ∧ (∀ e w',
       processSecureShareLink h draftId documentKeyBase64 w = (Err e, w') →
       drafts w' = drafts w ∧ cascade w' = cascade w
       ∧ is_Some (getConnectedAddress h) ∧ is_Some (find_draft draftId (drafts w)))
  ∧ (∀ wallet w',
       importDraftFromCascade h draftId wallet documentKeyBase64 w = (Ok false, w') →
       drafts w' = drafts w ∧ cascade w' = cascade w).
Proof.
  split_and!.
  - intros answer w' Hrun Hfail.
    pose proof (processSecureShareLink_quiet draftId documentKeyBase64 w) as Hq.
    rewrite Hrun in Hq. by apply Hq.
  - intros e w' Hrun.
    pose proof (processSecureShareLink_quiet draftId documentKeyBase64 w) as Hq.
    rewrite Hrun in Hq. destruct (Hq I) as [Hd Hc]. split_and!; [done | done | |].
    + unfold processSecureShareLink in Hrun.
      destruct (getConnectedAddress h); [by eexists | done].
    + unfold processSecureShareLink in Hrun.
      destruct (getConnectedAddress h) as [wallet|]; [| done].
      destruct (negb _); [done |]. unfold bind at 1 in Hrun. unfold getDraft in Hrun.
      simpl in Hrun.
      destruct (find_draft draftId (drafts w)) as [[i d]|]; [by eexists |].
      simpl in Hrun.
      pose proof (succeeds_try
        (isInvited <- verifyInvitationOnCascade h draftId wallet ;;
         if negb isInvited then ret NotInvited else
         draftCreated <- importDraftFromCascade h draftId wallet documentKeyBase64 ;;
         if draftCreated
         then ret (link_result true "Draft imported successfully! You can now edit it.")
         else ret (link_result false "Failed to import draft from Cascade"))%M
        (λ _, ret (link_result false "Failed to verify invitation"))
        (λ _, succeeds_ret _) w) as [a Ha].
      rewrite Hrun in Ha. done.
  - intros wallet w' Hrun.
    pose proof (importDraftFromCascade_quiet draftId wallet documentKeyBase64 w) as Hq.
    rewrite Hrun in Hq. by apply Hq.
Qed.

(** X28. [addCollaborator] does not depend on the upload of the
    invitation. For the owner of a stored draft whose key resolves, and a
    wallet that is not yet a collaborator, it succeeds whatever the uploader
    does: the collaborator is stored with the draft, now shared, and the
    key for the link is returned. When there is no Cascade client, or the
    uploader rejects the file, the call still succeeds, with no invitation
    id and nothing uploaded. *)
Theorem addCollaborator_outlives_upload (id cw cn : string) (w w1 : World)
    (i : nat) (draft : Draft) (K : bytes) :
  find_draft id (drafts w) = Some (i, draft) →
  getConnectedAddress h = Some (owner draft) →
  str_truthy (owner draft) = true →
  some (is_collaborator cw) (collaborators draft) = false →
  getDocumentKey h draft w = (Ok K, w1) →
  ∃ r w',
    addCollaborator h id cw cn w = (Ok r, w')
    ∧ r_collaborator r = new_collaborator h cw cn (owner draft) (to_base64 K)
    ∧ r_documentKeyBase64 r = to_base64 K
    ∧ find_draft id (drafts w')
      = Some (i, with_new_collaborator h (r_collaborator r) draft)
    ∧ (getLumeraClient h = false ∨ (∀ file, ∃ e, uploadFile h file = Err e) →
       r_invitationId r = None ∧ cascade w' = cascade w).
Proof.
  intros Hfind Hwallet Htruthy Hnew Hkey.
  destruct (find_draft_Some _ _ _ _ Hfind) as [_ Hid].
  destruct (keeps_stores_run _ _ _ _ (keeps_stores_getDocumentKey h draft) Hkey)
    as [Hd1 Hc1].
  unfold addCollaborator. unfold bind at 1. unfold getDraft. rewrite Hfind. simpl.
  unfold bind at 1. unfold require_address. rewrite Hwallet, Htruthy. simpl.
  unfold owner_of. rewrite String.eqb_refl, Hnew. simpl.
  unfold bind at 1. rewrite Hkey. simpl.
  unfold bind at 1. rewrite saveDraft_run. simpl. rewrite Hid, Hd1, Hfind.
  set (c := {| c_wallet := cw; c_name := cn; c_keyShare := _; c_addedAt := _;
               c_addedBy := _; c_documentKeyBase64 := _ |}).
  set (d' := with_updatedAt _ _).
  set (w2 := set_drafts _ w1).
  unfold bind at 1. unfold try_catchM.
  destruct (bind (uploadCollaborationInvitation h d' c) (λ id0, ret (Some id0)) w2)
    as [r0 w3] eqn:Hup.
  assert (drafts w3 = drafts w2 ∧
          (getLumeraClient h = false ∨ (∀ file, ∃ e, uploadFile h file = Err e) →
           (∃ e, r0 = Err e) ∧ cascade w3 = cascade w2)) as [Hd3 Hfail].
  { unfold bind in Hup.
    destruct (uploadCollaborationInvitation h d' c w2) as [r1 w4] eqn:Hinv.
    pose proof (uploadCollaborationInvitation_run _ _ _ _ _ _ Hinv) as [Hd4 _].
    assert (w4 = w3 ∧ ((∃ e, r1 = Err e) → ∃ e, r0 = Err e)) as [-> Hr].
    { destruct r1; unfold ret in Hup; injection Hup as <- <-;
        (split; [done |]); [by intros [? [=]] | by eexists]. }
    split; [done |]. intros Hdown.
    unfold uploadCollaborationInvitation, bind, require_client in Hinv.
    destruct (getLumeraClient h); simpl in Hinv.
    - destruct Hdown as [? | Hdown]; [done |].
      destruct (last_elem _) as [latest|]; simpl in Hinv.
      + unfold upload in Hinv.
        match type of Hinv with context [uploadFile h ?f] =>
          destruct (Hdown f) as [e He]; rewrite He in Hinv end.
        simpl in Hinv. injection Hinv as <- <-. split; [apply Hr; by eexists | done].
      + unfold throw in Hinv. injection Hinv as <- <-.
        split; [apply Hr; by eexists | done].
    - unfold throw in Hinv. injection Hinv as <- <-.
      split; [apply Hr; by eexists | done]. }
  assert (find_draft id (drafts w3) = Some (i, d')) as Hfind3.
  { rewrite Hd3. unfold w2. simpl. by eapply find_draft_insert. }
  destruct r0 as [invitationId|e]; simpl.
  - eexists _, w3. split_and!; [done | done | done | exact Hfind3 |].
    intros Hdown. by destruct (Hfail Hdown) as [[e [=]] _].
  - eexists _, w3. split_and!; [done | done | done | exact Hfind3 |].
    intros Hdown. destruct (Hfail Hdown) as [_ ->]. split; [done |].
    unfold w2. simpl. done.
Qed.

(** X29. The errors of [loadDraftContent] before it downloads anything,
    in the order the code checks: without a Cascade client it fails with
    'Cascade client not initialized'; else, for a [draftId] that is not
    stored, with 'Draft not found'; else, for a version index that is
    negative or not below the number of versions (or, with no index given,
    for a draft without versions), with 'Version not found'. In each case
    nothing is downloaded, no signature is asked for, and the state is as it
    was. *)
Theorem loadDraftContent_early_errors (id : string) (versionIndex : option Z) (w : World) :
  (getLumeraClient h = false →
   loadDraftContent h id versionIndex w = (Err ClientNotInitialized, w))
  ∧ (getLumeraClient h = true → find_draft id (drafts w) = None →
     loadDraftContent h id versionIndex w = (Err DraftNotFound, w))
  ∧ (∀ i draft,
       getLumeraClient h = true → find_draft id (drafts w) = Some (i, draft) →
       match versionIndex with
       | Some n => n < 0 ∨ Z.of_nat (length (versions draft)) ≤ n
       | None => versions draft = []
       end →
       loadDraftContent h id versionIndex w = (Err VersionNotFound, w)).
Proof.
  unfold loadDraftContent, bind, require_client, getDraft. split_and!.
  - by intros ->.
  - intros -> Hfind. simpl. by rewrite Hfind.
  - intros i draft -> Hfind Hindex. simpl. rewrite Hfind. simpl.
    assert (match versionIndex with
            | Some i0 => at_index (versions draft) i0
            | None => last_elem (versions draft)
            end = None) as ->; [| done].
    destruct versionIndex as [n|].
    + unfold at_index. destruct (Z.leb_spec 0 n); [| done].
      apply lookup_ge_None. lia.
    + by rewrite Hindex.
Qed.

(** X30. No two stored drafts share a [draftId]: the property is kept by
    every operation of the module, since [saveDraft] replaces the record
    stored under the id of the draft it is given and appends only when there
    is none. *)
Theorem ids_stay_unique (op : Op) (w : World) :
  ids_unique (drafts w) → ids_unique (drafts (exec h op w).2).
Proof. apply exec_ids_unique. Qed.
End Answers.

(** * Concrete runs *)

Section Concrete.
#[local] Existing Instance Ref.sodium.
#[local] Existing Instance Ref.reader.
#[local] Existing Instance Ref_sodium_laws.


Lemma parseEncryptedDraftManifest_total_witness :
  parseEncryptedDraftManifest "null" = None
  ∧ parseEncryptedDraftManifest "{not json" = None
  ∧ parseEncryptedDraftManifest "paper" = None
  ∧ parseEncryptedDraftManifest "manifest x y" = JSON_parse "manifest x y".
Proof.
  split_and!.
  - apply (parseEncryptedDraftManifest_total "null"). right.
    exists JNull. split; [reflexivity | discriminate].
  - apply (parseEncryptedDraftManifest_total "{not json"). left. reflexivity.
  - apply (parseEncryptedDraftManifest_total "paper"). right.
    eexists. split; [reflexivity | discriminate].
  - apply (parseEncryptedDraftManifest_total "manifest x y").
    split; reflexivity.
Defined.

Lemma createDraft_upload_failure_witness :
  (∃ e, (createDraft
           (Ref.with_uploadFile (λ _, Err (Rejected Uploader "storage unavailable"))
              (Ref.host Ref.alice))
           "T" "hello" Ref.no_metadata Ref.empty_world).1 = Err e)
  ∧ drafts (createDraft
              (Ref.with_uploadFile (λ _, Err (Rejected Uploader "storage unavailable"))
                 (Ref.host Ref.alice))
              "T" "hello" Ref.no_metadata Ref.empty_world).2 = []
  ∧ cascade (createDraft
               (Ref.with_uploadFile (λ _, Err (Rejected Uploader "storage unavailable"))
                  (Ref.host Ref.alice))
               "T" "hello" Ref.no_metadata Ref.empty_world).2 = [].
Proof.
  apply (createDraft_upload_failure
           (Ref.with_uploadFile (λ _, Err (Rejected Uploader "storage unavailable"))
              (Ref.host Ref.alice)) "T" "hello" Ref.no_metadata Ref.empty_world).
  intros file m _ _. eexists. reflexivity.
Defined.


Lemma processSecureShareLink_not_invited_witness :
  processSecureShareLink (Ref.host Ref.bob) "BBBBBBBB"
    (to_base64 (Ref.key_of Byte.x41)) Ref.empty_world
  = (Ok NotInvited, Ref.empty_world).
Proof.
  apply (processSecureShareLink_not_invited (Ref.host Ref.bob) "BBBBBBBB"
           (to_base64 (Ref.key_of Byte.x41)) Ref.bob Ref.empty_world);
    [reflexivity | reflexivity | reflexivity |].
  intros action Hin. vm_compute in Hin. by apply elem_of_nil in Hin.
Defined.



Lemma versions_reconciled_witness :
  ∃ local',
    find_draft "BBBBBBBB"
      (drafts (fetchUserDrafts_sync (Ref.host Ref.alice) "BBBBBBBB" found_on_index
                 alice_world).2) = Some (0%nat, local')
    ∧ reconciled found_on_index alice_draft local'.
Proof.
  exact (proj1 (versions_reconciled (Ref.host Ref.alice) found_on_index alice_world
                  (fetchUserDrafts_sync (Ref.host Ref.alice) "BBBBBBBB" found_on_index
                     alice_world).2 0 alice_draft eq_refl (or_introl eq_refl))).
Defined.

(** C2 as stated fails here: versions 1 and 2 are discovered and absent
    from the local list, and neither sync appends them. *)
Lemma reconciliation_skips_older_versions :
  existsb (λ v, cv_version v =? 1) index_versions = true
  ∧ some (has_version 1) (versions bob_draft) = false
  ∧ (fetchInvitedDrafts_sync (Ref.host Ref.bob) bob_draft index_versions bob_world).2
    = bob_world
  ∧ (fetchUserDrafts_sync (Ref.host Ref.bob) "BBBBBBBB" index_versions bob_world).2
    = bob_world
  ∧ some (has_version 1)
      (versions (default no_draft
         (snd <$> find_draft "BBBBBBBB"
            (drafts (fetchInvitedDrafts_sync (Ref.host Ref.bob) bob_draft
                       index_versions bob_world).2)))) = false.
Proof. split_and!; reflexivity. Qed.


Lemma concurrent_calls_one_signature_witness :
  ∃ p,
    (calls (Ref.host Ref.alice) 3 Ref.empty_session).1 = replicate 3 (Awaits p)
    ∧ s_signRequests (calls (Ref.host Ref.alice) 3 Ref.empty_session).2
      = [(p, DERIVED_KEY_MESSAGE)]
    ∧ ∀ r, r ∈ (calls (Ref.host Ref.alice) 3 Ref.empty_session).1 →
        awaited (wallet_answers (Ref.host Ref.alice) p
                   (Ok (list_byte_of_string "signature"))
                   (calls (Ref.host Ref.alice) 3 Ref.empty_session).2) r
        = Some (Ok (crypto_generichash 32 (list_byte_of_string "signature"))).
Proof.
  destruct (concurrent_calls_one_signature (H := Ref.sodium) (Ref.host Ref.alice) 3
              Ref.empty_session ltac:(lia) eq_refl eq_refl eq_refl)
    as (p & Hhandles & Hrequests & _ & Hanswer).
  exists p. split_and!; [exact Hhandles | exact Hrequests |].
  intros r Hr.
  destruct (Hanswer (Ok (list_byte_of_string "signature"))) as (_ & Hall & Hkey).
  rewrite (Hall r Hr). exact (f_equal Some (Hkey _ eq_refl eq_refl)).
Defined.
End Concrete.

(** * More concrete runs *)

Section MoreConcrete.
#[local] Existing Instance Ref.sodium.
#[local] Existing Instance Ref.reader.
#[local] Existing Instance Ref_sodium_laws.

Lemma Ref_sodium_sizes : @SodiumSizes Ref.sodium.
Proof.
  split.
  - simpl. lia.
  - intros m n k Hn. simpl in *. unfold Ref.seal.
    destruct n; [done |]. by destruct k.
  - intros b Hb. simpl. by destruct b.
Qed.

Lemma derivation_outcome_is_final_witness :
  getOrDeriveDerivedKey (Ref.host Ref.bob)
    (getOrDeriveDerivedKey (Ref.host Ref.alice) Ref.empty_world).2
  = getOrDeriveDerivedKey (Ref.host Ref.alice) Ref.empty_world
  ∧ (getOrDeriveDerivedKey (Ref.host Ref.bob)
       (clearDerivedKey (getOrDeriveDerivedKey (Ref.host Ref.alice) Ref.empty_world).2).2).1
    = Ok (derived_key Ref.bob).
Proof.
  destruct (derivation_outcome_is_final (Ref.host Ref.alice) Ref.empty_world)
    as (Hfinal & _ & Hclear).
  split; [exact (Hfinal (Ref.host Ref.bob)) |].
  exact (proj1 (Hclear (Ref.host Ref.bob) _ Ref.bob (list_byte_of_string Ref.bob)
                  eq_refl eq_refl eq_refl eq_refl eq_refl)).
Defined.

Lemma deleteDraft_getDraft_witness : (deleteDraft "CCCCCCCC" alice_world).2 = alice_world.
Proof.
  exact (proj2 (proj2 (deleteDraft_getDraft "CCCCCCCC" "BBBBBBBB" alice_world)) eq_refl).
Defined.

Lemma failed_operation_changes_nothing_witness :
  drafts (exec (offline Ref.alice) (SaveDraftVersion "BBBBBBBB" "again" None)
            alice_world).2 = drafts alice_world
  ∧ cascade (exec (offline Ref.alice) (SaveDraftVersion "BBBBBBBB" "again" None)
               alice_world).2 = cascade alice_world.
Proof.
  apply (failed_operation_changes_nothing (H := Ref.sodium) (H0 := Ref.reader)
           (offline Ref.alice) (SaveDraftVersion "BBBBBBBB" "again" None) alice_world
           (exec (offline Ref.alice) (SaveDraftVersion "BBBBBBBB" "again" None)
              alice_world).2
           (Rejected Uploader "storage unavailable")).
  reflexivity.
Defined.

Lemma getDocumentKey_errors_by_access_witness :
  (getDocumentKey (Ref.host Ref.bob) shared_draft bob_session).1 = Err NoKeyShare.
Proof.
  apply (proj2 (getDocumentKey_errors_by_access (Ref.host Ref.bob) "BBBBBBBB" bob_session
                  0 shared_draft Ref.bob (derived_key Ref.bob)
                  eq_refl eq_refl eq_refl eq_refl)).
  split_and!; [reflexivity | reflexivity | discriminate].
Defined.

Lemma no_access_no_content_witness :
  (∃ e, (loadDraftContent (H0 := Ref.reader) (Ref.host carol) "BBBBBBBB" None
           shared_world).1 = Err e)
  ∧ (∃ e, (saveDraftVersion (Ref.host carol) "BBBBBBBB" "mine" None shared_world).1
          = Err e).
Proof.
  destruct (no_access_no_content (H0 := Ref.reader) (Ref.host carol) "BBBBBBBB"
              shared_world eq_refl) as (Hload & Hsave & _).
  exact (conj (Hload None) (Hsave "mine" None)).
Defined.



Lemma link_key_imported_witness :
  ∃ w' draft',
    processSecureShareLink (Ref.host Ref.bob) "BBBBBBBB"
      (to_base64 (Ref.key_of Byte.x41)) bob_session
    = (Ok (link_result true "Access key imported successfully!"), w')
    ∧ find_draft "BBBBBBBB" (drafts w') = Some (0%nat, draft')
    ∧ getDocumentKey (Ref.host Ref.bob) draft' w' = (Ok (Ref.key_of Byte.x41), w')
    ∧ (hasValidKeyForDraft (Ref.host Ref.bob) "BBBBBBBB" w').1 = Ok true
    ∧ cascade w' = cascade bob_session.
Proof.
  apply (link_key_imported (H1 := Ref_sodium_sizes) (Ref.host Ref.bob) "BBBBBBBB"
           (to_base64 (Ref.key_of Byte.x41)) Ref.bob bob_session 0 0 shared_draft
           bob_entry (derived_key Ref.bob) (Ref.key_of Byte.x41));
    try reflexivity.
  discriminate.
Defined.

Lemma invited_wallet_imports_draft_witness :
  ∃ w' draft collaborator version,
    processSecureShareLink (H0 := archive_reader (cascade shared_world))
      (archive_host Ref.alice (cascade shared_world) Ref.bob) "BBBBBBBB"
      (r_documentKeyBase64 invite_result) Ref.empty_world
    = (Ok Imported, w')
    ∧ drafts w' = [draft]
    ∧ draftId draft = "BBBBBBBB"
    ∧ collaborators draft = [collaborator] ∧ c_wallet collaborator = Ref.bob
    ∧ versions draft = [version]
    ∧ dv_version version = 1
    ∧ getDocumentKey (archive_host Ref.alice (cascade shared_world) Ref.bob) draft w'
      = (Ok (Ref.key_of Byte.x41), w').
Proof.
  destruct (invited_wallet_imports_draft (H := Ref.sodium) (H0 := Ref_sodium_laws)
              (H1 := Ref_sodium_sizes) (H2 := archive_reader (cascade shared_world))
              (archive_host Ref.alice (cascade shared_world) Ref.bob) "BBBBBBBB"
              (r_documentKeyBase64 invite_result) Ref.bob Ref.empty_world
              (indexed "ACTION_TYPE_CASCADE" Ref.alice invitation_file)
              bob_invitation (derived_key Ref.bob) (Ref.key_of Byte.x41)
              eq_refl eq_refl eq_refl eq_refl eq_refl
              (ex_intro _ (fileName invitation_file) (conj eq_refl eq_refl))
              eq_refl eq_refl eq_refl eq_refl eq_refl)
    as (w' & draft & collaborator & version & Hrun & Hdrafts & _ & Hid & _ & _ & Hc & Hcw
        & Hv & Hn & _ & Hkey).
  exists w', draft, collaborator, version.
  split_and!; [exact Hrun | exact Hdrafts | exact Hid | exact Hc | exact Hcw | exact Hv
              | exact Hn | apply Hkey; discriminate].
Defined.

Lemma shared_key_reaches_collaborator_witness :
  ∃ wb' K ia drafta ib draftb,
    processSecureShareLink (H0 := archive_reader (cascade shared_world))
      (archive_host Ref.alice (cascade shared_world) Ref.bob) "BBBBBBBB"
      (r_documentKeyBase64 invite_result) Ref.empty_world
    = (Ok Imported, wb')
    ∧ find_draft "BBBBBBBB" (drafts alice_world) = Some (ia, drafta)
    ∧ find_draft "BBBBBBBB" (drafts wb') = Some (ib, draftb)
    ∧ (getDocumentKey (Ref.host Ref.alice) drafta alice_world).1 = Ok K
    ∧ getDocumentKey (archive_host Ref.alice (cascade shared_world) Ref.bob) draftb wb'
      = (Ok K, wb')
    ∧ owner draftb = owner drafta
    ∧ (λ v, (dv_version v, dv_actionId v)) <$> last (versions draftb)
      = (λ v, (dv_version v, dv_actionId v)) <$> last (versions drafta).
Proof.
  apply (shared_key_reaches_collaborator (H1 := Ref_sodium_sizes)
           (H2 := archive_reader (cascade shared_world))
           (Ref.host Ref.alice) (archive_host Ref.alice (cascade shared_world) Ref.bob)
           "BBBBBBBB" Ref.bob "Bob" alice_world shared_world Ref.empty_world
           invite_result invitation_file
           (indexed "ACTION_TYPE_CASCADE" Ref.alice invitation_file)
           (derived_key Ref.bob));
    try reflexivity.
  - discriminate.
  - eexists. split; reflexivity.
Defined.

Lemma shared_iff_collaborators_witness :
  Forall sharing_consistent (drafts shared_world).
Proof.
  assert (Forall sharing_consistent (drafts alice_world)) as Hbefore.
  { repeat constructor. }
  exact (shared_iff_collaborators (Ref.host Ref.alice)
           (AddCollaborator "BBBBBBBB" Ref.bob "Bob") alice_world Hbefore).
Defined.

Lemma collaborators_stay_unique_witness :
  Forall collaborators_unique (drafts shared_world).
Proof.
  assert (Forall collaborators_unique (drafts alice_world)) as Hbefore.
  { repeat constructor. }
  exact (collaborators_stay_unique (Ref.host Ref.alice)
           (AddCollaborator "BBBBBBBB" Ref.bob "Bob") alice_world Hbefore).
Defined.



Lemma fetchUserDrafts_touches_only_versions_witness :
  fetchUserDrafts (index_down Ref.alice) Ref.alice alice_world
  = (Ok (stored_draft <$> drafts alice_world), alice_world).
Proof.
  destruct (fetchUserDrafts_touches_only_versions (index_down Ref.alice) Ref.alice
              alice_world) as (l & w' & Hrun & _ & Hdown).
  destruct (Hdown _ eq_refl) as [-> ->]. exact Hrun.
Defined.

Lemma fetchUserDrafts_lists_sense_actions_witness :
  ∃ l w',
    fetchUserDrafts (sense_host Ref.alice (cascade second_save.2) Ref.alice) Ref.alice
      shared_world = (Ok l, w')
    ∧ NoDup (sd_draftId <$> l)
    ∧ ∀ id, id ∈ sd_draftId <$> l ↔
        ∃ action digits,
          action ∈ indexed "ACTION_TYPE_SENSE" Ref.alice <$> cascade second_save.2
          ∧ la_type action = "ACTION_TYPE_SENSE"
          ∧ is_draft_action action = true
          ∧ draft_file_match (action_fileName action) = Some (id, digits).
Proof.
  exact (fetchUserDrafts_lists_sense_actions
           (sense_host Ref.alice (cascade second_save.2) Ref.alice) Ref.alice shared_world
           (Some (indexed "ACTION_TYPE_SENSE" Ref.alice <$> cascade second_save.2))
           eq_refl).
Defined.

Lemma fetchInvitedDrafts_lists_the_store_witness :
  ∃ w',
    fetchInvitedDrafts (archive_host Ref.alice (cascade second_save.2) Ref.bob) Ref.bob
      bob_world
    = (Ok (invited_draft <$> List.filter (is_invited Ref.bob) (drafts w')), w')
    ∧ drafts w'
      = (λ d, if is_invited Ref.bob d
              then synced_if_newer
                     (Date_now (archive_host Ref.alice (cascade second_save.2) Ref.bob))
                     (cascade_versions
                        (archive_host Ref.alice (cascade second_save.2) Ref.bob)
                        (getAllActions
                           (archive_host Ref.alice (cascade second_save.2) Ref.bob))) d
              else d) <$> drafts bob_world
    ∧ only_versions_touched bob_world w'.
Proof.
  apply (fetchInvitedDrafts_lists_the_store
           (archive_host Ref.alice (cascade second_save.2) Ref.bob) Ref.bob bob_world).
  apply NoDup_singleton.
Defined.

Lemma fetchInvitedDrafts_twice_witness :
  ∃ l w',
    fetchInvitedDrafts (archive_host Ref.alice (cascade second_save.2) Ref.bob) Ref.bob
      bob_world = (Ok l, w')
    ∧ fetchInvitedDrafts (later (archive_host Ref.alice (cascade second_save.2) Ref.bob))
        Ref.bob w' = (Ok l, w').
Proof.
  apply (fetchInvitedDrafts_twice
           (archive_host Ref.alice (cascade second_save.2) Ref.bob)
           (later (archive_host Ref.alice (cascade second_save.2) Ref.bob))
           Ref.bob bob_world); [apply NoDup_singleton | reflexivity].
Defined.

Lemma connection_survives_reload_witness :
  wallet_ts.getConnectedAddress
    (wallet_ts.step
       (wallet_ts.connectWallet (Some (granting Ref.alice)) (wallet_ts.loaded None)).2
       wallet_ts.PageLoad)
  = Some Ref.alice.
Proof.
  destruct (connection_survives_reload (Some (granting Ref.alice)) (wallet_ts.loaded None))
    as [Hok _].
  destruct (Hok Ref.alice _ eq_refl) as (_ & _ & Hreload & _).
  exact Hreload.
Defined.

Lemma manifests_told_apart_witness :
  parsePaperManifest (H := archive_reader (cascade shared_world))
    (fileName invitation_file) = None
  ∧ parseEncryptedDraftManifest (H := archive_reader (cascade shared_world))
      (fileName invitation_file) = None.
Proof.
  destruct (manifests_told_apart (H := archive_reader (cascade shared_world))
              (fileName invitation_file)) as (_ & _ & Hc).
  exact (Hc (InvitationJson bob_invitation) eq_refl).
Defined.

Lemma drafts_never_listed_as_papers_witness :
  fetchUserPapers_filter (Some "application/json")
    (indexed "ACTION_TYPE_CASCADE" Ref.alice invitation_file) = false
  ∧ fetchAllPublications_filter (Some "application/json")
      (indexed "ACTION_TYPE_CASCADE" Ref.alice invitation_file) = false.
Proof.
  apply (drafts_never_listed_as_papers (Some "application/json")
           (indexed "ACTION_TYPE_CASCADE" Ref.alice invitation_file)
           "BBBBBBBB" Ref.bob 1).
  right. reflexivity.
Defined.

Lemma share_link_carries_key_witness :
  ∃ hash,
    generateShareLink (H := plain_uri) "https://archive.example" "BBBBBBBB" "QUFBQQ"
    = "https://archive.example" +:+ "/?draft=" +:+ "BBBBBBBB" +:+ hash
    ∧ parseShareLink (H := plain_uri) "?draft=BBBBBBBB" hash
      = Some (Some "BBBBBBBB", Some "QUFBQQ").
Proof.
  apply (share_link_carries_key (H := plain_uri) "https://archive.example" "BBBBBBBB"
           "QUFBQQ" "?draft=BBBBBBBB"); [discriminate | | reflexivity].
  repeat constructor; discriminate.
Defined.

Lemma unsuccessful_link_stores_nothing_witness :
  drafts (processSecureShareLink (Ref.host carol) "BBBBBBBB"
            (r_documentKeyBase64 invite_result) shared_world).2 = drafts shared_world
  ∧ cascade (processSecureShareLink (Ref.host carol) "BBBBBBBB"
               (r_documentKeyBase64 invite_result) shared_world).2 = cascade shared_world.
Proof.
  destruct (unsuccessful_link_stores_nothing (Ref.host carol) "BBBBBBBB"
              (r_documentKeyBase64 invite_result) shared_world) as (Hanswer & _ & _).
  exact (Hanswer (link_result false "You are not invited to this draft") _
           eq_refl eq_refl).
Defined.

Lemma addCollaborator_outlives_upload_witness :
  ∃ r w',
    addCollaborator (offline Ref.alice) "BBBBBBBB" Ref.bob "Bob" alice_world = (Ok r, w')
    ∧ r_invitationId r = None
    ∧ cascade w' = cascade alice_world
    ∧ r_documentKeyBase64 r = to_base64 (Ref.key_of Byte.x41).
Proof.
  destruct (addCollaborator_outlives_upload (H := Ref.sodium) (offline Ref.alice)
              "BBBBBBBB" Ref.bob "Bob" alice_world
              (getDocumentKey (offline Ref.alice) alice_draft alice_world).2
              0 alice_draft (Ref.key_of Byte.x41)
              eq_refl eq_refl eq_refl eq_refl ltac:(vm_compute; reflexivity))
    as (r & w' & Hrun & _ & Hkey & _ & Hdown).
  destruct Hdown as [Hnone Hcascade].
  { right. intros file. by eexists. }
  exists r, w'. by split_and!.
Defined.

Lemma loadDraftContent_early_errors_witness :
  loadDraftContent (Ref.host Ref.alice) "BBBBBBBB" (Some 5) alice_world
  = (Err VersionNotFound, alice_world).
Proof.
  destruct (loadDraftContent_early_errors (Ref.host Ref.alice) "BBBBBBBB" (Some 5)
              alice_world) as (_ & _ & Hbounds).
  apply (Hbounds 0%nat alice_draft eq_refl eq_refl). right. vm_compute. discriminate.
Defined.

Lemma ids_stay_unique_witness : ids_unique (drafts shared_world).
Proof.
  assert (ids_unique (drafts alice_world)) as Hbefore by apply NoDup_singleton.
  exact (ids_stay_unique (Ref.host Ref.alice) (AddCollaborator "BBBBBBBB" Ref.bob "Bob")
           alice_world Hbefore).
Defined.
End MoreConcrete.
